(** * Supervisor dashboard: the live-synchronisation and visualisation layer

    A shallow embedding of the browser-side code of the supervisor dashboard
    (core utilities, the streaming chat consumer, the log viewers with their
    pollers, and the metrics chart renderer), with the properties its
    specification states about them.

    Layout:
    - [Js]: the parts of the JavaScript language the code relies on
      (strings as sequences of UTF-16 code units, IEEE doubles,
      [JSON.parse], [ToString], [ToBoolean], [Number.prototype.toFixed],
      [Math.max]);
    - [Core]: [escapeHtml];
    - [Chat]: the read loop of [sendChatMessage];
    - [Pollers]: interval timers and the start and stop functions of the
      three pollers;
    - [LogView]: the scroll handling of the two log viewers;
    - [Chart]: [drawChart] and the data [refreshMetrics] hands to it;
    - [Tabs]: [switchTab], [closeLogsModal] and the poll of a security scan;
    - [Markup]: [formatMessage];
    - [ChatPage]: the chat panel, [addChatMessage] and [clearChat];
    - [Forms]: the fields of the service and cron forms, with [parseInt];
    - [Cron]: [parseEnvVars] and [envVarsToText];
    - [Security]: the findings shown by [displaySecurityResults].
    The properties follow the definitions, in the same order. *)

From Stdlib Require Import ZArith NArith List Bool Lia.
From Stdlib Require Import Strings.Ascii Strings.String.
From Stdlib Require Import Floats.
Import ListNotations.

#[local] Set Warnings "-inexact-float".
Local Open Scope Z_scope.

(* ================================================================== *)
(** * JavaScript values and built-ins *)
(* ================================================================== *)

Module Js.

(** ** Strings

    A JavaScript string is a finite sequence of UTF-16 code units. *)

Definition jsstring := list N.

(** [lit "abc"] is the JavaScript string literal ['abc'] (for ASCII text). *)
Definition lit (s : string) : jsstring :=
  map N_of_ascii (list_ascii_of_string s).

Definition LF : N := 10%N.      (* '\n' *)
Definition QUOTE : N := 34%N.   (* the double quote *)

Fixpoint str_eqb (a b : jsstring) : bool :=
  match a, b with
  | [], [] => true
  | x :: a', y :: b' => N.eqb x y && str_eqb a' b'
  | _, _ => false
  end.

(** [s.startsWith(prefix)] *)
Fixpoint startsWith (prefix s : jsstring) : bool :=
  match prefix, s with
  | [], _ => true
  | p :: prefix', c :: s' => N.eqb p c && startsWith prefix' s'
  | _ :: _, [] => false
  end.

(** [s.slice(n)] for a non-negative [n]. *)
Definition slice (n : nat) (s : jsstring) : jsstring := skipn n s.

(** [s.split(sep)] for a separator of one code unit: the pieces between the
    occurrences of [sep]; a string without [sep] (the empty one too) is its
    own single piece. *)
Fixpoint split (sep : N) (s : jsstring) : list jsstring :=
  match s with
  | [] => [[]]
  | c :: s' =>
      if N.eqb c sep then [] :: split sep s'
      else match split sep s' with
           | [] => [[c]]
           | piece :: pieces => (c :: piece) :: pieces
           end
  end.

(** White space and line terminators, as [String.prototype.trim] strips them. *)
Definition is_white_space (c : N) : bool :=
  existsb (N.eqb c)
    [9; 10; 11; 12; 13; 32; 160; 5760; 8232; 8233; 8239; 8287; 12288; 65279]%N
  || (N.leb 8192 c && N.leb c 8202).

Fixpoint trimStart (s : jsstring) : jsstring :=
  match s with
  | c :: s' => if is_white_space c then trimStart s' else s
  | [] => []
  end.

Definition trimEnd (s : jsstring) : jsstring := rev (trimStart (rev s)).

(** [s.trim()] *)
Definition trim (s : jsstring) : jsstring := trimEnd (trimStart s).

(** Decimal digits of a non-negative integer, most significant first. *)
Fixpoint digits_fuel (fuel : nat) (n : Z) (acc : jsstring) : jsstring :=
  match fuel with
  | O => acc
  | S fuel' =>
      let acc' := (48 + Z.to_N (n mod 10))%N :: acc in
      if n <? 10 then acc' else digits_fuel fuel' (n / 10) acc'
  end.

Definition digits (n : Z) : jsstring :=
  digits_fuel (S (Z.to_nat (Z.log2 n))) n [].

(** [s.padStart(len, '0')] *)
Definition padStart0 (len : nat) (s : jsstring) : jsstring :=
  repeat 48%N (len - List.length s) ++ s.

(** ** Numbers

    A Number is an IEEE 754 binary64 value: Rocq's primitive [float], whose
    operations are the processor's. *)

Definition Number := float.

(** The double nearest to the integer [z] (exact when [|z| < 2^53]). *)
Definition Number_of_Z (z : Z) : Number :=
  SF2Prim (binary_normalize prec emax z 0 false).

(** The double nearest to [p / q] for positive integers [p] and [q] (ties to
    even): the quotient is taken with at least 56 significant bits and a
    sticky last bit, then rounded once. *)
Definition Number_of_ratio (neg : bool) (p q : Z) : Number :=
  let s := Z.max 0 (56 + Z.log2 q - Z.log2 p) in
  let n := (p * 2 ^ s) / q in
  let r := (p * 2 ^ s) mod q in
  let m := 2 * n + (if r =? 0 then 0 else 1) in
  let x := SF2Prim (binary_normalize prec emax m (- (s + 1)) false) in
  if neg then PrimFloat.opp x else x.

(** The double nearest to [d * 10^e] for a non-negative integer [d]. *)
Definition Number_of_decimal (neg : bool) (d e : Z) : Number :=
  let signed (x : Number) := if neg then PrimFloat.opp x else x in
  if d =? 0 then signed PrimFloat.zero
  else if 310 <? e then signed PrimFloat.infinity
  else if e + Z.of_nat (List.length (digits d)) <? -330 then signed PrimFloat.zero
  else if 0 <=? e then Number_of_ratio neg (d * 10 ^ e) 1
  else Number_of_ratio neg d (10 ^ (- e)).

(** The exact value of a finite positive double, as a fraction. *)
Definition ratio_of_Number (x : Number) : option (Z * Z) :=
  match Prim2SF x with
  | S754_finite _ m e =>
      if 0 <=? e then Some (Z.pos m * 2 ^ e, 1) else Some (Z.pos m, 2 ^ (- e))
  | _ => None
  end.

Definition is_falsy_number (x : Number) : bool :=
  PrimFloat.is_zero x || PrimFloat.is_nan x.

(** [10^n <= p / q] *)
Definition pow10_le (p q n : Z) : bool :=
  if 0 <=? n then 10 ^ n * q <=? p else q <=? p * 10 ^ (- n).

Fixpoint decimal_exponent_from (fuel : nat) (p q n : Z) : Z :=
  match fuel with
  | O => n
  | S fuel' =>
      if pow10_le p q n then decimal_exponent_from fuel' p q (n + 1) else n
  end.

(** The [n] with [10^(n-1) <= p / q < 10^n]: counted up from an estimate
    that lies at most three below it. *)
Definition decimal_exponent (p q : Z) : Z :=
  decimal_exponent_from 8 p q (((Z.log2 p - Z.log2 q - 1) * 30103) / 100000).

(** The [k]-digit decimals [s * 10^(n-k)] next to [x = p / q] that read back
    as [x]; of two, the one nearer to [x], and the even one on a tie. *)
Definition digits_candidate (x : Number) (p q n k : Z) : option (Z * Z) :=
  let t := n - k in
  let '(a, b) := if 0 <=? t then (p, q * 10 ^ t) else (p * 10 ^ (- t), q) in
  let lo := a / b in
  let r := a mod b in
  let reads_back s := PrimFloat.eqb (Number_of_decimal false s t) x in
  let ok_lo := (0 <? lo) && reads_back lo in
  let ok_hi := negb (r =? 0) && reads_back (lo + 1) in
  let pick s := if s =? 10 ^ k then Some (10 ^ (k - 1), n + 1) else Some (s, n) in
  match ok_lo, ok_hi with
  | true, true =>
      if 2 * r <? b then pick lo
      else if b <? 2 * r then pick (lo + 1)
      else if Z.even lo then pick lo else pick (lo + 1)
  | true, false => pick lo
  | false, true => pick (lo + 1)
  | false, false => None
  end.

Fixpoint shortest_digits (fuel : nat) (x : Number) (p q n k : Z)
  : option (Z * Z) :=
  match fuel with
  | O => None
  | S fuel' =>
      match digits_candidate x p q n k with
      | Some sn => Some sn
      | None => shortest_digits fuel' x p q n (k + 1)
      end
  end.

(** [Number::toString(x)] in radix 10 (ECMA-262, 6.1.6.1.20). *)
Definition Number_toString (x : Number) : jsstring :=
  if PrimFloat.is_nan x then lit "NaN"
  else if PrimFloat.is_zero x then lit "0"
  else
    let sign := if PrimFloat.ltb x PrimFloat.zero then lit "-" else [] in
    let ax := PrimFloat.abs x in
    match ratio_of_Number ax with
    | None => sign ++ lit "Infinity"
    | Some (p, q) =>
        match shortest_digits 17 ax p q (decimal_exponent p q) 1 with
        | None => sign ++ lit "NaN"
        | Some (s, n) =>
            let ds := digits s in
            let k := Z.of_nat (List.length ds) in
            sign ++
            (if (k <=? n) && (n <=? 21) then
               ds ++ repeat 48%N (Z.to_nat (n - k))
             else if (0 <? n) && (n <=? 21) then
               firstn (Z.to_nat n) ds ++ lit "." ++ skipn (Z.to_nat n) ds
             else if (-6 <? n) && (n <=? 0) then
               lit "0." ++ repeat 48%N (Z.to_nat (- n)) ++ ds
             else
               let e := n - 1 in
               let es := (if e <? 0 then lit "-" else lit "+") ++ digits (Z.abs e) in
               match ds with
               | [d] => [d] ++ lit "e" ++ es
               | d :: ds' => [d] ++ lit "." ++ ds' ++ lit "e" ++ es
               | [] => []
               end)
        end
    end.

(** [x.toFixed(f)] (ECMA-262, 21.1.3.3): the integer [n] with [n / 10^f]
    nearest to [x], the larger one on a tie, printed with [f] decimals. *)
Definition toFixed (x : Number) (f : nat) : jsstring :=
  if PrimFloat.is_nan x then lit "NaN"
  else
    let neg := PrimFloat.ltb x PrimFloat.zero in
    let ax := PrimFloat.abs x in
    if PrimFloat.leb (Number_of_Z (10 ^ 21)) ax then Number_toString x
    else
      let n := match ratio_of_Number ax with
               | Some (p, q) => (2 * p * 10 ^ Z.of_nat f + q) / (2 * q)
               | None => 0
               end in
      let m := padStart0 (S f) (digits n) in
      let k := List.length m in
      (if neg then lit "-" else []) ++
      (if Nat.eqb f 0 then m
       else firstn (k - f) m ++ lit "." ++ skipn (k - f) m).

(** [Math.max(a, b)] on numbers: NaN if either is, and [+0] above [-0]. *)
Definition max2 (a b : Number) : Number :=
  if PrimFloat.is_nan a || PrimFloat.is_nan b then PrimFloat.nan
  else if PrimFloat.ltb a b then b
  else if PrimFloat.ltb b a then a
  else if PrimFloat.get_sign a then b else a.

(** [Math.max(...xs)] on numbers: it starts from [-Infinity]. *)
Definition Math_max (xs : list Number) : Number :=
  fold_left max2 xs PrimFloat.neg_infinity.

(** ** Values

    The values [JSON.parse] produces, and [undefined], which reading an
    absent property gives. An object keeps its properties in source order;
    of two with one name the later one counts. *)

#[local] Set Warnings "-register-all".

Inductive JsValue : Type :=
  | JUndefined
  | JNull
  | JBool (b : bool)
  | JNumber (x : Number)
  | JString (s : jsstring)
  | JArray (elements : list JsValue)
  | JObject (properties : list (jsstring * JsValue)).

(** [ToBoolean(v)]: what [if (v)], [!v] and [v || w] test. *)
Definition ToBoolean (v : JsValue) : bool :=
  match v with
  | JUndefined | JNull => false
  | JBool b => b
  | JNumber x => negb (is_falsy_number x)
  | JString s => match s with [] => false | _ => true end
  | JArray _ | JObject _ => true
  end.

(** [ToString(v)]: an array prints its elements joined by commas, with
    [null] and [undefined] elements empty; a plain object prints as
    [[object Object]]. (An object that has a property of its own named
    [toString], or an array that holds one, is outside this function: its
    conversion throws a TypeError. The statements below that depend on
    the difference are made for strings.) *)
Fixpoint ToString (v : JsValue) : jsstring :=
  match v with
  | JUndefined => lit "undefined"
  | JNull => lit "null"
  | JBool true => lit "true"
  | JBool false => lit "false"
  | JNumber x => Number_toString x
  | JString s => s
  | JArray elements =>
      (fix join (l : list JsValue) : jsstring :=
         match l with
         | [] => []
         | e :: l' =>
             (match e with JUndefined | JNull => [] | _ => ToString e end)
             ++ (match l' with [] => [] | _ => lit "," ++ join l' end)
         end) elements
  | JObject _ => lit "[object Object]"
  end.

(** [a || b] *)
Definition js_or (a b : JsValue) : JsValue := if ToBoolean a then a else b.

(** [a + s] where the right operand is a string: concatenation. *)
Definition js_concat (a : JsValue) (s : jsstring) : jsstring := ToString a ++ s.

(** Own property lookup: the last property of that name. *)
Fixpoint lookup (key : jsstring) (properties : list (jsstring * JsValue))
  : option JsValue :=
  match properties with
  | [] => None
  | (k, v) :: rest =>
      match lookup key rest with
      | Some v' => Some v'
      | None => if str_eqb k key then Some v else None
      end
  end.

(** [v.key] for a property name that no prototype defines ([type],
    [content]): [None] is the TypeError that reading a property of [null] or
    [undefined] throws; primitives and arrays have no such property. *)
Definition get (v : JsValue) (key : jsstring) : option JsValue :=
  match v with
  | JUndefined | JNull => None
  | JObject properties =>
      Some (match lookup key properties with Some x => x | None => JUndefined end)
  | _ => Some JUndefined
  end.

(** [v === 'literal'] *)
Definition strict_eq_string (v : JsValue) (s : jsstring) : bool :=
  match v with
  | JString s' => str_eqb s' s
  | _ => false
  end.

(** ** JSON.parse

    The JSON grammar of ECMA-404, read by recursive descent. Every function
    returns the value read with the rest of the input, or [None] where
    [JSON.parse] throws a SyntaxError. *)

Definition is_json_ws (c : N) : bool :=
  existsb (N.eqb c) [32; 9; 10; 13]%N.

Fixpoint skip_ws (s : jsstring) : jsstring :=
  match s with
  | c :: s' => if is_json_ws c then skip_ws s' else s
  | [] => []
  end.

Definition is_digit (c : N) : bool := (N.leb 48 c && N.leb c 57)%N.

Definition hex_value (c : N) : option N :=
  (if N.leb 48 c && N.leb c 57 then Some (c - 48)
   else if N.leb 65 c && N.leb c 70 then Some (c - 55)
   else if N.leb 97 c && N.leb c 102 then Some (c - 87)
   else None)%N.

(** The characters of a string literal after its opening quote, up to the
    closing one. *)
Fixpoint parse_chars (s : jsstring) : option (jsstring * jsstring) :=
  let cons c r :=
    match r with Some (cs, rest) => Some (c :: cs, rest) | None => None end in
  match s with
  | [] => None
  | 34%N :: rest => Some ([], rest)
  | 92%N :: 117%N :: a :: b :: c :: d :: rest =>
      match hex_value a, hex_value b, hex_value c, hex_value d with
      | Some a, Some b, Some c, Some d =>
          cons (((a * 16 + b) * 16 + c) * 16 + d)%N (parse_chars rest)
      | _, _, _, _ => None
      end
  | 92%N :: e :: rest =>
      match e with
      | 34%N => cons 34%N (parse_chars rest)
      | 92%N => cons 92%N (parse_chars rest)
      | 47%N => cons 47%N (parse_chars rest)
      | 98%N => cons 8%N (parse_chars rest)
      | 102%N => cons 12%N (parse_chars rest)
      | 110%N => cons 10%N (parse_chars rest)
      | 114%N => cons 13%N (parse_chars rest)
      | 116%N => cons 9%N (parse_chars rest)
      | _ => None
      end
  | c :: rest => if N.ltb c 32 then None else cons c (parse_chars rest)
  end.

(** The longest run of digits at the head of the input. *)
Fixpoint take_digits (s : jsstring) : jsstring * jsstring :=
  match s with
  | c :: s' =>
      if is_digit c then let '(ds, rest) := take_digits s' in (c :: ds, rest)
      else ([], s)
  | [] => ([], [])
  end.

Definition digits_value (ds : jsstring) : Z :=
  fold_left (fun acc c => acc * 10 + Z.of_N (c - 48)%N) ds 0.

(** A number literal, read as the nearest double: an optional minus sign, an
    integer part without a leading zero (unless it is the single digit 0),
    an optional fraction of at least one digit after a point, and an
    optional exponent of at least one digit after [e] or [E] and a sign. *)
Definition parse_number (s : jsstring) : option (Number * jsstring) :=
  let '(neg, s1) := match s with 45%N :: r => (true, r) | _ => (false, s) end in
  let '(int, s2) := take_digits s1 in
  match int with
  | [] => None
  | d :: int' =>
      if N.eqb d 48 && negb (match int' with [] => true | _ => false end)
      then None
      else
        let frac_part :=
          match s2 with
          | 46%N :: r =>
              let '(frac, s3) := take_digits r in
              match frac with [] => None | _ => Some (frac, s3) end
          | _ => Some ([], s2)
          end in
        match frac_part with
        | None => None
        | Some (frac, s3) =>
            let exp_part :=
              match s3 with
              | 101%N :: r | 69%N :: r =>
                  let '(eneg, r') :=
                    match r with
                    | 45%N :: r' => (true, r')
                    | 43%N :: r' => (false, r')
                    | _ => (false, r)
                    end in
                  let '(ex, s4) := take_digits r' in
                  match ex with
                  | [] => None
                  | _ => Some ((if eneg then -1 else 1) * digits_value ex, s4)
                  end
              | _ => Some (0, s3)
              end in
            match exp_part with
            | None => None
            | Some (e, s4) =>
                Some (Number_of_decimal neg (digits_value (int ++ frac))
                        (e - Z.of_nat (List.length frac)), s4)
            end
        end
  end.

(** A value, the elements of an array after its bracket, and the members of
    an object after its brace. Each call reads at least one code unit before
    the next one, so fuel beyond the length of the input is never used up. *)
Fixpoint parse_value (fuel : nat) (s : jsstring) {struct fuel}
  : option (JsValue * jsstring) :=
  match fuel with
  | O => None
  | S fuel' =>
      match skip_ws s with
      | 123%N :: r =>
          match skip_ws r with
          | 125%N :: r' => Some (JObject [], r')
          | r' =>
              match parse_members fuel' r' with
              | Some (ms, rest) => Some (JObject ms, rest)
              | None => None
              end
          end
      | 91%N :: r =>
          match skip_ws r with
          | 93%N :: r' => Some (JArray [], r')
          | r' =>
              match parse_elements fuel' r' with
              | Some (es, rest) => Some (JArray es, rest)
              | None => None
              end
          end
      | 34%N :: r =>
          match parse_chars r with
          | Some (cs, rest) => Some (JString cs, rest)
          | None => None
          end
      | 116%N :: 114%N :: 117%N :: 101%N :: r => Some (JBool true, r)
      | 102%N :: 97%N :: 108%N :: 115%N :: 101%N :: r => Some (JBool false, r)
      | 110%N :: 117%N :: 108%N :: 108%N :: r => Some (JNull, r)
      | r =>
          match parse_number r with
          | Some (x, rest) => Some (JNumber x, rest)
          | None => None
          end
      end
  end

with parse_elements (fuel : nat) (s : jsstring) {struct fuel}
  : option (list JsValue * jsstring) :=
  match fuel with
  | O => None
  | S fuel' =>
      match parse_value fuel' s with
      | None => None
      | Some (v, r) =>
          match skip_ws r with
          | 44%N :: r' =>
              match parse_elements fuel' r' with
              | Some (vs, rest) => Some (v :: vs, rest)
              | None => None
              end
          | 93%N :: r' => Some ([v], r')
          | _ => None
          end
      end
  end

with parse_members (fuel : nat) (s : jsstring) {struct fuel}
  : option (list (jsstring * JsValue) * jsstring) :=
  match fuel with
  | O => None
  | S fuel' =>
      match skip_ws s with
      | 34%N :: r =>
          match parse_chars r with
          | None => None
          | Some (key, r1) =>
              match skip_ws r1 with
              | 58%N :: r2 =>
                  match parse_value fuel' r2 with
                  | None => None
                  | Some (v, r3) =>
                      match skip_ws r3 with
                      | 44%N :: r4 =>
                          match parse_members fuel' r4 with
                          | Some (ms, rest) => Some ((key, v) :: ms, rest)
                          | None => None
                          end
                      | 125%N :: r4 => Some ([(key, v)], r4)
                      | _ => None
                      end
                  end
              | _ => None
              end
          end
      | _ => None
      end
  end.

(** [JSON.parse(text)]: one value with white space around it; [None] is the
    SyntaxError it throws on anything else. *)
Definition JSON_parse (text : jsstring) : option JsValue :=
  match parse_value (2 * List.length text + 2) text with
  | Some (v, rest) => match skip_ws rest with [] => Some v | _ => None end
  | None => None
  end.

End Js.

(* ================================================================== *)
(** * Core utilities *)
(* ================================================================== *)

Module Core.
Import Js.

Definition AMP : N := 38%N.    (* & *)
Definition LT : N := 60%N.     (* < *)
Definition GT : N := 62%N.     (* > *)
Definition NBSP : N := 160%N.  (* U+00A0 *)

(** How the HTML fragment serialiser writes one code unit of a text node
    (HTML standard, "escaping a string", outside attribute mode). *)
Definition escape_unit (c : N) : jsstring :=
  if N.eqb c AMP then lit "&amp;"
  else if N.eqb c NBSP then lit "&nbsp;"
  else if N.eqb c LT then lit "&lt;"
  else if N.eqb c GT then lit "&gt;"
  else [c].

(** [div.textContent = text; div.innerHTML] on a fresh [div]: the serialised
    text node whose data is [text]. *)
Definition serialize_text (text : jsstring) : jsstring :=
  flat_map escape_unit text.

(** [escapeHtml(text)]:
    [if (!text) return ''; div.textContent = text; return div.innerHTML;] *)
Definition escapeHtml (text : JsValue) : jsstring :=
  if negb (ToBoolean text) then []
  else serialize_text (ToString text).

End Core.

(* ================================================================== *)
(** * The streaming chat consumer *)
(* ================================================================== *)

Module Chat.
Import Js.

Inductive Role := user | assistant.

(** What the read loop does to the page: calls of
    [addChatMessage(role, content, isStreaming)], and the renaming of the
    streaming message to a persistent id on a [done] event. *)
Inductive Effect :=
  | AddChatMessage (role : Role) (content : JsValue) (isStreaming : bool)
  | FreezeStreaming.

(** The state of one [sendChatMessage] call while it reads the response:
    the local [responseContent] and the effects so far, oldest first. *)
Record Session := {
  responseContent : JsValue;
  effects : list Effect
}.

Definition start : Session :=
  {| responseContent := JString []; effects := [] |}.

(** [${v}] inside a template literal. *)
Definition interpolate (v : JsValue) : jsstring := ToString v.

(** The body of the [try] block after [JSON.parse]: the chain of tests on
    [event.type]. [None] is an exception thrown before any effect (reading
    [.type] of [null]), which the [catch] swallows. *)
Definition dispatch (rc : JsValue) (event : JsValue)
  : option (JsValue * list Effect) :=
  match get event (lit "type"), get event (lit "content") with
  | Some type, Some content =>
      if strict_eq_string type (lit "text")
         || strict_eq_string type (lit "content") then
        (* responseContent += (event.content || '') + '\n'; *)
        let rc' :=
          js_concat rc (js_concat (js_or content (JString [])) [LF]) in
        Some (JString rc', [AddChatMessage assistant (JString (trim rc')) true])
      else if strict_eq_string type (lit "result") && ToBoolean content then
        Some (content, [AddChatMessage assistant content true])
      else if strict_eq_string type (lit "error") then
        Some (rc, [AddChatMessage assistant
                     (JString (lit "Error: " ++ interpolate content)) true])
      else if strict_eq_string type (lit "done") then
        Some (rc, [FreezeStreaming])
      else Some (rc, [])
  | _, _ => None
  end.

(** The [try] block once [JSON.parse] has returned [event]. *)
Definition deliver (st : Session) (event : JsValue) : Session :=
  match dispatch (responseContent st) event with
  | None => st
  | Some (rc', effs) =>
      {| responseContent := rc'; effects := effects st ++ effs |}
  end.

(** One iteration of [for (const line of lines)]:
    [if (!line.startsWith('data: ')) continue;] then the [try] block, whose
    [catch] ignores what [JSON.parse(line.slice(6))] throws. *)
Definition process_line (st : Session) (line : jsstring) : Session :=
  if negb (startsWith (lit "data: ") line) then st
  else
    match JSON_parse (slice 6 line) with
    | None => st
    | Some event => deliver st event
    end.

(** One iteration of the [while (true)] loop for a decoded chunk:
    [chunk.split('\n')] and the loop over the lines. *)
Definition process_chunk (st : Session) (chunk : jsstring) : Session :=
  fold_left process_line (split LF chunk) st.

(** The whole read loop, for the decoded chunks the reader yields until it
    is done. *)
Definition read_loop (chunks : list jsstring) (st : Session) : Session :=
  fold_left process_chunk chunks st.

(** [sendChatMessage] from [let responseContent = ''] on, for a response
    whose body the reader yields in these chunks. *)
Definition sendChatMessage (chunks : list jsstring) : Session :=
  read_loop chunks start.

(** The events the loop hands to [dispatch]: the values [JSON.parse] returns
    for the [data: ] lines, in order. *)
Definition delivered_line (line : jsstring) : list JsValue :=
  if negb (startsWith (lit "data: ") line) then []
  else match JSON_parse (slice 6 line) with
       | None => []
       | Some event => [event]
       end.

Definition delivered (chunk : jsstring) : list JsValue :=
  flat_map delivered_line (split LF chunk).

Definition delivered_stream (chunks : list jsstring) : list JsValue :=
  flat_map delivered chunks.

(** A frame of the stream: [data: <body>] and the newline that ends it. *)
Definition frame (body : jsstring) : jsstring :=
  lit "data: " ++ body ++ [LF].

(** A chunk that ends where a frame ends (or is empty). *)
Definition ends_at_frame (chunk : jsstring) : bool :=
  match rev chunk with
  | [] => true
  | c :: _ => N.eqb c LF
  end.

(** JSON text written with ['] for the double quote. *)
Definition json (s : string) : jsstring :=
  map (fun c => if N.eqb c 39 then QUOTE else c) (lit s).

(** Three frame bodies: a text event, a body cut short, and a [done]
    event; and the frame of the first. *)
Definition hello_body : jsstring := json "{'type':'text','content':'hello'}".
Definition cut_body : jsstring := json "{'type':'text','content':'hel".
Definition done_body : jsstring := json "{'type':'done'}".

Definition hello_frame : jsstring := frame hello_body.

End Chat.

(* ================================================================== *)
(** * Interval pollers *)
(* ================================================================== *)

Module Pollers.

(** The three pollers of the page, each with the script variable that holds
    its timer handle and the function its timer calls:
    - [ServiceLogs]: [logsInterval], [refreshServiceLogs], every 1000 ms;
    - [SupervisorLogs]: [supervisorLogsInterval], [loadSupervisorLogs],
      every 1000 ms;
    - [SecurityScan]: [securityPollInterval], the status request of
      [startSecurityPoll], every 2000 ms. *)
Inductive Poller := ServiceLogs | SupervisorLogs | SecurityScan.

Definition Poller_eqb (p q : Poller) : bool :=
  match p, q with
  | ServiceLogs, ServiceLogs
  | SupervisorLogs, SupervisorLogs
  | SecurityScan, SecurityScan => true
  | _, _ => false
  end.

Definition intervalMs (p : Poller) : Z :=
  match p with
  | ServiceLogs => 1000
  | SupervisorLogs => 1000
  | SecurityScan => 2000
  end.

(** A live interval timer of the window: its handle (an integer above
    zero, so a handle is never falsy), the tick function it calls, its
    period and the time of its next call. *)
Record Timer := {
  handle : positive;
  callback : Poller;
  period : Z;
  due : Z
}.

(** The window: its clock in milliseconds, the next timer handle, the live
    timers in creation order, the calls of tick functions so far (time and
    function, oldest first), the three script variables, and the two "live"
    checkboxes. *)
Record Window := {
  now : Z;
  nextHandle : positive;
  timers : list Timer;
  calls : list (Z * Poller);
  logsInterval : option positive;
  supervisorLogsInterval : option positive;
  securityPollInterval : option positive;
  logsLive : bool;
  supervisorLogsLive : bool
}.

Definition initial : Window :=
  {| now := 0; nextHandle := 1%positive; timers := []; calls := [];
     logsInterval := None; supervisorLogsInterval := None;
     securityPollInterval := None;
     logsLive := true; supervisorLogsLive := true |}.

(** The script variable of a poller. *)
Definition variable (p : Poller) (w : Window) : option positive :=
  match p with
  | ServiceLogs => logsInterval w
  | SupervisorLogs => supervisorLogsInterval w
  | SecurityScan => securityPollInterval w
  end.

Definition assign (p : Poller) (v : option positive) (w : Window) : Window :=
  match p with
  | ServiceLogs =>
      {| now := now w; nextHandle := nextHandle w; timers := timers w;
         calls := calls w; logsInterval := v;
         supervisorLogsInterval := supervisorLogsInterval w;
         securityPollInterval := securityPollInterval w;
         logsLive := logsLive w; supervisorLogsLive := supervisorLogsLive w |}
  | SupervisorLogs =>
      {| now := now w; nextHandle := nextHandle w; timers := timers w;
         calls := calls w; logsInterval := logsInterval w;
         supervisorLogsInterval := v;
         securityPollInterval := securityPollInterval w;
         logsLive := logsLive w; supervisorLogsLive := supervisorLogsLive w |}
  | SecurityScan =>
      {| now := now w; nextHandle := nextHandle w; timers := timers w;
         calls := calls w; logsInterval := logsInterval w;
         supervisorLogsInterval := supervisorLogsInterval w;
         securityPollInterval := v;
         logsLive := logsLive w; supervisorLogsLive := supervisorLogsLive w |}
  end.

Definition with_timers (ts : list Timer) (n : positive) (w : Window) : Window :=
  {| now := now w; nextHandle := n; timers := ts;
     calls := calls w; logsInterval := logsInterval w;
     supervisorLogsInterval := supervisorLogsInterval w;
     securityPollInterval := securityPollInterval w;
     logsLive := logsLive w; supervisorLogsLive := supervisorLogsLive w |}.

(** [setInterval(f, ms)]: a new timer, first due [ms] from now; the call
    itself does not run [f]. *)
Definition setInterval (f : Poller) (ms : Z) (w : Window) : positive * Window :=
  let h := nextHandle w in
  (h, with_timers
        (timers w ++ [{| handle := h; callback := f; period := ms;
                         due := now w + ms |}])
        (Pos.succ h) w).

(** [clearInterval(h)] *)
Definition clearInterval (h : positive) (w : Window) : Window :=
  with_timers (filter (fun t => negb (Pos.eqb (handle t) h)) (timers w))
    (nextHandle w) w.

(** [stopLogsInterval], [stopSupervisorLogsInterval], [stopSecurityPoll]:
    [if (v) { clearInterval(v); v = null; }] *)
Definition stop (p : Poller) (w : Window) : Window :=
  match variable p w with
  | Some h => assign p None (clearInterval h w)
  | None => w
  end.

(** The test a start function makes after stopping: the poller's "live"
    checkbox for the two log pollers, none for the security poll. *)
Definition enabled (p : Poller) (w : Window) : bool :=
  match p with
  | ServiceLogs => logsLive w
  | SupervisorLogs => supervisorLogsLive w
  | SecurityScan => true
  end.

(** [startLogsInterval], [startSupervisorLogsInterval], [startSecurityPoll]:
    [stop(); if (enabled) v = setInterval(tick, ms);] *)
Definition start (p : Poller) (w : Window) : Window :=
  let w1 := stop p w in
  if enabled p w1 then
    let '(h, w2) := setInterval p (intervalMs p) w1 in
    assign p (Some h) w2
  else w1.

Definition startLogsInterval : Window -> Window := start ServiceLogs.
Definition stopLogsInterval : Window -> Window := stop ServiceLogs.
Definition startSupervisorLogsInterval : Window -> Window := start SupervisorLogs.
Definition stopSupervisorLogsInterval : Window -> Window := stop SupervisorLogs.
Definition startSecurityPoll : Window -> Window := start SecurityScan.
Definition stopSecurityPoll : Window -> Window := stop SecurityScan.

(** The user ticks or unticks a "live" checkbox (the state of the box only;
    the start or stop its change listener makes is a call of its own). *)
Definition setLive (p : Poller) (b : bool) (w : Window) : Window :=
  match p with
  | ServiceLogs =>
      {| now := now w; nextHandle := nextHandle w; timers := timers w;
         calls := calls w; logsInterval := logsInterval w;
         supervisorLogsInterval := supervisorLogsInterval w;
         securityPollInterval := securityPollInterval w;
         logsLive := b; supervisorLogsLive := supervisorLogsLive w |}
  | SupervisorLogs =>
      {| now := now w; nextHandle := nextHandle w; timers := timers w;
         calls := calls w; logsInterval := logsInterval w;
         supervisorLogsInterval := supervisorLogsInterval w;
         securityPollInterval := securityPollInterval w;
         logsLive := logsLive w; supervisorLogsLive := b |}
  | SecurityScan => w
  end.

(** One millisecond passes: every timer that is due is called once and set
    one period later. *)
Definition fires (t : Z) (tm : Timer) : bool := due tm <=? t.

Definition reschedule (t : Z) (tm : Timer) : Timer :=
  if fires t tm
  then {| handle := handle tm; callback := callback tm;
          period := period tm; due := due tm + period tm |}
  else tm.

Definition millisecond (w : Window) : Window :=
  let t := now w + 1 in
  {| now := t; nextHandle := nextHandle w;
     timers := map (reschedule t) (timers w);
     calls := calls w ++ map (fun tm => (t, callback tm)) (filter (fires t) (timers w));
     logsInterval := logsInterval w;
     supervisorLogsInterval := supervisorLogsInterval w;
     securityPollInterval := securityPollInterval w;
     logsLive := logsLive w; supervisorLogsLive := supervisorLogsLive w |}.

Fixpoint elapse (ms : nat) (w : Window) : Window :=
  match ms with
  | O => w
  | S ms' => elapse ms' (millisecond w)
  end.

(** What can happen to the pollers of a page. A [Stop] is a call of a stop
    function from anywhere: closing the logs modal, leaving the logs tab,
    unticking a live box, or the security poll's own tick once the scan has
    completed or failed. *)
Inductive Call :=
  | Start (p : Poller)
  | Stop (p : Poller)
  | SetLive (p : Poller) (b : bool)
  | Elapse (ms : nat).

Definition do_call (w : Window) (c : Call) : Window :=
  match c with
  | Start p => start p w
  | Stop p => stop p w
  | SetLive p b => setLive p b w
  | Elapse ms => elapse ms w
  end.

Definition run (cs : list Call) (w : Window) : Window :=
  fold_left do_call cs w.

(** A direct call of a tick function, as the callers of the start functions
    make it. *)
Definition invoke (p : Poller) (w : Window) : Window :=
  {| now := now w; nextHandle := nextHandle w; timers := timers w;
     calls := calls w ++ [(now w, p)];
     logsInterval := logsInterval w;
     supervisorLogsInterval := supervisorLogsInterval w;
     securityPollInterval := securityPollInterval w;
     logsLive := logsLive w; supervisorLogsLive := supervisorLogsLive w |}.

(** [showServiceLogs]: [logs-live.checked = true; await refreshServiceLogs();
    startLogsInterval();]. The function waits for the request of the refresh
    it has called; [between] is what happens to the pollers in the meantime
    (time passing, other handlers running), and [startLogsInterval] runs on
    the window they leave. *)
Definition showServiceLogs (between : list Call) (w : Window) : Window :=
  startLogsInterval
    (run between (invoke ServiceLogs (setLive ServiceLogs true w))).

(** The change listeners of the two "live" checkboxes:
    [if (checked) { start(); refresh(); } else { stop(); }] *)
Definition on_live_change (p : Poller) (checked : bool) (w : Window) : Window :=
  if checked then invoke p (start p (setLive p true w))
  else stop p (setLive p false w).

(** [switchTab('logs')]: [loadSupervisorLogs(); startSupervisorLogsInterval();] *)
Definition switchTab_logs (w : Window) : Window :=
  startSupervisorLogsInterval (invoke SupervisorLogs w).

(** [runSecurityScan], once its POST has returned, and
    [loadLatestSecurityScan] on a running scan: [startSecurityPoll(name);] *)
Definition runSecurityScan (w : Window) : Window := startSecurityPoll w.

(** How many times a sequence starts and stops a poller. *)
Definition starts (p : Poller) (cs : list Call) : nat :=
  List.length (filter (fun c => match c with Start q => Poller_eqb q p | _ => false end) cs).

Definition stops (p : Poller) (cs : list Call) : nat :=
  List.length (filter (fun c => match c with Stop q => Poller_eqb q p | _ => false end) cs).

(** The live timers that call the tick function of [p], and the calls of it
    made so far. *)
Definition timers_of (p : Poller) (w : Window) : list Timer :=
  filter (fun t => Poller_eqb (callback t) p) (timers w).

Definition calls_of (p : Poller) (w : Window) : list Z :=
  map fst (filter (fun c => Poller_eqb (snd c) p) (calls w)).

Definition option_list {A : Type} (o : option A) : list A :=
  match o with Some a => [a] | None => [] end.

(** A window is consistent when every handle in use is below the next one,
    no two live timers share a handle, and the live timers of a poller are
    exactly the one its script variable names, if any. *)
Record consistent (w : Window) : Prop := {
  fresh : Forall (fun t => (handle t < nextHandle w)%positive) (timers w);
  unique : NoDup (map handle (timers w));
  owned : forall p, map handle (timers_of p w) = option_list (variable p w)
}.

End Pollers.

(* ================================================================== *)
(** * The two log viewers *)
(* ================================================================== *)

Module LogView.

(** The scrolling box of a viewer, in CSS pixels. *)
Record Viewport := {
  scrollHeight : Z;
  scrollTop : Z;
  clientHeight : Z
}.

(** The largest scroll offset the box allows. *)
Definition maxScrollTop (v : Viewport) : Z :=
  Z.max 0 (scrollHeight v - clientHeight v).

(** [el.scrollTop = y]: the browser keeps the offset within the box. *)
Definition set_scrollTop (y : Z) (v : Viewport) : Viewport :=
  {| scrollHeight := scrollHeight v;
     scrollTop := Z.max 0 (Z.min y (maxScrollTop v));
     clientHeight := clientHeight v |}.

(** The content of the box is replaced by content [height] pixels tall: the
    box is at least as tall as its client area, and an offset beyond the new
    range is pulled back into it. Nothing else moves the offset. *)
Definition replace_content (height : Z) (v : Viewport) : Viewport :=
  set_scrollTop (scrollTop v)
    {| scrollHeight := Z.max height (clientHeight v);
       scrollTop := scrollTop v;
       clientHeight := clientHeight v |}.

(** The edge a viewer follows: the end of forward service logs, the start
    of newest-first supervisor logs. *)
Inductive Anchor := AnchorEnd | AnchorStart.

(** [scrollHeight - scrollTop - clientHeight < 50] and [scrollTop < 50]. *)
Definition atBottom (v : Viewport) : bool :=
  scrollHeight v - scrollTop v - clientHeight v <? 50.

Definition atTop (v : Viewport) : bool := scrollTop v <? 50.

Definition atEdge (a : Anchor) (v : Viewport) : bool :=
  match a with AnchorEnd => atBottom v | AnchorStart => atTop v end.

(** How far the viewport is from the edge it follows. *)
Definition distance (a : Anchor) (v : Viewport) : Z :=
  match a with
  | AnchorEnd => scrollHeight v - scrollTop v - clientHeight v
  | AnchorStart => scrollTop v
  end.

(** A viewer: its box and its flag, [logsUserScrolled] for the service
    logs (which follow the end) and [supervisorLogsUserScrolled] for the
    supervisor logs (which follow the start). *)
Record Viewer := {
  box : Viewport;
  userScrolled : bool
}.

Definition followMode (s : Viewer) : bool := negb (userScrolled s).

(** Both flags start [false]; [showServiceLogs] sets its flag [false]. *)
Definition opened (v : Viewport) : Viewer :=
  {| box := v; userScrolled := false |}.

(** The scroll listeners: [userScrolled = !atBottom] on [logs-content],
    [userScrolled = !atTop] on [supervisor-logs]. *)
Definition on_scroll (a : Anchor) (s : Viewer) : Viewer :=
  {| box := box s; userScrolled := negb (atEdge a (box s)) |}.

(** The user scrolls the box to offset [y], and the listener runs. *)
Definition user_scrolls (a : Anchor) (y : Z) (s : Viewer) : Viewer :=
  on_scroll a {| box := set_scrollTop y (box s);
                 userScrolled := userScrolled s |}.

(** The change listeners of the "live" checkboxes, as far as the flag goes:
    [if (e.target.checked) userScrolled = false]. *)
Definition on_live_change (checked : bool) (s : Viewer) : Viewer :=
  if checked then {| box := box s; userScrolled := false |} else s.

(** Scrolling to the followed edge: [scrollTop = scrollHeight] for the
    service logs, [scrollTop = 0] for the supervisor logs. *)
Definition scroll_to_edge (a : Anchor) (v : Viewport) : Viewport :=
  match a with
  | AnchorEnd => set_scrollTop (scrollHeight v) v
  | AnchorStart => set_scrollTop 0 v
  end.

(** The part of a refresh that follows a successful request, for a response
    whose rendering is [height] pixels tall and the [wasAtEdge] captured
    before: the content is replaced and
    [if (!userScrolled || wasAtEdge) scroll to the edge]. (On a failed
    request the content becomes the error text and the offset is not
    touched.) *)
Definition render (a : Anchor) (wasAtEdge : bool) (height : Z) (s : Viewer)
  : Viewer :=
  let v := replace_content height (box s) in
  {| box := if negb (userScrolled s) || wasAtEdge
            then scroll_to_edge a v else v;
     userScrolled := userScrolled s |}.

(** [refreshServiceLogs] on a response: [wasAtBottom] is read once the
    response is there, right before the content is replaced. *)
Definition refreshServiceLogs (height : Z) (s : Viewer) : Viewer :=
  render AnchorEnd (atBottom (box s)) height s.

(** [loadSupervisorLogs]: [wasAtTop] is read before the request is sent;
    [during] is what happens to the viewer while the request is away. *)
Definition loadSupervisorLogs (during : Viewer -> Viewer) (height : Z)
  (s : Viewer) : Viewer :=
  let wasAtTop := atTop (box s) in
  render AnchorStart wasAtTop height (during s).

(** A refresh of the viewer that follows [a], with nothing happening while
    the request is away. *)
Definition refresh (a : Anchor) (height : Z) (s : Viewer) : Viewer :=
  match a with
  | AnchorEnd => refreshServiceLogs height s
  | AnchorStart => loadSupervisorLogs (fun s' => s') height s
  end.

(** A box 200 pixels high over 1000 pixels of log lines, scrolled 300
    pixels down, and a viewer the user has scrolled to there. *)
Definition reading_box : Viewport :=
  {| scrollHeight := 1000; scrollTop := 300; clientHeight := 200 |}.

Definition reading : Viewer := {| box := reading_box; userScrolled := true |}.

End LogView.

(* ================================================================== *)
(** * The metrics chart *)
(* ================================================================== *)

Module Chart.
Import Js.

(** ** Dates

    A [Date] is its time value, whole milliseconds since the epoch. The
    local time zone is the host's, and its offset can change (summer
    time). A zone gives the offset of local time from UTC in milliseconds:
    [zone t true] is the offset in force at the instant [t], and
    [zone t false] is the offset by which the host reads [t] as a local
    time (where a local time occurs twice or not at all, the host's rule
    decides). *)
Definition Zone := Z -> bool -> Z.

(** [LocalTime(t)] and [UTC(t)] of ECMA-262, 21.4.1. *)
Definition LocalTime (zone : Zone) (t : Z) : Z := t + zone t true.
Definition UTC (zone : Zone) (t : Z) : Z := t - zone t false.

(** The zone with one offset throughout. *)
Definition fixed (tz : Z) : Zone := fun _ _ => tz.

(** A zone whose offset falls from [before] to [after] at the instant
    [change], as at the end of summer time. The local hour before the
    change comes twice; read as a local time it is the earlier instant. *)
Definition summer_time_end (change before after : Z) : Zone :=
  fun t isUTC =>
    if isUTC then (if t <? change then before else after)
    else (if t <? change + before then before else after).

Definition msPerHour : Z := 3600000.

(** [d.setMinutes(0, 0, 0)]: the start of the hour on the local clock,
    read back as an instant. *)
Definition setMinutes0 (zone : Zone) (d : Z) : Z :=
  UTC zone (LocalTime zone d / msPerHour * msPerHour).

(** [d.getHours()] *)
Definition getHours (zone : Zone) (d : Z) : Z :=
  (LocalTime zone d / msPerHour) mod 24.

(** [d.setHours(d.getHours() + 1)]: the same minute of the next hour on the
    local clock, read back as an instant. *)
Definition nextHour (zone : Zone) (d : Z) : Z :=
  UTC zone (LocalTime zone d + msPerHour).

(** The offset of the zone is [tz] from an hour before [minTime] to an hour
    after [maxTime], for the instants and for the local times of that
    span. *)
Definition steady (zone : Zone) (tz minTime maxTime : Z) : Prop :=
  forall (t : Z) (isUTC : bool),
    minTime - msPerHour <= (if isUTC then t else t - tz)
                        <= maxTime + msPerHour ->
    zone t isUTC = tz.

(** ** Data *)

(** A field of a metrics record as the chart receives it: a number, or
    [undefined] when the record has no such field, or [null]. *)
Inductive Sample := Num (x : Number) | Undefined | Null.

Arguments Num x%_float.

(** [ToNumber], which [Math.max] and [/] apply to their operands. *)
Definition ToNumber (d : Sample) : Number :=
  match d with
  | Num x => x
  | Undefined => PrimFloat.nan
  | Null => PrimFloat.zero
  end.

(** [v || 0] on a sample. *)
Definition or_zero (d : Sample) : Sample :=
  match d with
  | Num x => if is_falsy_number x then Num PrimFloat.zero else Num x
  | Undefined | Null => Num PrimFloat.zero
  end.

Record Metric := {
  timestamp : Z;
  cpu_percent : Sample;
  memory_mb : Sample;
  disk_mb : Sample
}.

(** ** drawChart *)

Definition pad_t : Number := 10%float.
Definition pad_b : Number := 20%float.
Definition pad_l : Number := 50%float.
Definition pad_r : Number := 10%float.

(** [Math.max(...data) * 1.1 || 1] *)
Definition vertical_scale (data : list Sample) : Number :=
  let m := (Math_max (map ToNumber data) * 1.1)%float in
  if is_falsy_number m then 1%float else m.

(** The horizontal grid: for [i = 0 .. 4], a line at
    [pad.t + (plotH / 4) * i] labelled [(max - (max/4)*i).toFixed(1)]. *)
Definition gridline (max plotH : Number) (i : Z) : Number * jsstring :=
  let fi := Number_of_Z i in
  ((pad_t + (plotH / 4) * fi)%float,
   toFixed (max - (max / 4) * fi)%float 1).

Definition gridlines (max plotH : Number) : list (Number * jsstring) :=
  map (gridline max plotH) [0; 1; 2; 3; 4].

(** The clock of the hourly markers: [firstHour] is the start of the first
    timestamp's hour, moved one hour on [if (firstHour.getTime() <= minTime)]. *)
Definition firstHour (zone : Zone) (minTime : Z) : Z :=
  let h := setMinutes0 zone minTime in
  if h <=? minTime then nextHour zone h else h.

(** [while (hour.getTime() <= maxTime) { ...; hour.setHours(hour.getHours() + 1); }]:
    the values [hour] takes in the body. *)
Fixpoint hour_loop (zone : Zone) (fuel : nat) (hour maxTime : Z) : list Z :=
  match fuel with
  | O => []
  | S fuel' =>
      if hour <=? maxTime
      then hour :: hour_loop zone fuel' (nextHour zone hour) maxTime
      else []
  end.

(** The loop leaves within [(maxTime - firstHour) / msPerHour + 1] rounds
    when every round moves the clock on by an hour or more, as it does
    where the offset of the zone is steady or falls. (Where a round moves
    the clock on by less, the list holds the first values the clock
    takes.) *)
Definition hour_clock (zone : Zone) (minTime maxTime : Z) : list Z :=
  let first := firstHour zone minTime in
  hour_loop zone (Z.to_nat ((maxTime - first) / msPerHour + 1)) first maxTime.

(** The position of a time on the time axis:
    [pad.l + ((t - minTime) / timeRange) * plotW]. *)
Definition x_of_time (minTime maxTime : Z) (plotW : Number) (t : Z) : Number :=
  let timeRange := (Number_of_Z maxTime - Number_of_Z minTime)%float in
  (pad_l + ((Number_of_Z t - Number_of_Z minTime) / timeRange) * plotW)%float.

(** [hour.getHours().toString().padStart(2, '0') + ':00'] *)
Definition hour_label (zone : Zone) (hour : Z) : jsstring :=
  padStart0 2 (digits (getHours zone hour)) ++ lit ":00".

(** The body of the loop: the marker is drawn
    [if (x >= pad.l && x <= w - pad.r)]. *)
Definition hour_marker (zone : Zone) (minTime maxTime : Z) (w plotW : Number)
  (hour : Z) : option (Number * jsstring) :=
  let x := x_of_time minTime maxTime plotW hour in
  if PrimFloat.leb pad_l x && PrimFloat.leb x (w - pad_r)%float
  then Some (x, hour_label zone hour) else None.

Fixpoint somes {A : Type} (l : list (option A)) : list A :=
  match l with
  | [] => []
  | Some a :: l' => a :: somes l'
  | None :: l' => somes l'
  end.

(** The hourly markers drawn: none unless [timeRange > 0]. *)
Definition hour_markers (zone : Zone) (minTime maxTime : Z) (w plotW : Number)
  : list (Number * jsstring) :=
  if minTime <? maxTime then
    somes (map (hour_marker zone minTime maxTime w plotW)
             (hour_clock zone minTime maxTime))
  else [].

(** The point of the line for [data[i]]: by time when [timeRange > 0], else
    by index, [pad.l + (i / (data.length - 1 || 1)) * plotW]; and
    [y = pad.t + plotH - (data[i] / max) * plotH]. [None] is the TypeError
    of [dates[i].getTime()] when there is no [dates[i]]. *)
Definition point (minTime maxTime : Z) (dates : list Z) (n : nat)
  (max plotW plotH : Number) (i : nat) (d : Sample)
  : option (Number * Number) :=
  let y := (pad_t + plotH - (ToNumber d / max) * plotH)%float in
  if minTime <? maxTime then
    match nth_error dates i with
    | Some t => Some (x_of_time minTime maxTime plotW t, y)
    | None => None
    end
  else
    let last := Z.of_nat n - 1 in
    let denom := if last =? 0 then 1 else last in
    Some ((pad_l + (Number_of_Z (Z.of_nat i) / Number_of_Z denom) * plotW)%float, y).

Fixpoint points_from (minTime maxTime : Z) (dates : list Z) (n : nat)
  (max plotW plotH : Number) (i : nat) (data : list Sample)
  : option (list (Number * Number)) :=
  match data with
  | [] => Some []
  | d :: data' =>
      match point minTime maxTime dates n max plotW plotH i d,
            points_from minTime maxTime dates n max plotW plotH (S i) data' with
      | Some pt, Some pts => Some (pt :: pts)
      | _, _ => None
      end
  end.

(** What [drawChart] puts on the canvas. *)
Record Plot := {
  scale : Number;                       (* [max] *)
  grid : list (Number * jsstring);      (* [y] and label of each grid line *)
  hours : list (Number * jsstring);     (* [x] and label of each hour marker *)
  line : list (Number * Number);        (* the points of the line *)
  lastX : Number                        (* where the fill goes down *)
}.

Inductive Drawing :=
  | NoData (x y : Number)     (* ['No data'] at [(w/2, h/2)], nothing else *)
  | Plotted (p : Plot).

(** [drawChart(canvasId, data, timestamps, color)] on a canvas [height]
    pixels high inside a parent [clientWidth] pixels wide, in the time zone
    [zone]. [None] is a TypeError: there are data and no date for one of
    them. *)
Definition drawChart (zone : Zone) (clientWidth height : Z)
  (data : list Sample) (timestamps : list Z) : option Drawing :=
  let w := Number_of_Z (clientWidth - 24) in
  let h := Number_of_Z height in
  match data with
  | [] => Some (NoData (w / 2)%float (h / 2)%float)
  | _ :: _ =>
      let max := vertical_scale data in
      let plotW := (w - pad_l - pad_r)%float in
      let plotH := (h - pad_t - pad_b)%float in
      match timestamps with
      | [] => None
      | minTime :: _ =>
          let maxTime := List.last timestamps minTime in
          match points_from minTime maxTime timestamps (List.length data)
                  max plotW plotH 0 data with
          | None => None
          | Some pts =>
              Some (Plotted
                {| scale := max;
                   grid := gridlines max plotH;
                   hours := hour_markers zone minTime maxTime w plotW;
                   line := pts;
                   lastX := if minTime <? maxTime
                            then x_of_time minTime maxTime plotW maxTime
                            else (pad_l + plotW)%float |})
          end
      end
  end.

(** The three charts of [refreshMetrics]: CPU and memory take the fields as
    they come, disk takes [m.disk_mb || 0]. *)
Definition cpu_data (metrics : list Metric) : list Sample :=
  map cpu_percent metrics.

Definition memory_data (metrics : list Metric) : list Sample :=
  map memory_mb metrics.

Definition disk_data (metrics : list Metric) : list Sample :=
  map (fun m => or_zero (disk_mb m)) metrics.

Definition timestamps_of (metrics : list Metric) : list Z :=
  map timestamp metrics.

(** [refreshMetrics] on the records the request returns: the CPU, memory
    and disk charts, on three canvases of one size. *)
Definition refreshMetrics (zone : Zone) (clientWidth height : Z)
  (metrics : list Metric)
  : option Drawing * option Drawing * option Drawing :=
  let timestamps := timestamps_of metrics in
  (drawChart zone clientWidth height (cpu_data metrics) timestamps,
   drawChart zone clientWidth height (memory_data metrics) timestamps,
   drawChart zone clientWidth height (disk_data metrics) timestamps).

Definition is_NaN_point (pt : Number * Number) : bool :=
  PrimFloat.is_nan (fst pt) || PrimFloat.is_nan (snd pt).


Definition msPerDay : Z := 86400000.

(** The night of 2023-10-29, when summer time ended in central Europe at
    01:00 UTC and the offset fell from two hours to one: the zone, and the
    instants 23:30, 00:00, 01:00, 02:00, 03:00 and 03:30 UTC of that
    night. *)
Definition central_europe_2023 : Zone :=
  summer_time_end 1698541200000 7200000 3600000.
Definition night_2330 : Z := 1698535800000.
Definition night_0000 : Z := 1698537600000.
Definition night_0100 : Z := 1698541200000.
Definition night_0200 : Z := 1698544800000.
Definition night_0300 : Z := 1698548400000.
Definition night_0330 : Z := 1698550200000.

(** 2024-01-15 at 09:00, 09:15, 10:00, 10:30 and 10:45 UTC. *)
Definition at_0900 : Z := 1705309200000.
Definition at_0915 : Z := 1705310100000.
Definition at_1000 : Z := 1705312800000.
Definition at_1030 : Z := 1705314600000.
Definition at_1045 : Z := 1705315500000.

(** Three metrics records over those 90 minutes; the second has no
    [cpu_percent] and no [disk_mb]. *)
Definition example_metrics : list Metric :=
  [ {| timestamp := at_0915; cpu_percent := Num 10;
       memory_mb := Num 120; disk_mb := Num 10 |};
    {| timestamp := at_1000; cpu_percent := Undefined;
       memory_mb := Num 118; disk_mb := Undefined |};
    {| timestamp := at_1045; cpu_percent := Num 5;
       memory_mb := Num 121; disk_mb := Num 5 |} ].

End Chart.

(* ================================================================== *)
(** * Who starts and stops the pollers *)
(* ================================================================== *)

Module Tabs.
Import Js Pollers.

(** The characters of a plain tab name: letters, digits, [-] and [_]. The
    two attribute selectors that [switchTab] writes with such a name are
    well formed, so that [querySelector] does not throw on them. *)
Definition is_name_char (c : N) : bool :=
  ((N.leb 48 c && N.leb c 57) || (N.leb 65 c && N.leb c 90)
   || (N.leb 97 c && N.leb c 122) || N.eqb c 45 || N.eqb c 95)%N.

Definition plain_name (tab : jsstring) : bool := forallb is_name_char tab.

(** [switchTab(tab)] for a plain name [tab], as far as the pollers go, on a
    page that has the element [mobile-nav] and whose tab panels are the
    elements of id [t + '-tab'] for the names [t] in [tabs]. The
    function first restyles the tab buttons and hides the panels, which
    touches no poller, and then shows the panel:
    [document.getElementById(tab + '-tab').classList.remove('hidden')]. For
    a string that names no panel this throws a TypeError and the function
    ends there, before any poller is touched: that is [None]. Otherwise
    [if (tab !== 'logs') stopSupervisorLogsInterval();] and
    [if (tab === 'logs') { loadSupervisorLogs(); startSupervisorLogsInterval(); }]
    (the functions of the monitoring script are loaded, so the [typeof]
    guards hold; the loaders of the other tabs are asynchronous and touch
    no poller). *)
Definition switchTab (tabs : list jsstring) (tab : jsstring) (w : Window)
  : option Window :=
  if existsb (str_eqb tab) tabs then
    let w1 := if negb (str_eqb tab (lit "logs"))
              then stopSupervisorLogsInterval w else w in
    Some (if str_eqb tab (lit "logs")
          then startSupervisorLogsInterval (invoke SupervisorLogs w1)
          else w1)
  else None.

(** [closeLogsModal]: [stopLogsInterval(); hideModal('logs-modal');] *)
Definition closeLogsModal (w : Window) : Window := stopLogsInterval w.

(** The function [startSecurityPoll] hands to [setInterval], once its
    request has returned: [answer] is the parsed body, or [None] when the
    request threw. It stops the poll
    [if (data.status === 'completed' && data.result)] and
    [else if (data.status === 'failed')]; whatever is thrown is caught and
    logged. *)
Definition securityPollTick (answer : option JsValue) (w : Window) : Window :=
  match answer with
  | None => w
  | Some data =>
      match get data (lit "status"), get data (lit "result") with
      | Some status, Some result =>
          if strict_eq_string status (lit "completed") && ToBoolean result
          then stopSecurityPoll w
          else if strict_eq_string status (lit "failed")
          then stopSecurityPoll w
          else w
      | _, _ => w
      end
  end.

(** An answer on which the poll ends. *)
Definition ends_poll (answer : option JsValue) : bool :=
  match answer with
  | None => false
  | Some data =>
      match get data (lit "status"), get data (lit "result") with
      | Some status, Some result =>
          (strict_eq_string status (lit "completed") && ToBoolean result)
          || strict_eq_string status (lit "failed")
      | _, _ => false
      end
  end.

End Tabs.

(* ================================================================== *)
(** * Markup built from escaped text *)
(* ================================================================== *)

Module Markup.
Import Js Core.

(** The code units [escapeHtml] rewrites. *)
Definition special (c : N) : bool :=
  N.eqb c AMP || N.eqb c NBSP || N.eqb c LT || N.eqb c GT.

Definition BACKTICK : N := 96%N.
Definition STAR : N := 42%N.

(** The longest run of code units other than [dc] at the head of [s], and
    the rest. *)
Fixpoint span_not (dc : N) (s : jsstring) : jsstring * jsstring :=
  match s with
  | c :: s' =>
      if N.eqb c dc then ([], s)
      else let '(run, rest) := span_not dc s' in (c :: run, rest)
  | [] => ([], [])
  end.

(** A match, at the head of [s], of a regular expression of the shape
    [delim ([^dc]+) delim], where [delim] is made of [dc] only: its capture.
    The run after the opening [delim] is taken as long as it goes (a shorter
    one is followed by a code unit other than [dc], so backtracking finds
    nothing more); it must not be empty and the closing [delim] must follow. *)
Definition match_at (delim : jsstring) (dc : N) (s : jsstring)
  : option jsstring :=
  if startsWith delim s then
    let '(run, rest) := span_not dc (skipn (List.length delim) s) in
    match run with
    | [] => None
    | _ :: _ => if startsWith delim rest then Some run else None
    end
  else None.

(** [s.replace(/delim([^dc]+)delim/g, opening + '$1' + closing)], read
    from left to right: at a match the replacement is written and the search
    goes on behind the match ([skip] counts the code units of a match still
    to pass); elsewhere the code unit is copied. *)
Fixpoint replace_from (delim : jsstring) (dc : N) (opening closing : jsstring)
  (skip : nat) (s : jsstring) : jsstring :=
  match s with
  | [] => []
  | c :: s' =>
      match skip with
      | S k => replace_from delim dc opening closing k s'
      | O =>
          match match_at delim dc s with
          | Some run =>
              opening ++ run ++ closing
              ++ replace_from delim dc opening closing
                   (2 * List.length delim + List.length run - 1) s'
          | None => c :: replace_from delim dc opening closing 0 s'
          end
      end
  end.

Definition replace_delimited (delim : jsstring) (dc : N)
  (opening closing : jsstring) (s : jsstring) : jsstring :=
  replace_from delim dc opening closing 0 s.

(** Text written with ['] for the double quote. *)
Definition quoted (s : string) : jsstring := Chat.json s.

Definition code_open : jsstring :=
  quoted "<code class='bg-gray-800 px-1.5 py-0.5 rounded text-gray-200 text-xs'>".
Definition code_close : jsstring := lit "</code>".
Definition strong_open : jsstring := quoted "<strong class='text-gray-100'>".
Definition strong_close : jsstring := lit "</strong>".

(** [formatMessage(content)]: [escapeHtml(content)], then text between
    backticks becomes a [code] element, then text between double asterisks
    becomes a [strong] element. *)
Definition formatMessage (content : JsValue) : jsstring :=
  replace_delimited [STAR; STAR] STAR strong_open strong_close
    (replace_delimited [BACKTICK] BACKTICK code_open code_close
       (escapeHtml content)).

Definition format_tags : list jsstring :=
  [code_open; code_close; strong_open; strong_close].

(** Markup in which every [<] opens one of the given tags, written out in
    full: a sequence of code units other than [<] and of whole tags. *)
Inductive tagged (tags : list jsstring) : jsstring -> Prop :=
  | tagged_nil : tagged tags []
  | tagged_text (c : N) (s : jsstring) :
      c <> LT -> tagged tags s -> tagged tags (c :: s)
  | tagged_tag (t s : jsstring) :
      In t tags -> tagged tags s -> tagged tags (t ++ s).

End Markup.


(* ================================================================== *)
(** * The chat panel *)
(* ================================================================== *)

Module ChatPage.
Import Js Chat Markup.

(** The event [{type: 'text', content: content}]. *)
Definition text_event (content : jsstring) : JsValue :=
  JObject [(lit "type", JString (lit "text"));
           (lit "content", JString content)].

(** The events whose [type] is [text], [content] or [result]: the three
    branches of the loop that assign [responseContent]. *)
Definition writes_text (event : JsValue) : bool :=
  match get event (lit "type") with
  | Some type =>
      strict_eq_string type (lit "text")
      || strict_eq_string type (lit "content")
      || strict_eq_string type (lit "result")
  | None => false
  end.

(** The text the contents of text events add up to: each followed by a
    newline. *)
Definition accumulated (contents : list jsstring) : jsstring :=
  flat_map (fun c => c ++ [LF]) contents.

(** The [id] of a message element: ['streaming-message'], or
    ['msg-' + stamp] for a value of [Date.now()]. *)
Inductive MessageId := streaming_message | msg (stamp : Z).

Definition MessageId_eqb (a b : MessageId) : bool :=
  match a, b with
  | streaming_message, streaming_message => true
  | msg s, msg t => Z.eqb s t
  | _, _ => false
  end.

(** A message element: its id, the role its class and label were written
    for, and the markup of its [.message-content]. *)
Record Message := {
  id : MessageId;
  role : Role;
  html : jsstring
}.

(** The element [#chat-messages]: the welcome block (the child of class
    [text-center]), or the message elements in document order. *)
Record Panel := {
  welcome : bool;
  items : list Message
}.

(** [clearChat] *)
Definition clearChat : Panel := {| welcome := true; items := [] |}.

Definition has_id (i : MessageId) (m : Message) : bool := MessageId_eqb (id m) i.

(** [document.getElementById(i)] among the messages: the first with that id. *)
Definition getElementById (i : MessageId) (l : list Message) : option Message :=
  find (has_id i) l.

(** The first message with id [i] changed by [f]. *)
Fixpoint update_first (i : MessageId) (f : Message -> Message)
  (l : list Message) : list Message :=
  match l with
  | [] => []
  | m :: l' => if has_id i m then f m :: l' else m :: update_first i f l'
  end.

(** [addChatMessage(role, content, isStreaming)] at the time [now]: the
    welcome block, if there, is cleared with all of the panel; then the
    message with the id is given the new markup if there is one, and a new
    message is appended otherwise. It returns the id. *)
Definition addChatMessage (now : Z) (r : Role) (content : JsValue)
  (isStreaming : bool) (p : Panel) : MessageId * Panel :=
  let shown := if welcome p then [] else items p in
  let msgId := if isStreaming then streaming_message else msg now in
  let markup := formatMessage content in
  (msgId,
   {| welcome := false;
      items :=
        match getElementById msgId shown with
        | Some _ =>
            update_first msgId
              (fun m => {| id := id m; role := role m; html := markup |}) shown
        | None => shown ++ [{| id := msgId; role := r; html := markup |}]
        end |}).

(** The [done] branch of the read loop at the time [now]:
    [if (streaming) streaming.id = 'msg-' + Date.now()]. *)
Definition freeze (now : Z) (p : Panel) : Panel :=
  {| welcome := welcome p;
     items := update_first streaming_message
                (fun m => {| id := msg now; role := role m; html := html m |})
                (items p) |}.

(** What happens to the panel: a message added, a [done] event, the panel
    cleared; each with the time on the clock. *)
Inductive PanelOp :=
  | Add (now : Z) (r : Role) (content : JsValue) (isStreaming : bool)
  | Done (now : Z)
  | Clear.

Definition do_op (p : Panel) (op : PanelOp) : Panel :=
  match op with
  | Add now r content isStreaming =>
      snd (addChatMessage now r content isStreaming p)
  | Done now => freeze now p
  | Clear => clearChat
  end.

(** The panel after a history, from the cleared panel. *)
Definition panel_after (ops : list PanelOp) : Panel :=
  fold_left do_op ops clearChat.

(** The streamed renderings of an answer: one [Add] per content, all
    streaming. *)
Definition stream_adds (r : Role) (contents : list (Z * JsValue))
  : list PanelOp :=
  map (fun tc => Add (fst tc) r (snd tc) true) contents.

Definition streaming_count (l : list Message) : nat :=
  List.length (filter (has_id streaming_message) l).

(** The event [{type: 'done'}]. *)
Definition done_event : JsValue :=
  JObject [(lit "type", JString (lit "done"))].

(** An effect of the read loop as it reaches the panel, with the time on
    the clock. *)
Definition op_of (te : Z * Effect) : PanelOp :=
  match snd te with
  | AddChatMessage r content isStreaming => Add (fst te) r content isStreaming
  | FreezeStreaming => Done (fst te)
  end.

(** The panel after the effects of a read loop, each at its time. *)
Definition show (p : Panel) (timed : list (Z * Effect)) : Panel :=
  fold_left do_op (map op_of timed) p.

End ChatPage.

(* ================================================================== *)
(** * The forms *)
(* ================================================================== *)

Module Forms.
Import Js.

Definition COMMA : N := 44%N.
Definition SPACE : N := 32%N.
Definition CR : N := 13%N.
Definition MINUS : N := 45%N.
Definition PLUS : N := 43%N.

(** [a.join(sep)] on an array of strings. *)
Fixpoint join (sep : jsstring) (a : list jsstring) : jsstring :=
  match a with
  | [] => []
  | x :: a' =>
      match a' with
      | [] => x
      | _ :: _ => x ++ sep ++ join sep a'
      end
  end.

(** ** The watched directories

    [showEditModal] writes the field:
    [s.watch_dirs ? s.watch_dirs.join(', ') : '']. *)
Definition watch_dirs_field (watch_dirs : option (list jsstring)) : jsstring :=
  match watch_dirs with
  | Some a => join (lit ", ") a
  | None => []
  end.

(** The submit handlers read it:
    [const watchDirs = form.watch_dirs.value.trim();] and then
    [watchDirs ? watchDirs.split(',').map(d => d.trim()) : ...]; [None] is
    the other branch. *)
Definition watch_dirs_of (value : jsstring) : option (list jsstring) :=
  match trim value with
  | [] => None
  | watchDirs => Some (map trim (split COMMA watchDirs))
  end.

(** The register form sends [null] for a blank field, *)
Definition register_watch_dirs (value : jsstring) : option (list jsstring) :=
  watch_dirs_of value.

(** the edit form the empty array. *)
Definition edit_watch_dirs (value : jsstring) : list jsstring :=
  match watch_dirs_of value with
  | Some a => a
  | None => []
  end.

(** A directory name that the field gives back as it is: no white space
    at either end, no comma, and no line break, which a field of one line
    would drop. *)
Definition plain_dir (d : jsstring) : bool :=
  str_eqb (trim d) d
  && negb (existsb (N.eqb COMMA) d)
  && negb (existsb (N.eqb LF) d)
  && negb (existsb (N.eqb CR) d).

(** ** parseInt

    [parseInt(string)] without a radix (ECMA-262, 19.2.5): white space in
    front is skipped, then come a sign, [0x] or [0X] for radix 16, and the
    digits up to the first code unit that is none. The result is the Number
    of a signed integer, or NaN; [Int negative m] stands for the double
    nearest to [m], negated if [negative] (so [Int true 0] is [-0]). *)
Inductive ParsedInt := NaN | Int (negative : bool) (magnitude : Z).

(** The value of a code unit as a digit of the radix, if it is one. *)
Definition radix_digit (R : Z) (c : N) : option Z :=
  let v := if N.leb 48 c && N.leb c 57 then Some (Z.of_N c - 48)
           else if N.leb 97 c && N.leb c 122 then Some (Z.of_N c - 87)
           else if N.leb 65 c && N.leb c 90 then Some (Z.of_N c - 55)
           else None in
  match v with
  | Some d => if d <? R then Some d else None
  | None => None
  end.

(** The digits of the input up to the first code unit that is not a digit
    of the radix. *)
Fixpoint radix_digits (R : Z) (s : jsstring) : list Z :=
  match s with
  | c :: s' =>
      match radix_digit R c with
      | Some d => d :: radix_digits R s'
      | None => []
      end
  | [] => []
  end.

Definition mathInt (R : Z) (ds : list Z) : Z :=
  fold_left (fun acc d => acc * R + d) ds 0.

Definition parseInt (string : jsstring) : ParsedInt :=
  let trimmed := trimStart string in
  let '(negative, unsigned) :=
    match trimmed with
    | c :: rest =>
        if N.eqb c MINUS then (true, rest)
        else if N.eqb c PLUS then (false, rest)
        else (false, trimmed)
    | [] => (false, [])
    end in
  let '(R, numeral) :=
    match unsigned with
    | z :: x :: rest =>
        if N.eqb z 48 && (N.eqb x 120 || N.eqb x 88) then (16, rest)
        else (10, unsigned)
    | _ => (10, unsigned)
    end in
  match radix_digits R numeral with
  | [] => NaN
  | ds => Int negative (mathInt R ds)
  end.

(** The Number a [ParsedInt] stands for. *)
Definition Number_of_ParsedInt (p : ParsedInt) : Number :=
  match p with
  | NaN => PrimFloat.nan
  | Int negative m =>
      if m =? 0 then (if negative then PrimFloat.neg_zero else PrimFloat.zero)
      else Number_of_Z (if negative then - m else m)
  end.

(** ** The port

    The submit handlers of a service read it:
    [form.port.value ? parseInt(form.port.value) : null]. *)
Definition port_of (value : jsstring) : option ParsedInt :=
  match value with
  | [] => None
  | _ :: _ => Some (parseInt value)
  end.

(** ** The timeout of a cron job

    [parseInt(form.timeout.value) || 300]: NaN and both zeros are falsy, the
    double of any other integer is not. *)
Definition timeout_of (value : jsstring) : ParsedInt :=
  match parseInt value with
  | NaN => Int false 300
  | Int negative m => if m =? 0 then Int false 300 else Int negative m
  end.

End Forms.

(* ================================================================== *)
(** * The environment of a cron job *)
(* ================================================================== *)

Module Cron.
Import Js Forms.

Definition EQUALS : N := 61%N.
Definition HASH : N := 35%N.
Definition APOSTROPHE : N := 39%N.

(** [s.indexOf(c)] for one code unit; [None] is [-1]. *)
Fixpoint indexOf (c : N) (s : jsstring) : option nat :=
  match s with
  | [] => None
  | x :: s' =>
      if N.eqb x c then Some O
      else match indexOf c s' with
           | Some i => Some (S i)
           | None => None
           end
  end.

(** [s.endsWith(c)] for one code unit. *)
Definition endsWith (c : N) (s : jsstring) : bool :=
  match rev s with
  | x :: _ => N.eqb x c
  | [] => false
  end.

(** ** The object [vars]

    A plain object whose values are strings, as the list of its own
    properties in the order [Object.keys] and [Object.entries] give them:
    first the keys that are array indices, by ascending index, then the
    other keys in the order they were created. *)
Definition Vars := list (jsstring * jsstring).

(** The index a key stands for, if it is an array index: the decimal form,
    without leading zeros, of an integer below [2^32 - 1]. *)
Definition array_index (k : jsstring) : option Z :=
  match k with
  | [] => None
  | d :: k' =>
      if forallb is_digit k
         && (negb (N.eqb d 48) || match k' with [] => true | _ => false end)
         && (digits_value k <=? 4294967294)
      then Some (digits_value k)
      else None
  end.

Definition has_key (k : jsstring) (o : Vars) : bool :=
  existsb (fun kv => str_eqb (fst kv) k) o.

(** The property [k] given the value [v], where it is. *)
Definition update (k v : jsstring) (o : Vars) : Vars :=
  map (fun kv => if str_eqb (fst kv) k then (fst kv, v) else kv) o.

(** A new property with the index [i]: after the smaller indices. *)
Fixpoint insert_index (i : Z) (k v : jsstring) (o : Vars) : Vars :=
  match o with
  | [] => [(k, v)]
  | kv :: o' =>
      match array_index (fst kv) with
      | Some j => if j <? i then kv :: insert_index i k v o' else (k, v) :: o
      | None => (k, v) :: o
      end
  end.

(** [vars[key] = value] on an object made by [{}]. The key [__proto__] is
    the accessor of [Object.prototype], whose setter ignores a string; any
    other key names an own property, changed or created. *)
Definition assign (o : Vars) (k v : jsstring) : Vars :=
  if str_eqb k (lit "__proto__") then o
  else if has_key k o then update k v o
  else match array_index k with
       | Some i => insert_index i k v o
       | None => o ++ [(k, v)]
       end.

(** [vars[k]] for an own property. *)
Definition own (o : Vars) (k : jsstring) : option jsstring :=
  match find (fun kv => str_eqb (fst kv) k) o with
  | Some kv => Some (snd kv)
  | None => None
  end.

(** ** parseEnvVars *)

(** [value.slice(1, -1)] *)
Definition slice_1_m1 (s : jsstring) : jsstring := removelast (tl s).

(** The quotes around a value taken off. *)
Definition unquote (value : jsstring) : jsstring :=
  if (startsWith [QUOTE] value && endsWith QUOTE value)
     || (startsWith [APOSTROPHE] value && endsWith APOSTROPHE value)
  then slice_1_m1 value
  else value.

(** The body of [forEach] for one line. *)
Definition parse_line (vars : Vars) (line : jsstring) : Vars :=
  let line := trim line in
  match line with
  | [] => vars
  | _ :: _ =>
      if startsWith [HASH] line then vars
      else
        match indexOf EQUALS line with
        | Some (S n) =>
            let idx := S n in
            let key := trim (firstn idx line) in
            let value := unquote (trim (skipn (S idx) line)) in
            assign vars key value
        | _ => vars
        end
  end.

(** [parseEnvVars(text)]; [None] is [null]. *)
Definition parseEnvVars (text : jsstring) : option Vars :=
  match trim text with
  | [] => None
  | _ :: _ =>
      match fold_left parse_line (split LF text) [] with
      | [] => None
      | vars => Some vars
      end
  end.

(** [envVarsToText(vars)] *)
Definition envVarsToText (vars : option Vars) : jsstring :=
  match vars with
  | None | Some [] => []
  | Some entries =>
      join [LF] (map (fun kv => fst kv ++ [EQUALS] ++ snd kv) entries)
  end.

(** ** Objects that read back *)

Definition named_only (o : Vars) : bool :=
  forallb (fun kv => match array_index (fst kv) with
                     | None => true
                     | Some _ => false
                     end) o.

(** The order of the own properties of an object: ascending indices above
    [above], then keys that are no index. *)
Fixpoint enumeration_order (above : Z) (o : Vars) : bool :=
  match o with
  | [] => true
  | kv :: o' =>
      match array_index (fst kv) with
      | Some i => (above <? i) && enumeration_order i o'
      | None => named_only o'
      end
  end.

Fixpoint distinct (ks : list jsstring) : bool :=
  match ks with
  | [] => true
  | k :: ks' => negb (existsb (str_eqb k) ks') && distinct ks'
  end.

(** The lists that are objects: in enumeration order, no key twice. *)
Definition is_object (o : Vars) : bool :=
  enumeration_order (-1) o && distinct (map fst o).

Definition has (c : N) (s : jsstring) : bool := existsb (N.eqb c) s.

(** A name that a line of the text gives back: not empty, no white space
    at either end, no [=] and no line break in it, no [#] in front, and not
    [__proto__]. *)
Definition plain_name (k : jsstring) : bool :=
  match k with
  | [] => false
  | c :: _ =>
      negb (N.eqb c HASH)
      && str_eqb (trim k) k
      && negb (has EQUALS k) && negb (has LF k) && negb (has CR k)
      && negb (str_eqb k (lit "__proto__"))
  end.

(** A value that a line of the text gives back: no white space at either
    end, no line break in it, and no pair of quotes around it. *)
Definition plain_value (v : jsstring) : bool :=
  str_eqb (trim v) v
  && negb (has LF v) && negb (has CR v)
  && str_eqb (unquote v) v.

Definition plain_vars (o : Vars) : bool :=
  forallb (fun kv => plain_name (fst kv) && plain_value (snd kv)) o.

End Cron.

(* ================================================================== *)
(** * The findings of a security scan *)
(* ================================================================== *)

Module Security.
Import Js.

(** A finding as the scanner reports it: an object whose [status] and
    whose texts for the card ([category], [check], [detail],
    [recommendation]) are strings, each of them there or not. (For these
    the conversions to a property key and to text cannot throw.) *)
Record Finding := {
  status : option jsstring;
  category : option jsstring;
  check : option jsstring;
  detail : option jsstring;
  recommendation : option jsstring
}.

(** The names that [Object.prototype] gives to every object. Read off the
    object [grouped] they give a function (or, for [__proto__], the
    prototype), which is truthy and has no [push]. *)
Definition inherited_names : list jsstring :=
  [lit "constructor"; lit "__defineGetter__"; lit "__defineSetter__";
   lit "hasOwnProperty"; lit "__lookupGetter__"; lit "__lookupSetter__";
   lit "isPrototypeOf"; lit "propertyIsEnumerable"; lit "toString";
   lit "valueOf"; lit "__proto__"; lit "toLocaleString"].

(** [const grouped = { red: [], amber: [], green: [] }] *)
Record Groups := {
  red : list Finding;
  amber : list Finding;
  green : list Finding
}.

Definition no_groups : Groups := {| red := []; amber := []; green := [] |}.

(** The property key [f.status] is used as: the string, or [undefined] for
    a finding without one. *)
Definition status_key (f : Finding) : jsstring :=
  match status f with
  | Some s => s
  | None => lit "undefined"
  end.

Definition has_status (colour : jsstring) (f : Finding) : bool :=
  str_eqb (status_key f) colour.

(** [if (grouped[f.status]) grouped[f.status].push(f);] where [None] is a
    TypeError: [grouped[f.status]] is truthy and has no [push]. *)
Definition group_one (grouped : Groups) (f : Finding) : option Groups :=
  let key := status_key f in
  if str_eqb key (lit "red") then
    Some {| red := red grouped ++ [f]; amber := amber grouped;
            green := green grouped |}
  else if str_eqb key (lit "amber") then
    Some {| red := red grouped; amber := amber grouped ++ [f];
            green := green grouped |}
  else if str_eqb key (lit "green") then
    Some {| red := red grouped; amber := amber grouped;
            green := green grouped ++ [f] |}
  else if existsb (str_eqb key) inherited_names then None
  else Some grouped.

(** [findings.forEach(...)] *)
Fixpoint group_all (grouped : Groups) (findings : list Finding)
  : option Groups :=
  match findings with
  | [] => Some grouped
  | f :: findings' =>
      match group_one grouped f with
      | Some grouped' => group_all grouped' findings'
      | None => None
      end
  end.

(** What [#security-findings] shows: the notice [No findings], or one card
    for each of the findings listed. *)
Inductive Shown := NoFindings | Cards (findings : list Finding).

(** The findings part of [displaySecurityResults] for
    [result.findings || []]; [None] is a TypeError. The cards are written
    from the grouped findings, whose status is one of the three colours and
    whose texts are strings or absent ([f.category || ''] and the like), so
    that writing them does not throw. *)
Definition shown_findings (findings : list Finding) : option Shown :=
  match findings with
  | [] => Some NoFindings
  | _ :: _ =>
      match group_all no_groups findings with
      | Some grouped =>
          Some (Cards (red grouped ++ amber grouped ++ green grouped))
      | None => None
      end
  end.

(** The findings on which grouping throws. *)
Definition breaks (f : Finding) : bool :=
  existsb (str_eqb (status_key f)) inherited_names.

End Security.

(* ================================================================== *)
(** * Properties *)
(* ================================================================== *)

(** ** escapeHtml *)

Section CoreFacts.
Import Js Core.

Lemma escape_unit_no_markup (c : N) :
  ~ In LT (escape_unit c) /\ ~ In GT (escape_unit c).
Proof.
  unfold escape_unit.
  destruct (N.eqb c AMP) eqn:Ea; [cbn; intuition discriminate|].
  destruct (N.eqb c NBSP) eqn:En; [cbn; intuition discriminate|].
  destruct (N.eqb c LT) eqn:El; [cbn; intuition discriminate|].
  destruct (N.eqb c GT) eqn:Eg; [cbn; intuition discriminate|].
  apply N.eqb_neq in El, Eg.
  cbn; intuition congruence.
Qed.

Lemma serialize_text_no_markup (s : jsstring) :
  ~ In LT (serialize_text s) /\ ~ In GT (serialize_text s).
Proof.
  unfold serialize_text.
  split; intros H; apply in_flat_map in H; destruct H as (c & _ & H);
    destruct (escape_unit_no_markup c); contradiction.
Qed.

(** Claim C10. [escapeHtml] returns the empty string for [null], for
    [undefined] and for the empty string; for a string it returns the
    serialisation of a text node with that data; and whatever it is given,
    its result holds no [<] and no [>], so text put through it adds no
    element to the markup it is interpolated into. *)
Theorem escapeHtml_entity_encodes :
  escapeHtml JNull = []
  /\ escapeHtml JUndefined = []
  /\ escapeHtml (JString []) = []
  /\ (forall s : jsstring,
        escapeHtml (JString s) = serialize_text s)
  /\ (forall v : JsValue,
        ~ In LT (escapeHtml v) /\ ~ In GT (escapeHtml v)).
Proof.
  repeat split; try reflexivity.
  - intros [|c s]; reflexivity.
  - unfold escapeHtml. destruct (negb (ToBoolean v)); [intros []|].
    apply serialize_text_no_markup.
  - unfold escapeHtml. destruct (negb (ToBoolean v)); [intros []|].
    apply serialize_text_no_markup.
Qed.
End CoreFacts.


(** ** The chat read loop *)

Section ChatFacts.
Import Js Chat.

Lemma split_not_nil (sep : N) (s : jsstring) : split sep s <> [].
Proof.
  destruct s as [|c s]; cbn; [discriminate|].
  destruct (N.eqb c sep); [discriminate|].
  destruct (split sep s); discriminate.
Qed.

Lemma split_app_sep (sep : N) (a b : jsstring) :
  split sep (a ++ sep :: b) = split sep a ++ split sep b.
Proof.
  induction a as [|c a IH]; cbn.
  - rewrite N.eqb_refl. reflexivity.
  - destruct (N.eqb c sep); [now rewrite IH|].
    rewrite IH. destruct (split sep a) eqn:E; [now apply split_not_nil in E|].
    reflexivity.
Qed.

Lemma split_no_sep (sep : N) (a : jsstring) :
  ~ In sep a -> split sep a = [a].
Proof.
  induction a as [|c a IH]; cbn; intros H; [reflexivity|].
  destruct (N.eqb c sep) eqn:E.
  - apply N.eqb_eq in E. tauto.
  - rewrite IH by tauto. reflexivity.
Qed.

Lemma ends_at_frame_cases (chunk : jsstring) :
  ends_at_frame chunk = true ->
  chunk = [] \/ exists body, chunk = body ++ [LF].
Proof.
  unfold ends_at_frame. destruct (rev chunk) as [|c r] eqn:E; intros H.
  - left. apply (f_equal (@rev N)) in E. now rewrite rev_involutive in E.
  - right. exists (rev r). apply N.eqb_eq in H. subst c.
    apply (f_equal (@rev N)) in E. now rewrite rev_involutive in E.
Qed.

(** The lines of a chunk that ends at a frame, followed by a chunk: those of
    the first, then those of the second; an empty line comes between. *)
Lemma split_aligned (a b : jsstring) :
  ends_at_frame a = true ->
  exists lines,
    (split LF a = lines ++ [[]] /\ split LF (a ++ b) = lines ++ split LF b).
Proof.
  intros H. destruct (ends_at_frame_cases a H) as [->|[body ->]].
  - exists []. split; reflexivity.
  - exists (split LF body). split.
    + rewrite split_app_sep. reflexivity.
    + rewrite <- app_assoc. cbn. apply split_app_sep.
Qed.

Lemma process_line_empty (st : Session) : process_line st [] = st.
Proof. reflexivity. Qed.

Lemma process_chunk_aligned (a b : jsstring) (st : Session) :
  ends_at_frame a = true ->
  process_chunk st (a ++ b) = process_chunk (process_chunk st a) b.
Proof.
  intros H. destruct (split_aligned a b H) as (lines & Ha & Hab).
  unfold process_chunk. rewrite Ha, Hab, !fold_left_app. reflexivity.
Qed.

Lemma delivered_aligned (a b : jsstring) :
  ends_at_frame a = true ->
  delivered (a ++ b) = delivered a ++ delivered b.
Proof.
  intros H. destruct (split_aligned a b H) as (lines & Ha & Hab).
  unfold delivered. rewrite Ha, Hab, !flat_map_app. cbn.
  rewrite app_nil_r. reflexivity.
Qed.

Lemma read_loop_aligned (chunks : list jsstring) (st : Session) :
  forallb ends_at_frame (removelast chunks) = true ->
  read_loop chunks st = process_chunk st (List.concat chunks)
  \/ chunks = [] .
Proof.
  revert st. induction chunks as [|c rest IH]; intros st H; [now right|left].
  destruct rest as [|c' rest'].
  - cbn. now rewrite app_nil_r.
  - change (removelast (c :: c' :: rest')) with (c :: removelast (c' :: rest')) in H.
    cbn [forallb] in H. apply andb_true_iff in H. destruct H as [Hc Hrest].
    destruct (IH (process_chunk st c) Hrest) as [E|E]; [|discriminate].
    change (read_loop (c :: c' :: rest') st)
      with (read_loop (c' :: rest') (process_chunk st c)).
    rewrite E.
    change (List.concat (c :: c' :: rest')) with (c ++ List.concat (c' :: rest')).
    symmetry. now apply process_chunk_aligned.
Qed.

Lemma delivered_stream_aligned (chunks : list jsstring) :
  forallb ends_at_frame (removelast chunks) = true ->
  chunks <> [] ->
  delivered_stream chunks = delivered (List.concat chunks).
Proof.
  induction chunks as [|c rest IH]; intros H Hne; [congruence|].
  destruct rest as [|c' rest'].
  - cbn. now rewrite !app_nil_r.
  - change (removelast (c :: c' :: rest')) with (c :: removelast (c' :: rest')) in H.
    cbn [forallb] in H. apply andb_true_iff in H. destruct H as [Hc Hrest].
    unfold delivered_stream in *.
    change (flat_map delivered (c :: c' :: rest'))
      with (delivered c ++ flat_map delivered (c' :: rest')).
    change (List.concat (c :: c' :: rest')) with (c ++ List.concat (c' :: rest')).
    rewrite IH by (auto; discriminate). symmetry. now apply delivered_aligned.
Qed.


Lemma process_line_delivers (st : Session) (line : jsstring) :
  process_line st line = fold_left deliver (delivered_line line) st.
Proof.
  unfold process_line, delivered_line.
  destruct (negb (startsWith (lit "data: ") line)); [reflexivity|].
  destruct (JSON_parse (slice 6 line)); reflexivity.
Qed.

Lemma fold_left_flat_map {A B C : Type} (f : A -> C -> A) (g : B -> list C)
  (l : list B) (a : A) :
  fold_left f (flat_map g l) a
  = fold_left (fun a' b => fold_left f (g b) a') l a.
Proof.
  revert a. induction l as [|b l IH]; intros a; [reflexivity|].
  cbn [flat_map fold_left]. now rewrite fold_left_app, IH.
Qed.

Lemma fold_left_ext_eq {A B : Type} (f g : A -> B -> A) (l : list B) (a : A) :
  (forall a' b, f a' b = g a' b) -> fold_left f l a = fold_left g l a.
Proof.
  intros H. revert a. induction l as [|b l IH]; intros a; [reflexivity|].
  cbn. now rewrite H, IH.
Qed.

(** What the loop does to the page is what [deliver] does with the events
    handed over, one after the other. *)
Lemma read_loop_delivers (chunks : list jsstring) (st : Session) :
  read_loop chunks st = fold_left deliver (delivered_stream chunks) st.
Proof.
  unfold read_loop, delivered_stream, delivered, process_chunk.
  rewrite fold_left_flat_map. apply fold_left_ext_eq. intros a chunk.
  rewrite fold_left_flat_map. apply fold_left_ext_eq. intros a' line.
  apply process_line_delivers.
Qed.

(** Claim C1, as the code has it. The read loop keeps no buffer between
    chunks: it cuts every chunk into lines on its own, and what it does to
    the page is what the events it hands over make it do. When every chunk
    but the last one ends where a frame ends (with a newline, or is empty),
    the loop does to the page what it does when the same text arrives as
    one chunk, and hands over the same events in the same order. *)
Theorem frame_aligned_chunking_is_one_chunk :
  forall (chunks : list jsstring) (st : Session),
    forallb ends_at_frame (removelast chunks) = true ->
    read_loop chunks st = read_loop [List.concat chunks] st
    /\ delivered_stream chunks = delivered_stream [List.concat chunks]
    /\ read_loop chunks st
       = fold_left process_line (flat_map (split LF) chunks) st
    /\ read_loop chunks st
       = fold_left deliver (delivered_stream chunks) st.
Proof.
  intros chunks st H. split; [|split; [|split]]; [| | |apply read_loop_delivers].
  - destruct (read_loop_aligned chunks st H) as [E| ->]; [|reflexivity].
    rewrite E. reflexivity.
  - destruct chunks as [|c rest]; [reflexivity|].
    rewrite delivered_stream_aligned by (auto; discriminate).
    unfold delivered_stream. cbn. now rewrite app_nil_r.
  - clear H. revert st. induction chunks as [|c rest IH]; intros st; [reflexivity|].
    cbn [flat_map]. rewrite fold_left_app. apply IH.
Qed.

Lemma frame_aligned_chunking_example :
  forallb ends_at_frame (removelast [hello_frame; frame done_body]) = true
  /\ read_loop [hello_frame; frame done_body] start
     = read_loop [List.concat [hello_frame; frame done_body]] start
  /\ delivered_stream [hello_frame; frame done_body]
     = delivered_stream [List.concat [hello_frame; frame done_body]]
  /\ read_loop [hello_frame; frame done_body] start
     = fold_left process_line
         (flat_map (split LF) [hello_frame; frame done_body]) start
  /\ read_loop [hello_frame; frame done_body] start
     = fold_left deliver
         (delivered_stream [hello_frame; frame done_body]) start.
Proof.
  split; [reflexivity|].
  exact (frame_aligned_chunking_is_one_chunk
           [hello_frame; frame done_body] start eq_refl).
Defined.

(** Claim C1 fails for a chunk boundary inside a frame. The frame of a text
    event with content [hello], in one chunk, adds the message [hello]; cut
    after its tenth code unit, the first piece is a [data: ] line that does
    not parse and the second is no [data: ] line, and the event is lost. *)
Lemma chunk_boundary_inside_frame_loses_event :
  List.concat [firstn 10 hello_frame; skipn 10 hello_frame] = hello_frame
  /\ effects (sendChatMessage [hello_frame])
     = [AddChatMessage assistant (JString (lit "hello")) true]
  /\ delivered_stream [hello_frame]
     = [JObject [(lit "type", JString (lit "text"));
                 (lit "content", JString (lit "hello"))]]
  /\ effects (sendChatMessage
                [firstn 10 hello_frame; skipn 10 hello_frame]) = []
  /\ delivered_stream [firstn 10 hello_frame; skipn 10 hello_frame] = [].
Proof.
  repeat match goal with |- _ /\ _ => split end; vm_compute; reflexivity.
Qed.

Lemma startsWith_app (p s : jsstring) : startsWith p (p ++ s) = true.
Proof. induction p as [|c p IH]; cbn; [reflexivity|]. now rewrite N.eqb_refl. Qed.

Lemma slice_app (p s : jsstring) : slice (List.length p) (p ++ s) = s.
Proof. induction p as [|c p IH]; [reflexivity|apply IH]. Qed.

Lemma process_line_data (st : Session) (body : jsstring) :
  process_line st (lit "data: " ++ body)
  = match JSON_parse body with
    | Some event => deliver st event
    | None => st
    end.
Proof.
  unfold process_line. rewrite startsWith_app.
  change 6%nat with (List.length (lit "data: ")). rewrite slice_app.
  reflexivity.
Qed.

Lemma delivered_line_data (body : jsstring) :
  delivered_line (lit "data: " ++ body)
  = match JSON_parse body with
    | Some event => [event]
    | None => []
    end.
Proof.
  unfold delivered_line. rewrite startsWith_app.
  change 6%nat with (List.length (lit "data: ")). rewrite slice_app.
  reflexivity.
Qed.

Lemma split_frame (body rest : jsstring) :
  ~ In LF body ->
  split LF (frame body ++ rest) = (lit "data: " ++ body) :: split LF rest.
Proof.
  intros H. unfold frame.
  replace ((lit "data: " ++ body ++ [LF]) ++ rest)
    with ((lit "data: " ++ body) ++ LF :: rest)
    by (rewrite <- !app_assoc; reflexivity).
  rewrite split_app_sep, split_no_sep; [reflexivity|].
  intros Hin. apply in_app_or in Hin. destruct Hin as [Hin|Hin]; [|tauto].
  cbn in Hin. unfold LF in Hin. intuition discriminate.
Qed.

Lemma process_chunk_frame (st : Session) (body rest : jsstring) :
  ~ In LF body ->
  process_chunk st (frame body ++ rest)
  = process_chunk (match JSON_parse body with
                   | Some event => deliver st event
                   | None => st
                   end) rest.
Proof.
  intros H. unfold process_chunk. rewrite split_frame by assumption.
  cbn [fold_left]. now rewrite process_line_data.
Qed.

Lemma delivered_frame (body rest : jsstring) :
  ~ In LF body ->
  delivered (frame body ++ rest)
  = match JSON_parse body with
    | Some event => [event]
    | None => []
    end ++ delivered rest.
Proof.
  intros H. unfold delivered. rewrite split_frame by assumption.
  cbn [flat_map]. now rewrite delivered_line_data.
Qed.

(** Claim C6, as the code has it. Take a stream, delivered in chunks of
    which each but the last ends where a frame ends, in which a frame whose
    body [JSON.parse] rejects stands between two frames whose bodies parse
    to [e1] and [e2], with whole frames before and anything after. The events handed over are those before, then [e1] and
    [e2], then those after; the loop runs on to the end of the stream; and
    the page ends as for the same stream without the malformed frame. *)
Theorem malformed_frame_is_skipped :
  forall (pre f1 bad f2 post : jsstring) (e1 e2 : JsValue)
         (chunks : list jsstring) (st : Session),
    ends_at_frame pre = true ->
    ~ In LF f1 -> ~ In LF bad -> ~ In LF f2 ->
    JSON_parse f1 = Some e1 ->
    JSON_parse bad = None ->
    JSON_parse f2 = Some e2 ->
    forallb ends_at_frame (removelast chunks) = true ->
    List.concat chunks = pre ++ frame f1 ++ frame bad ++ frame f2 ++ post ->
    delivered_stream chunks = delivered pre ++ [e1; e2] ++ delivered post
    /\ read_loop chunks st
       = process_chunk (deliver (deliver (process_chunk st pre) e1) e2) post
    /\ read_loop chunks st
       = read_loop [pre ++ frame f1 ++ frame f2 ++ post] st.
Proof.
  intros pre f1 bad f2 post e1 e2 chunks st Hpre N1 Nb N2 P1 Pb P2 Hal Hcat.
  assert (Hne : chunks <> []).
  { intros ->. cbn in Hcat. destruct pre; discriminate. }
  assert (Hrun : read_loop chunks st
                 = process_chunk (deliver (deliver (process_chunk st pre) e1) e2) post).
  { destruct (read_loop_aligned chunks st Hal) as [E|E]; [|contradiction].
    rewrite E, Hcat. rewrite process_chunk_aligned by assumption.
    rewrite !process_chunk_frame by assumption. now rewrite P1, Pb, P2. }
  split; [|split].
  - rewrite delivered_stream_aligned, Hcat by assumption.
    rewrite delivered_aligned by assumption.
    rewrite !delivered_frame by assumption. now rewrite P1, Pb, P2.
  - exact Hrun.
  - rewrite Hrun. cbn [read_loop fold_left].
    rewrite process_chunk_aligned by assumption.
    rewrite !process_chunk_frame by assumption. now rewrite P1, P2.
Qed.

Lemma no_LF (s : jsstring) : existsb (N.eqb LF) s = false -> ~ In LF s.
Proof.
  intros H Hin. assert (E : existsb (N.eqb LF) s = true).
  { apply existsb_exists. exists LF. split; [assumption|apply N.eqb_refl]. }
  congruence.
Qed.

Lemma malformed_frame_example :
  delivered_stream [hello_frame ++ frame cut_body; frame done_body]
  = delivered []
    ++ [JObject [(lit "type", JString (lit "text"));
                 (lit "content", JString (lit "hello"))];
        JObject [(lit "type", JString (lit "done"))]]
    ++ delivered []
  /\ read_loop [hello_frame ++ frame cut_body; frame done_body] start
     = process_chunk
         (deliver
            (deliver (process_chunk start [])
               (JObject [(lit "type", JString (lit "text"));
                         (lit "content", JString (lit "hello"))]))
            (JObject [(lit "type", JString (lit "done"))])) []
  /\ read_loop [hello_frame ++ frame cut_body; frame done_body] start
     = read_loop [[] ++ frame hello_body ++ frame done_body ++ []] start.
Proof.
  apply (malformed_frame_is_skipped [] hello_body cut_body done_body []);
    try (apply no_LF); vm_compute; reflexivity.
Defined.

(** Claim C6 fails for a stream that is cut inside a frame. The stream of a
    text frame, a frame whose body does not parse and a [done] frame, with
    the first chunk ending after the tenth code unit of the text frame:
    both outer frames are well formed, and only the [done] event is handed
    over. The text event is lost with the malformed frame, and no message
    is added to the page. *)
Lemma malformed_frame_in_cut_stream_loses_event :
  List.concat [firstn 10 hello_frame;
               skipn 10 hello_frame ++ frame cut_body ++ frame done_body]
  = frame hello_body ++ frame cut_body ++ frame done_body
  /\ JSON_parse hello_body
     = Some (JObject [(lit "type", JString (lit "text"));
                      (lit "content", JString (lit "hello"))])
  /\ JSON_parse cut_body = None
  /\ JSON_parse done_body = Some (JObject [(lit "type", JString (lit "done"))])
  /\ delivered_stream
       [firstn 10 hello_frame;
        skipn 10 hello_frame ++ frame cut_body ++ frame done_body]
     = [JObject [(lit "type", JString (lit "done"))]]
  /\ effects (sendChatMessage
                [firstn 10 hello_frame;
                 skipn 10 hello_frame ++ frame cut_body ++ frame done_body])
     = [FreezeStreaming].
Proof.
  repeat match goal with |- _ /\ _ => split end; vm_compute; reflexivity.
Qed.

End ChatFacts.

(** ** The pollers *)

Section PollerFacts.
Import Pollers.

Lemma Poller_eqb_eq (p q : Poller) : Poller_eqb p q = true <-> p = q.
Proof. destruct p, q; cbn; split; congruence. Qed.

Lemma Poller_eqb_refl (p : Poller) : Poller_eqb p p = true.
Proof. now destruct p. Qed.

Lemma NoDup_map_In_inj {A B : Type} (f : A -> B) (l : list A) (x y : A) :
  NoDup (map f l) -> In x l -> In y l -> f x = f y -> x = y.
Proof.
  induction l as [|a l IH]; cbn; intros Hnd Hx Hy E; [contradiction|].
  inversion Hnd as [|? ? Hnotin Hnd']; subst.
  destruct Hx as [->|Hx], Hy as [->|Hy]; auto.
  - exfalso. apply Hnotin. rewrite E. now apply in_map.
  - exfalso. apply Hnotin. rewrite <- E. now apply in_map.
Qed.

Lemma map_filter_on {A B : Type} (f : A -> B) (g : B -> bool) (l : list A) :
  map f (filter (fun a => g (f a)) l) = filter g (map f l).
Proof.
  induction l as [|a l IH]; cbn; [reflexivity|].
  destruct (g (f a)); cbn; now rewrite IH.
Qed.

Lemma filter_filter_comm {A : Type} (f g : A -> bool) (l : list A) :
  filter f (filter g l) = filter g (filter f l).
Proof.
  induction l as [|a l IH]; cbn; [reflexivity|].
  destruct (f a) eqn:Ef, (g a) eqn:Eg; cbn; rewrite ?Ef, ?Eg, IH; reflexivity.
Qed.

Lemma filter_map_stable {A : Type} (f : A -> bool) (g : A -> A) (l : list A) :
  (forall a, f (g a) = f a) ->
  filter f (map g l) = map g (filter f l).
Proof.
  intros H. induction l as [|a l IH]; cbn; [reflexivity|].
  rewrite H. destruct (f a); cbn; now rewrite IH.
Qed.

Lemma NoDup_filter {A : Type} (f : A -> bool) (l : list A) :
  NoDup l -> NoDup (filter f l).
Proof.
  induction 1 as [|a l Hnotin Hnd IH]; cbn; [constructor|].
  destruct (f a); [|assumption].
  constructor; [|assumption]. intros Hin. apply filter_In in Hin. tauto.
Qed.

(** Projections through [assign], [with_timers] and [setLive]. *)

Lemma variable_assign (p q : Poller) (v : option positive) (w : Window) :
  variable q (assign p v w) = if Poller_eqb p q then v else variable q w.
Proof. destruct p, q; reflexivity. Qed.

Lemma timers_assign p v w : timers (assign p v w) = timers w.
Proof. now destruct p. Qed.

Lemma nextHandle_assign p v w : nextHandle (assign p v w) = nextHandle w.
Proof. now destruct p. Qed.

Lemma calls_assign p v w : calls (assign p v w) = calls w.
Proof. now destruct p. Qed.

Lemma now_assign p v w : now (assign p v w) = now w.
Proof. now destruct p. Qed.

Lemma timers_of_assign p q v w : timers_of q (assign p v w) = timers_of q w.
Proof. unfold timers_of. now rewrite timers_assign. Qed.

Lemma enabled_assign p q v w : enabled q (assign p v w) = enabled q w.
Proof. destruct p, q; reflexivity. Qed.

Lemma variable_with_timers q ts n w : variable q (with_timers ts n w) = variable q w.
Proof. now destruct q. Qed.

Lemma enabled_with_timers q ts n w : enabled q (with_timers ts n w) = enabled q w.
Proof. now destruct q. Qed.

(** Two pollers never hold the same handle. *)
Lemma handles_distinct (w : Window) (p q : Poller) (h : positive) :
  consistent w -> variable p w = Some h -> variable q w = Some h -> p = q.
Proof.
  intros [_ Hu Ho] Hp Hq.
  pose proof (Ho p) as Op. pose proof (Ho q) as Oq.
  rewrite Hp in Op. rewrite Hq in Oq. cbn in Op, Oq.
  destruct (timers_of p w) as [|tp [|? ?]] eqn:Ep; try discriminate.
  destruct (timers_of q w) as [|tq [|? ?]] eqn:Eq; try discriminate.
  injection Op as Op. injection Oq as Oq.
  assert (Hinp : In tp (timers_of p w)) by (rewrite Ep; now left).
  assert (Hinq : In tq (timers_of q w)) by (rewrite Eq; now left).
  apply filter_In in Hinp, Hinq. destruct Hinp as [Ip Cp], Hinq as [Iq Cq].
  assert (tp = tq) by (apply (NoDup_map_In_inj handle (timers w)); congruence).
  subst tq. apply Poller_eqb_eq in Cp, Cq. congruence.
Qed.

Lemma consistent_initial : consistent initial.
Proof.
  split; cbn; [constructor|constructor|]. intros p. now destruct p.
Qed.

Lemma stop_inactive (p : Poller) (w : Window) :
  variable p w = None -> stop p w = w.
Proof. unfold stop. now intros ->. Qed.

Lemma consistent_stop (p : Poller) (w : Window) :
  consistent w -> consistent (stop p w) /\ variable p (stop p w) = None.
Proof.
  intros Hc. unfold stop. destruct (variable p w) as [h|] eqn:Ev; [|now split].
  split; [|rewrite variable_assign, Poller_eqb_refl; reflexivity].
  destruct Hc as [Hf Hu Ho].
  split.
  - rewrite timers_assign, nextHandle_assign. cbn.
    apply Forall_forall. intros t Hin. apply filter_In in Hin.
    rewrite Forall_forall in Hf. now apply Hf.
  - rewrite timers_assign. cbn.
    rewrite (map_filter_on handle (fun x => negb (Pos.eqb x h))).
    now apply NoDup_filter.
  - intros q. rewrite timers_of_assign, variable_assign.
    unfold timers_of, clearInterval. cbn.
    rewrite filter_filter_comm.
    rewrite (map_filter_on handle (fun x => negb (Pos.eqb x h))).
    fold (timers_of q w). rewrite Ho.
    rewrite variable_with_timers.
    destruct (Poller_eqb p q) eqn:Epq.
    + apply Poller_eqb_eq in Epq. subst q. rewrite Ev. cbn.
      now rewrite Pos.eqb_refl.
    + destruct (variable q w) as [hq|] eqn:Eq; [|reflexivity]. cbn.
      destruct (Pos.eqb hq h) eqn:Eh; [|reflexivity].
      apply Pos.eqb_eq in Eh. subst hq.
      assert (p = q) by (apply (handles_distinct w p q h); try assumption; now split).
      subst q. now rewrite Poller_eqb_refl in Epq.
Qed.

Lemma timers_of_app p ts n w t :
  timers_of p (with_timers (ts ++ [t]) n w)
  = filter (fun t => Poller_eqb (callback t) p) ts
    ++ (if Poller_eqb (callback t) p then [t] else []).
Proof.
  unfold timers_of. cbn. rewrite filter_app. cbn.
  now destruct (Poller_eqb (callback t) p).
Qed.

Lemma start_unfold (p : Poller) (w : Window) :
  start p w =
  if enabled p (stop p w) then
    assign p (Some (nextHandle (stop p w)))
      (with_timers
         (timers (stop p w) ++
            [{| handle := nextHandle (stop p w); callback := p;
                period := intervalMs p;
                due := now (stop p w) + intervalMs p |}])
         (Pos.succ (nextHandle (stop p w))) (stop p w))
  else stop p w.
Proof. reflexivity. Qed.

Lemma enabled_stop p q w : enabled q (stop p w) = enabled q w.
Proof.
  unfold stop. destruct (variable p w); [|reflexivity].
  rewrite enabled_assign. unfold clearInterval. now rewrite enabled_with_timers.
Qed.

Lemma now_stop p w : now (stop p w) = now w.
Proof.
  unfold stop. destruct (variable p w); [|reflexivity].
  now rewrite now_assign.
Qed.

Lemma calls_stop p w : calls (stop p w) = calls w.
Proof.
  unfold stop. destruct (variable p w); [|reflexivity].
  now rewrite calls_assign.
Qed.

Lemma consistent_start (p : Poller) (w : Window) :
  consistent w -> consistent (start p w).
Proof.
  intros Hc. rewrite start_unfold.
  destruct (consistent_stop p w Hc) as [Hs Hv].
  destruct (enabled p (stop p w)); [|assumption].
  set (w1 := stop p w) in *. destruct Hs as [Hf Hu Ho].
  split.
  - rewrite timers_assign, nextHandle_assign. cbn.
    apply Forall_app. split.
    + eapply Forall_impl; [|exact Hf]. cbn. intros t Ht. lia.
    + constructor; [cbn; lia|constructor].
  - rewrite timers_assign. cbn. rewrite map_app. cbn.
    rewrite <- (rev_involutive (map handle (timers w1) ++ [nextHandle w1])).
    apply NoDup_rev. rewrite rev_app_distr. cbn. constructor.
    + rewrite <- in_rev. intros Hin. apply in_map_iff in Hin.
      destruct Hin as (t & E & Hin). rewrite Forall_forall in Hf.
      specialize (Hf t Hin). cbn in Hf. lia.
    + now apply NoDup_rev.
  - intros q. rewrite timers_of_assign, variable_assign, timers_of_app.
    cbn [callback]. rewrite map_app. fold (timers_of q w1). rewrite Ho.
    rewrite variable_with_timers.
    destruct (Poller_eqb p q) eqn:Epq.
    + apply Poller_eqb_eq in Epq. subst q. rewrite Hv. reflexivity.
    + cbn. now rewrite app_nil_r.
Qed.

Lemma consistent_setLive (p : Poller) (b : bool) (w : Window) :
  consistent w -> consistent (setLive p b w).
Proof.
  intros [Hf Hu Ho]. destruct p; split; cbn; try assumption;
    intros q; specialize (Ho q); destruct q; exact Ho.
Qed.

Lemma timers_millisecond (w : Window) :
  timers (millisecond w) = map (reschedule (now w + 1)) (timers w).
Proof. reflexivity. Qed.

Lemma handle_reschedule t tm : handle (reschedule t tm) = handle tm.
Proof. unfold reschedule. now destruct (fires t tm). Qed.

Lemma callback_reschedule t tm : callback (reschedule t tm) = callback tm.
Proof. unfold reschedule. now destruct (fires t tm). Qed.

Lemma timers_of_millisecond (p : Poller) (w : Window) :
  timers_of p (millisecond w) = map (reschedule (now w + 1)) (timers_of p w).
Proof.
  unfold timers_of. rewrite timers_millisecond.
  apply filter_map_stable. intros a. now rewrite callback_reschedule.
Qed.

Lemma consistent_millisecond (w : Window) :
  consistent w -> consistent (millisecond w).
Proof.
  intros [Hf Hu Ho]. split.
  - rewrite timers_millisecond. apply Forall_map.
    eapply Forall_impl; [|exact Hf]. intros t Ht. now rewrite handle_reschedule.
  - rewrite timers_millisecond, map_map.
    erewrite map_ext; [exact Hu|]. intros t. apply handle_reschedule.
  - intros q. rewrite timers_of_millisecond, map_map.
    erewrite map_ext; [|intros t; apply handle_reschedule].
    rewrite Ho. now destruct q.
Qed.

Lemma consistent_elapse (n : nat) (w : Window) :
  consistent w -> consistent (elapse n w).
Proof.
  revert w. induction n as [|n IH]; intros w Hc; [assumption|].
  cbn. apply IH. now apply consistent_millisecond.
Qed.

Lemma consistent_run (cs : list Call) (w : Window) :
  consistent w -> consistent (run cs w).
Proof.
  revert w. induction cs as [|c cs IH]; intros w Hc; [assumption|].
  cbn. apply IH. destruct c; cbn.
  - now apply consistent_start.
  - now apply consistent_stop.
  - now apply consistent_setLive.
  - now apply consistent_elapse.
Qed.


Lemma owned_nil (p : Poller) (w : Window) :
  consistent w -> (timers_of p w = [] <-> variable p w = None).
Proof.
  intros [_ _ Ho]. specialize (Ho p). split; intros H.
  - rewrite H in Ho. destruct (variable p w); [discriminate|reflexivity].
  - rewrite H in Ho. now apply map_eq_nil in Ho.
Qed.

Lemma owned_length (p : Poller) (w : Window) :
  consistent w ->
  List.length (timers_of p w) = List.length (option_list (variable p w)).
Proof. intros [_ _ Ho]. now rewrite <- (Ho p), length_map. Qed.

Lemma variable_start (p : Poller) (w : Window) :
  variable p (start p w)
  = if enabled p w then Some (nextHandle (stop p w)) else variable p (stop p w).
Proof.
  rewrite start_unfold, enabled_stop. destruct (enabled p w); [|reflexivity].
  now rewrite variable_assign, Poller_eqb_refl.
Qed.

Lemma run_app (cs1 cs2 : list Call) (w : Window) :
  run (cs1 ++ cs2) w = run cs2 (run cs1 w).
Proof. apply fold_left_app. Qed.

(** Claim C2, as the code has it. After any sequence of starts, stops,
    changes of the live boxes and lapses of time on a fresh page, a poller
    has at most one live timer; starting it leaves exactly one (none when
    its live box is unticked), whether or not one was live before; stopping
    a poller that has none changes nothing; and after a stop no timer of the
    poller is left, however many starts and stops went before. *)
Theorem one_timer_per_poller :
  forall (cs : list Call) (p : Poller),
    (List.length (timers_of p (run cs initial)) <= 1)%nat
    /\ List.length (timers_of p (start p (run cs initial)))
       = (if enabled p (run cs initial) then 1 else 0)%nat
    /\ (timers_of p (run cs initial) = [] ->
        stop p (run cs initial) = run cs initial)
    /\ timers_of p (run (cs ++ [Stop p]) initial) = [].
Proof.
  intros cs p.
  pose proof (consistent_run cs initial consistent_initial) as Hc.
  set (w := run cs initial) in *.
  split; [|split; [|split]].
  - rewrite (owned_length p w Hc). destruct (variable p w); cbn; lia.
  - rewrite (owned_length p _ (consistent_start p w Hc)), variable_start.
    destruct (enabled p w); [reflexivity|].
    now rewrite (proj2 (consistent_stop p w Hc)).
  - intros H. apply stop_inactive. now apply (owned_nil p w Hc).
  - rewrite run_app. fold w. cbn.
    destruct (consistent_stop p w Hc) as [Hs Hv].
    now apply (owned_nil p _ Hs).
Qed.

(** Claim C2 fails in its last clause: one stop and then one start are an
    equal number of opposite calls, and the timer of the start is left
    running. *)
Lemma equal_counts_leave_a_timer :
  starts ServiceLogs [Stop ServiceLogs; Start ServiceLogs]
  = stops ServiceLogs [Stop ServiceLogs; Start ServiceLogs]
  /\ timers_of ServiceLogs (run [Stop ServiceLogs; Start ServiceLogs] initial)
     = [{| handle := 1; callback := ServiceLogs; period := 1000; due := 1000 |}].
Proof. split; reflexivity. Qed.

Lemma calls_start (p : Poller) (w : Window) : calls (start p w) = calls w.
Proof.
  rewrite start_unfold. destruct (enabled p (stop p w)).
  - rewrite calls_assign. cbn. apply calls_stop.
  - apply calls_stop.
Qed.

Lemma now_start (p : Poller) (w : Window) : now (start p w) = now w.
Proof.
  rewrite start_unfold. destruct (enabled p (stop p w)).
  - rewrite now_assign. cbn. apply now_stop.
  - apply now_stop.
Qed.

Lemma timers_of_start (p : Poller) (w : Window) :
  consistent w -> enabled p w = true ->
  timers_of p (start p w)
  = [{| handle := nextHandle (stop p w); callback := p;
        period := intervalMs p; due := now w + intervalMs p |}].
Proof.
  intros Hc He. rewrite start_unfold, enabled_stop, He.
  rewrite timers_of_assign, timers_of_app. cbn [callback].
  rewrite Poller_eqb_refl. fold (timers_of p (stop p w)).
  destruct (consistent_stop p w Hc) as [Hs Hv].
  rewrite (proj2 (owned_nil p _ Hs) Hv), now_stop. reflexivity.
Qed.

Lemma calls_of_millisecond (p : Poller) (w : Window) :
  calls_of p (millisecond w)
  = calls_of p w
    ++ map (fun _ => now w + 1) (filter (fires (now w + 1)) (timers_of p w)).
Proof.
  unfold calls_of, timers_of. cbn. rewrite filter_app, map_app. f_equal.
  induction (timers w) as [|tm ts IH]; cbn; [reflexivity|].
  destruct (fires (now w + 1) tm) eqn:Ef, (Poller_eqb (callback tm) p) eqn:Ep;
    cbn; rewrite ?Ef, ?Ep; cbn; now rewrite IH.
Qed.

Lemma elapse_end (n : nat) (w : Window) :
  elapse (S n) w = millisecond (elapse n w).
Proof.
  revert w. induction n as [|n IH]; intros w; [reflexivity|].
  change (elapse (S (S n)) w) with (elapse (S n) (millisecond w)).
  rewrite IH. reflexivity.
Qed.

Lemma now_elapse (n : nat) (w : Window) : now (elapse n w) = now w + Z.of_nat n.
Proof.
  induction n as [|n IH]; [cbn; lia|].
  rewrite elapse_end. cbn [millisecond now]. rewrite IH. lia.
Qed.

(** Without a live timer for [p], time adds no call of its tick. *)
Lemma elapse_idle (p : Poller) (n : nat) (w : Window) :
  timers_of p w = [] ->
  timers_of p (elapse n w) = [] /\ calls_of p (elapse n w) = calls_of p w.
Proof.
  intros H. induction n as [|n [IHt IHc]]; [now split|].
  rewrite elapse_end, timers_of_millisecond, calls_of_millisecond, IHt, IHc.
  split; [reflexivity|apply app_nil_r].
Qed.

Lemma div_succ_cases (P n : Z) :
  0 < P -> 0 <= n ->
  ((n / P + 1) * P <= n + 1 /\ (n + 1) / P = n / P + 1)
  \/ (n + 1 < (n / P + 1) * P /\ (n + 1) / P = n / P).
Proof.
  intros HP Hn.
  pose proof (Z.div_mod n P ltac:(lia)) as E.
  pose proof (Z.mod_pos_bound n P HP) as B.
  destruct (Z.eq_dec (n mod P) (P - 1)) as [Hm|Hm].
  - left. split; [nia|].
    symmetry. apply (Z.div_unique (n + 1) P (n / P + 1) 0); lia.
  - right. split; [nia|].
    symmetry. apply (Z.div_unique (n + 1) P (n / P) (n mod P + 1)); lia.
Qed.

(** A timer of period [P] set at time [t0] has been called, [n]
    milliseconds later, at [t0 + P], [t0 + 2 P], ... up to [t0 + n], and
    is next due one period after the last of them. *)
Lemma elapse_periodic (p : Poller) (h : positive) (P : Z) (w : Window) (n : nat) :
  0 < P ->
  timers_of p w = [{| handle := h; callback := p; period := P; due := now w + P |}] ->
  timers_of p (elapse n w)
  = [{| handle := h; callback := p; period := P;
        due := now w + (Z.of_nat n / P + 1) * P |}]
  /\ calls_of p (elapse n w)
     = calls_of p w
       ++ map (fun k => now w + Z.of_nat k * P)
            (seq 1 (Z.to_nat (Z.of_nat n / P))).
Proof.
  intros HP H0. induction n as [|n [IHt IHc]].
  - cbn [elapse].
    replace (Z.of_nat 0 / P) with 0 by (symmetry; apply Z.div_0_l; lia).
    rewrite Z.add_0_l, Z.mul_1_l. cbn [Z.to_nat seq map]. rewrite app_nil_r.
    split; [exact H0|reflexivity].
  - rewrite elapse_end, timers_of_millisecond, calls_of_millisecond, IHt, IHc.
    rewrite now_elapse. cbn [map filter]. unfold reschedule, fires. cbn [due period handle callback].
    replace (Z.of_nat (S n)) with (Z.of_nat n + 1) by lia.
    pose proof (Z.div_pos (Z.of_nat n) P ltac:(lia) HP) as Hq.
    destruct (div_succ_cases P (Z.of_nat n) HP ltac:(lia)) as [[Hle Hd]|[Hlt Hd]];
      rewrite Hd; clear Hd; set (q := Z.of_nat n / P) in *.
    + replace (now w + (q + 1) * P <=? now w + Z.of_nat n + 1)
        with true by (symmetry; apply Z.leb_le; lia).
      assert (Hsame : (q + 1) * P = Z.of_nat n + 1).
      { pose proof (Z.mod_pos_bound (Z.of_nat n) P HP) as B.
        pose proof (Z.div_mod (Z.of_nat n) P ltac:(lia)) as E.
        fold q in E. nia. }
      split; [do 2 f_equal; lia|].
      rewrite <- app_assoc. f_equal.
      rewrite Z2Nat.inj_add by lia.
      rewrite seq_app, map_app. f_equal.
      assert (Hk : forall k : nat, k = (1 + Z.to_nat q)%nat ->
                   now w + Z.of_nat k * P = now w + Z.of_nat n + 1).
      { intros k ->. replace (Z.of_nat (1 + Z.to_nat q)) with (q + 1) by lia. lia. }
      change (seq (1 + Z.to_nat q) (Z.to_nat 1)) with [(1 + Z.to_nat q)%nat].
      cbn [map]. f_equal. symmetry. now apply Hk.
    + replace (now w + (q + 1) * P <=? now w + Z.of_nat n + 1)
        with false by (symmetry; apply Z.leb_gt; lia).
      split; [reflexivity|]. cbn. now rewrite app_nil_r.
Qed.

Lemma intervalMs_pos (p : Poller) : 0 < intervalMs p.
Proof. destruct p; cbn; lia. Qed.

Lemma calls_setLive (p : Poller) (b : bool) (w : Window) :
  calls (setLive p b w) = calls w.
Proof. now destruct p. Qed.

Lemma now_setLive (p : Poller) (b : bool) (w : Window) :
  now (setLive p b w) = now w.
Proof. now destruct p. Qed.

(** Calls are only ever added. *)
Lemma calls_elapse_prefix (n : nat) (w : Window) :
  exists later, calls (elapse n w) = calls w ++ later.
Proof.
  revert w. induction n as [|n IH]; intros w.
  - exists []. cbn. now rewrite app_nil_r.
  - cbn [elapse]. destruct (IH (millisecond w)) as (l & E). rewrite E.
    cbn [millisecond calls]. eexists. now rewrite <- app_assoc.
Qed.

Lemma calls_run_prefix (cs : list Call) (w : Window) :
  exists later, calls (run cs w) = calls w ++ later.
Proof.
  unfold run. revert w. induction cs as [|c cs IH]; intros w.
  - exists []. cbn. now rewrite app_nil_r.
  - cbn [fold_left]. destruct (IH (do_call w c)) as (l & E). rewrite E.
    destruct c as [p|p|p b|ms]; cbn [do_call].
    + exists l. now rewrite calls_start.
    + exists l. now rewrite calls_stop.
    + exists l. now rewrite calls_setLive.
    + destruct (calls_elapse_prefix ms w) as (l' & E'). rewrite E'.
      exists (l' ++ l). now rewrite <- app_assoc.
Qed.

(** Claim C3, as the code has it. A start function does not call the tick
    function. It cancels the timer of its poller and then, if the live box
    of the poller is ticked (the security poll has no box and always
    passes), sets a timer whose first call comes one interval later, and
    then every interval; with the box unticked it sets none, and no call
    follows. A stop ends the calls. The immediate refresh of the two log
    views is made by the callers of their start functions
    ([showServiceLogs], before it waits and starts the timer; the change
    listeners of the live boxes; [switchTab]); the security poll has
    none. *)
Theorem start_schedules_and_does_not_call :
  forall (cs between : list Call) (p : Poller) (n : nat),
    calls (start p (run cs initial)) = calls (run cs initial)
    /\ enabled SecurityScan (run cs initial) = true
    /\ (enabled p (run cs initial) = true ->
          (exists h : positive,
             timers_of p (start p (run cs initial))
             = [{| handle := h; callback := p; period := intervalMs p;
                   due := now (run cs initial) + intervalMs p |}])
          /\ calls_of p (elapse n (start p (run cs initial)))
             = calls_of p (run cs initial)
               ++ map (fun k => now (run cs initial) + Z.of_nat k * intervalMs p)
                    (seq 1 (Z.to_nat (Z.of_nat n / intervalMs p))))
    /\ (enabled p (run cs initial) = false ->
          timers_of p (start p (run cs initial)) = []
          /\ calls_of p (elapse n (start p (run cs initial)))
             = calls_of p (run cs initial))
    /\ calls_of p (elapse n (stop p (start p (run cs initial))))
       = calls_of p (run cs initial)
    /\ (exists later : list (Z * Poller),
          calls (showServiceLogs between (run cs initial))
          = calls (run cs initial)
            ++ (now (run cs initial), ServiceLogs) :: later)
    /\ calls (on_live_change p true (run cs initial))
       = calls (run cs initial) ++ [(now (run cs initial), p)]
    /\ calls (switchTab_logs (run cs initial))
       = calls (run cs initial) ++ [(now (run cs initial), SupervisorLogs)]
    /\ calls (runSecurityScan (run cs initial)) = calls (run cs initial).
Proof.
  intros cs between p n.
  pose proof (consistent_run cs initial consistent_initial) as Hc.
  set (w := run cs initial) in *.
  repeat match goal with |- _ /\ _ => split end.
  - apply calls_start.
  - reflexivity.
  - intros He. pose proof (timers_of_start p w Hc He) as Ht.
    split; [eexists; exact Ht|].
    rewrite <- (now_start p w) in Ht.
    destruct (elapse_periodic p _ _ _ n (intervalMs_pos p) Ht) as [_ E].
    rewrite E. unfold calls_of. now rewrite calls_start, now_start.
  - intros He.
    assert (Es : start p w = stop p w).
    { rewrite start_unfold, enabled_stop, He. reflexivity. }
    rewrite Es. destruct (consistent_stop p w Hc) as [Hs Hv].
    pose proof (proj2 (owned_nil p _ Hs) Hv) as Ht.
    split; [exact Ht|].
    destruct (elapse_idle p n _ Ht) as [_ E].
    rewrite E. unfold calls_of. now rewrite calls_stop.
  - destruct (consistent_stop p _ (consistent_start p w Hc)) as [Hs Hv].
    destruct (elapse_idle p n _ (proj2 (owned_nil p _ Hs) Hv)) as [_ E].
    rewrite E. unfold calls_of. now rewrite calls_stop, calls_start.
  - unfold showServiceLogs, startLogsInterval. rewrite calls_start.
    destruct (calls_run_prefix between
                (invoke ServiceLogs (setLive ServiceLogs true w))) as (l & E).
    exists l. rewrite E. cbn [invoke calls now]. now rewrite <- app_assoc.
  - unfold on_live_change, invoke. cbn [calls now].
    rewrite calls_start, now_start. now destruct p.
  - unfold switchTab_logs, startSupervisorLogsInterval. rewrite calls_start.
    reflexivity.
  - apply calls_start.
Qed.

Lemma start_security_poll_example :
  calls (start SecurityScan initial) = []
  /\ calls_of SecurityScan (elapse 4500 (start SecurityScan initial))
     = [2000; 4000]
  /\ calls_of SecurityScan
       (elapse 4500 (stop SecurityScan (start SecurityScan initial))) = [].
Proof.
  destruct (start_schedules_and_does_not_call [] [] SecurityScan 4500)
    as (H1 & _ & H3 & _ & H4 & _).
  destruct (H3 eq_refl) as [_ H3'].
  split; [exact H1|]. split; [etransitivity; [exact H3'|reflexivity]|exact H4].
Defined.

(** Claim C3 fails: starting the security poll on a fresh page calls its
    tick function neither at once nor within the next 1999 ms; the first
    call comes at 2000 ms. And a start does not always schedule: with the
    live box of the supervisor logs unticked, [startSupervisorLogsInterval]
    sets no timer, and five seconds later no call has been made. *)
Lemma start_makes_no_immediate_call :
  calls (runSecurityScan initial) = []
  /\ calls_of SecurityScan (elapse 1999 (runSecurityScan initial)) = []
  /\ calls_of SecurityScan (elapse 2000 (runSecurityScan initial)) = [2000]
  /\ timers (startSupervisorLogsInterval
               (setLive SupervisorLogs false initial)) = []
  /\ calls (elapse 5000 (startSupervisorLogsInterval
                           (setLive SupervisorLogs false initial))) = [].
Proof.
  repeat match goal with |- _ /\ _ => split end; vm_compute; reflexivity.
Qed.

End PollerFacts.

(** ** The log viewers *)

Section LogViewFacts.
Import LogView.

Lemma atEdge_distance (a : Anchor) (v : Viewport) :
  atEdge a v = (distance a v <? 50).
Proof. now destruct a. Qed.

Lemma box_refresh (a : Anchor) (height : Z) (s : Viewer) :
  box (refresh a height s)
  = if followMode s || atEdge a (box s)
    then scroll_to_edge a (replace_content height (box s))
    else replace_content height (box s).
Proof. destruct a; reflexivity. Qed.

(** Claim C4, as the code has it. A refresh reads whether the box is at its
    edge before it replaces the content. Then, if follow mode is on or the
    box was at the edge, the box ends at the edge (at distance 0: the bottom
    for service logs, the top for supervisor logs); otherwise the scroll
    offset is the one it was, only pulled back into the new range where the
    content got shorter: no offset is computed from the new height. For
    the supervisor logs the edge test is the one made before the request,
    and the flag the one at its return. *)
Theorem render_follows_edge_or_keeps_raw_offset :
  forall (a : Anchor) (height : Z) (s : Viewer),
    0 <= clientHeight (box s) ->
    (followMode s || atEdge a (box s) = true ->
       distance a (box (refresh a height s)) = 0)
    /\ (followMode s || atEdge a (box s) = false ->
          scrollTop (box (refresh a height s))
          = Z.max 0 (Z.min (scrollTop (box s))
                       (Z.max 0 (Z.max height (clientHeight (box s))
                                 - clientHeight (box s)))))
    /\ (followMode s || atEdge a (box s) = false ->
          0 <= scrollTop (box s) <= height - clientHeight (box s) ->
          scrollTop (box (refresh a height s)) = scrollTop (box s))
    /\ (forall during : Viewer -> Viewer,
          box (loadSupervisorLogs during height s)
          = if followMode (during s) || atTop (box s)
            then scroll_to_edge AnchorStart
                   (replace_content height (box (during s)))
            else replace_content height (box (during s))).
Proof.
  intros a height s Hch. rewrite box_refresh.
  repeat match goal with |- _ /\ _ => split end.
  - intros ->. destruct a; cbn; unfold maxScrollTop; cbn; lia.
  - intros ->. reflexivity.
  - intros -> H. cbn. unfold maxScrollTop. cbn. lia.
  - reflexivity.
Qed.

Lemma refresh_keeps_offset_example :
  0 <= clientHeight (box reading)
  /\ scrollTop (box (refresh AnchorEnd 1200 reading)) = scrollTop (box reading).
Proof.
  destruct (render_follows_edge_or_keeps_raw_offset AnchorEnd 1200 reading)
    as (_ & _ & H & _); [cbn; lia|].
  split; [cbn; lia|]. apply H; [reflexivity|cbn; lia].
Defined.

(** Claim C4 fails in its last clause: a reader 300 pixels down, not in
    follow mode and not at the edge, is left at offset 300 when the content
    grows from 1000 to 1200 pixels, in either viewer; in the newest-first
    supervisor view the line that was at the top of the box is then 200
    pixels further down. *)
Lemma refresh_leaves_raw_offset :
  followMode reading = false
  /\ atEdge AnchorStart (box reading) = false
  /\ atEdge AnchorEnd (box reading) = false
  /\ scrollHeight (box reading) = 1000
  /\ scrollHeight (box (refresh AnchorStart 1200 reading)) = 1200
  /\ scrollTop (box (refresh AnchorStart 1200 reading)) = scrollTop (box reading)
  /\ scrollTop (box (refresh AnchorEnd 1200 reading)) = scrollTop (box reading).
Proof. repeat match goal with |- _ /\ _ => split end; reflexivity. Qed.

(** Claim C5, as the code has it. Follow mode starts on. Every scroll sets
    it anew: on when the box is less than 50 pixels from the edge, off when
    it is 50 pixels or more away; so scrolling back to the edge turns it on
    again. Ticking the live box turns it on, unticking leaves it as it is,
    and a refresh leaves it as it is. *)
Theorem followMode_tracks_every_scroll :
  forall (a : Anchor) (s : Viewer) (v : Viewport) (y height : Z),
    followMode (opened v) = true
    /\ followMode (user_scrolls a y s)
       = (distance a (set_scrollTop y (box s)) <? 50)
    /\ followMode (on_live_change true s) = true
    /\ followMode (on_live_change false s) = followMode s
    /\ followMode (refresh a height s) = followMode s.
Proof.
  intros a s v y height. repeat match goal with |- _ /\ _ => split end;
    try reflexivity.
  - unfold followMode, user_scrolls, on_scroll. cbn [userScrolled box].
    rewrite negb_involutive. apply atEdge_distance.
  - now destruct a.
Qed.
(** Claim C5 fails twice: a scroll to exactly 50 pixels from the end turns
    follow mode off, and after scrolling away, scrolling back to the end
    turns follow mode on again with no use of the live box. *)
Lemma scrolling_back_turns_follow_on :
  distance AnchorEnd (box (user_scrolls AnchorEnd 750 (opened reading_box))) = 50
  /\ followMode (user_scrolls AnchorEnd 750 (opened reading_box)) = false
  /\ followMode (user_scrolls AnchorEnd 300 (opened reading_box)) = false
  /\ followMode
       (user_scrolls AnchorEnd 800
          (user_scrolls AnchorEnd 300 (opened reading_box))) = true.
Proof. repeat match goal with |- _ /\ _ => split end; reflexivity. Qed.

End LogViewFacts.

(** *** The order of Numbers *)

Section NumberOrder.
Import Js Chart.











(** *** Math.max *)




Lemma max2_nan_l (b : Number) : max2 PrimFloat.nan b = PrimFloat.nan.
Proof. reflexivity. Qed.

Lemma max2_nan_r (a b : Number) :
  PrimFloat.is_nan b = true -> max2 a b = PrimFloat.nan.
Proof. intros H. unfold max2. rewrite H. now rewrite Bool.orb_true_r. Qed.

Lemma fold_max2_nan (xs : list Number) :
  fold_left max2 xs PrimFloat.nan = PrimFloat.nan.
Proof. induction xs as [|x xs IH]; [reflexivity|]. cbn [fold_left]. now rewrite max2_nan_l. Qed.

Lemma Math_max_nan (xs : list Number) :
  existsb PrimFloat.is_nan xs = true -> Math_max xs = PrimFloat.nan.
Proof.
  unfold Math_max. generalize PrimFloat.neg_infinity.
  induction xs as [|x xs IH]; intros acc; [discriminate|].
  cbn [existsb fold_left]. destruct (PrimFloat.is_nan x) eqn:E.
  - intros _. rewrite (max2_nan_r acc x E). apply fold_max2_nan.
  - cbn. apply IH.
Qed.

Lemma vertical_scale_nan (data : list Sample) :
  existsb (fun d => PrimFloat.is_nan (ToNumber d)) data = true ->
  vertical_scale data = 1%float.
Proof.
  intros H. unfold vertical_scale. rewrite Math_max_nan; [reflexivity|].
  rewrite <- H. clear H. induction data as [|d data IH]; [reflexivity|].
  cbn [map existsb]. now rewrite IH.
Qed.

End NumberOrder.

(** ** The chart *)

Section ChartFacts.
Import Js Chart.

Lemma steady_fixed (tz minTime maxTime : Z) :
  steady (fixed tz) tz minTime maxTime.
Proof. intros t isUTC _. reflexivity. Qed.

Lemma steady_LocalTime (zone : Zone) (tz minTime maxTime t : Z) :
  steady zone tz minTime maxTime ->
  minTime - msPerHour <= t <= maxTime + msPerHour ->
  LocalTime zone t = t + tz.
Proof. intros Hs Ht. unfold LocalTime. now rewrite (Hs t true Ht). Qed.

Lemma steady_UTC (zone : Zone) (tz minTime maxTime t : Z) :
  steady zone tz minTime maxTime ->
  minTime - msPerHour <= t - tz <= maxTime + msPerHour ->
  UTC zone t = t - tz.
Proof. intros Hs Ht. unfold UTC. now rewrite (Hs t false Ht). Qed.

(** Where the offset is steady, the next hour of the local clock is an
    hour later. *)
Lemma steady_nextHour (zone : Zone) (tz minTime maxTime h : Z) :
  steady zone tz minTime maxTime ->
  minTime - msPerHour <= h <= maxTime ->
  nextHour zone h = h + msPerHour.
Proof.
  intros Hs Hh. unfold nextHour.
  rewrite (steady_LocalTime zone tz minTime maxTime) by (assumption || unfold msPerHour in *; lia).
  rewrite (steady_UTC zone tz minTime maxTime) by (assumption || unfold msPerHour in *; lia).
  lia.
Qed.

Lemma steady_getHours (zone : Zone) (tz minTime maxTime t : Z) :
  steady zone tz minTime maxTime ->
  minTime - msPerHour <= t <= maxTime + msPerHour ->
  getHours zone t = ((t + tz) / msPerHour) mod 24.
Proof.
  intros Hs Ht. unfold getHours.
  now rewrite (steady_LocalTime zone tz minTime maxTime).
Qed.

Lemma firstHour_eq (zone : Zone) (tz minTime maxTime : Z) :
  steady zone tz minTime maxTime -> minTime <= maxTime ->
  firstHour zone minTime = ((minTime + tz) / msPerHour + 1) * msPerHour - tz.
Proof.
  intros Hs Hle. unfold firstHour, setMinutes0.
  rewrite (steady_LocalTime zone tz minTime maxTime)
    by (assumption || unfold msPerHour in *; lia).
  pose proof (Z.div_mod (minTime + tz) msPerHour ltac:(discriminate)) as E.
  pose proof (Z.mod_pos_bound (minTime + tz) msPerHour ltac:(reflexivity)) as B.
  set (q := (minTime + tz) / msPerHour) in *.
  rewrite (steady_UTC zone tz minTime maxTime)
    by (assumption || unfold msPerHour in *; lia).
  replace (q * msPerHour - tz <=? minTime) with true
    by (symmetry; apply Z.leb_le; unfold msPerHour in *; lia).
  rewrite (steady_nextHour zone tz minTime maxTime)
    by (assumption || unfold msPerHour in *; lia).
  lia.
Qed.

Lemma firstHour_spec (zone : Zone) (tz minTime maxTime : Z) :
  steady zone tz minTime maxTime -> minTime <= maxTime ->
  minTime < firstHour zone minTime <= minTime + msPerHour
  /\ (firstHour zone minTime + tz) mod msPerHour = 0.
Proof.
  intros Hs Hle. rewrite (firstHour_eq zone tz minTime maxTime) by assumption.
  pose proof (Z.div_mod (minTime + tz) msPerHour ltac:(discriminate)) as E.
  pose proof (Z.mod_pos_bound (minTime + tz) msPerHour ltac:(reflexivity)) as B.
  set (q := (minTime + tz) / msPerHour) in *.
  split; [unfold msPerHour in *; lia|].
  replace ((q + 1) * msPerHour - tz + tz) with ((q + 1) * msPerHour) by lia.
  apply Z.mod_mul. discriminate.
Qed.

Lemma hour_loop_In (zone : Zone) (fuel : nat) (hour maxTime t : Z) :
  (forall h, hour <= h <= maxTime -> nextHour zone h = h + msPerHour) ->
  In t (hour_loop zone fuel hour maxTime)
  <-> exists k : Z, 0 <= k < Z.of_nat fuel /\ t = hour + k * msPerHour /\ t <= maxTime.
Proof.
  revert hour. induction fuel as [|fuel IH]; intros hour Hn.
  - cbn. split; [tauto|]. intros (k & Hk & _). lia.
  - cbn [hour_loop]. destruct (hour <=? maxTime) eqn:E.
    + apply Z.leb_le in E. cbn [In]. rewrite (Hn hour) by lia.
      rewrite IH by (intros h Hh; apply Hn; unfold msPerHour in *; lia).
      split.
      * intros [<-|(k & Hk & -> & Hle)].
        -- exists 0. lia.
        -- exists (k + 1). lia.
      * intros (k & Hk & -> & Hle).
        destruct (Z.eq_dec k 0) as [->|Hne]; [left; lia|].
        right. exists (k - 1). lia.
    + apply Z.leb_gt in E. cbn. split; [tauto|].
      intros (k & Hk & -> & Hle). unfold msPerHour in *. lia.
Qed.

Lemma hour_clock_In (zone : Zone) (tz minTime maxTime t : Z) :
  steady zone tz minTime maxTime -> minTime <= maxTime ->
  In t (hour_clock zone minTime maxTime)
  <-> minTime < t <= maxTime /\ (t + tz) mod msPerHour = 0.
Proof.
  intros Hs Hmm. unfold hour_clock.
  destruct (firstHour_spec zone tz minTime maxTime Hs Hmm) as [Hb Hm].
  set (first := firstHour zone minTime) in *.
  rewrite hour_loop_In.
  2:{ intros h Hh. apply (steady_nextHour zone tz minTime maxTime); [assumption|].
      unfold msPerHour in *. lia. }
  split.
  - intros (k & Hk & -> & Hle). split; [unfold msPerHour in *; lia|].
    replace (first + k * msPerHour + tz) with (first + tz + k * msPerHour) by lia.
    now rewrite Z.mod_add by discriminate.
  - intros [[Hlo Hhi] Ht].
    apply Z.mod_divide in Hm; [|discriminate].
    apply Z.mod_divide in Ht; [|discriminate].
    destruct Hm as [qf Hqf], Ht as [qt Hqt].
    exists (qt - qf).
    assert (Hq : qf <= qt) by (unfold msPerHour in *; lia).
    assert (Et : t = first + (qt - qf) * msPerHour) by lia.
    split; [|split; [exact Et|exact Hhi]].
    split; [lia|].
    assert (Hdiv : qt - qf <= (maxTime - first) / msPerHour).
    { apply Z.div_le_lower_bound; [reflexivity|]. lia. }
    lia.
Qed.

Lemma hour_loop_step (zone : Zone) (fuel : nat) (hour maxTime : Z) :
  (forall h, hour <= h <= maxTime -> nextHour zone h = h + msPerHour) ->
  forall i t, nth_error (hour_loop zone fuel hour maxTime) i = Some t ->
              t = hour + Z.of_nat i * msPerHour.
Proof.
  revert hour. induction fuel as [|fuel IH]; intros hour Hn i t.
  - destruct i; discriminate.
  - cbn [hour_loop]. destruct (hour <=? maxTime) eqn:E;
      [|destruct i; discriminate].
    apply Z.leb_le in E.
    destruct i as [|i]; cbn [nth_error].
    + intros [= <-]. lia.
    + intros H. rewrite (Hn hour) in H by lia. apply IH in H; [lia|].
      intros h Hh. apply Hn. unfold msPerHour in *. lia.
Qed.

Lemma somes_In {A : Type} (l : list (option A)) (a : A) :
  In a (somes l) <-> In (Some a) l.
Proof.
  induction l as [|[b|] l IH]; cbn; [tauto| |].
  - rewrite IH. split; intros [H|H]; auto; left; congruence.
  - rewrite IH. split; [auto|]. intros [H|H]; [discriminate|auto].
Qed.









(** Claim C8, as the code has it. Where the offset of the time zone is
    steady over the span of the chart, the clock of the hour markers starts
    at the first local hour boundary strictly after the first timestamp (a
    first timestamp on the hour gets no marker), and takes every hour
    boundary from there up to the last timestamp, in order, an hour apart,
    each labelled with its local hour. In any zone a marker with its label
    is drawn for each clock value whose x lies within the plot. A span from
    09:15 to 10:45 has the single clock value 10:00, on any day and with
    any steady offset, and on a canvas 600 pixels wide its marker is drawn
    at x = 320. The clock is moved on by the hour of the local clock: in
    the night in which summer time ends, from 23:30 to 03:30 UTC, it takes
    the instants 00:00, 02:00 and 03:00 UTC, labelled 02:00, 03:00 and
    04:00, and passes over 01:00 UTC, when the local clock shows 02:00 for
    the second time. The offset of that zone is steady on every span that
    ends by 23:30 UTC of that night and on every span that starts at 03:30
    UTC or later. *)
Theorem hour_markers_after_first_timestamp :
  (forall (zone : Zone) (tz minTime maxTime : Z),
     steady zone tz minTime maxTime -> minTime <= maxTime ->
     (minTime < firstHour zone minTime <= minTime + msPerHour
      /\ (firstHour zone minTime + tz) mod msPerHour = 0)
     /\ (forall t : Z,
           In t (hour_clock zone minTime maxTime)
           <-> minTime < t <= maxTime /\ (t + tz) mod msPerHour = 0)
     /\ (forall (i : nat) (t : Z),
           nth_error (hour_clock zone minTime maxTime) i = Some t ->
           t = firstHour zone minTime + Z.of_nat i * msPerHour)
     /\ (forall t : Z,
           In t (hour_clock zone minTime maxTime) ->
           hour_label zone t
           = padStart0 2 (digits (((t + tz) / msPerHour) mod 24))
             ++ lit ":00"))
  /\ (forall (zone : Zone) (minTime maxTime : Z) (w plotW x : Number)
             (label : jsstring),
        minTime < maxTime ->
        (In (x, label) (hour_markers zone minTime maxTime w plotW)
         <-> exists t : Z,
               In t (hour_clock zone minTime maxTime)
               /\ x = x_of_time minTime maxTime plotW t
               /\ label = hour_label zone t
               /\ PrimFloat.leb pad_l x && PrimFloat.leb x (w - pad_r)%float = true))
  /\ (forall (zone : Zone) (tz d : Z),
        steady zone tz (d * msPerDay + 33300000 - tz)
          (d * msPerDay + 33300000 - tz + 5400000) ->
        hour_clock zone (d * msPerDay + 33300000 - tz)
          (d * msPerDay + 33300000 - tz + 5400000)
        = [d * msPerDay + 36000000 - tz]
        /\ hour_label zone (d * msPerDay + 36000000 - tz) = lit "10:00")
  /\ (forall tz minTime maxTime : Z, steady (fixed tz) tz minTime maxTime)
  /\ hour_markers (fixed 0) at_0915 at_1045 600%float 540%float
     = [(320%float, lit "10:00")]
  /\ (hour_clock central_europe_2023 night_2330 night_0330
      = [night_0000; night_0200; night_0300]
      /\ map (hour_label central_europe_2023)
           (hour_clock central_europe_2023 night_2330 night_0330)
         = [lit "02:00"; lit "03:00"; lit "04:00"]
      /\ getHours central_europe_2023 night_0100 = 2
      /\ hour_clock (fixed 3600000) night_2330 night_0330
         = [night_0000; night_0100; night_0200; night_0300])
  /\ (forall minTime : Z, steady central_europe_2023 7200000 minTime night_2330)
  /\ (forall maxTime : Z, steady central_europe_2023 3600000 night_0330 maxTime).
Proof.
  repeat match goal with |- _ /\ _ => split end.
  10,11: intros bound t isUTC Ht;
    unfold central_europe_2023, summer_time_end, night_2330, night_0330, msPerHour in *;
    destruct isUTC;
    repeat match goal with
           | |- context [?a <? ?b] => destruct (Z.ltb_spec a b)
           end; try reflexivity; lia.
  - intros zone tz minTime maxTime Hs Hmm.
    split; [now apply (firstHour_spec zone tz minTime maxTime)|].
    split; [intros t; now apply hour_clock_In|].
    split.
    + intros i t Hi. unfold hour_clock in Hi.
      apply hour_loop_step in Hi; [exact Hi|].
      intros h Hh. apply (steady_nextHour zone tz minTime maxTime); [assumption|].
      destruct (firstHour_spec zone tz minTime maxTime) as [Hb _]; try assumption.
      unfold msPerHour in *. lia.
    + intros t Hin. apply (hour_clock_In zone tz) in Hin; try assumption.
      unfold hour_label.
      rewrite (steady_getHours zone tz minTime maxTime);
        [reflexivity|assumption|unfold msPerHour; lia].
  - intros zone minTime maxTime w plotW x label Hlt. unfold hour_markers.
    apply Z.ltb_lt in Hlt. rewrite Hlt. rewrite somes_In, in_map_iff.
    unfold hour_marker. split.
    + intros (t & E & Hin). exists t.
      destruct (PrimFloat.leb pad_l (x_of_time minTime maxTime plotW t)
                && PrimFloat.leb (x_of_time minTime maxTime plotW t) (w - pad_r)) eqn:B;
        [|discriminate].
      injection E as <- <-. auto.
    + intros (t & Hin & -> & -> & B). exists t. now rewrite B.
  - intros zone tz d Hs.
    assert (Hq : (d * msPerDay + 33300000 - tz + tz) / msPerHour = d * 24 + 9).
    { symmetry. apply (Z.div_unique _ _ _ 900000); unfold msPerDay, msPerHour; lia. }
    assert (Hf : firstHour zone (d * msPerDay + 33300000 - tz)
                 = d * msPerDay + 36000000 - tz).
    { rewrite (firstHour_eq zone tz _ _ Hs) by lia. rewrite Hq.
      unfold msPerDay, msPerHour. lia. }
    split.
    + unfold hour_clock. rewrite Hf.
      replace (d * msPerDay + 33300000 - tz + 5400000 - (d * msPerDay + 36000000 - tz))
        with 2700000 by lia.
      change (Z.to_nat (2700000 / msPerHour + 1)) with 1%nat.
      cbn [hour_loop].
      replace (d * msPerDay + 36000000 - tz <=? d * msPerDay + 33300000 - tz + 5400000)
        with true by (symmetry; apply Z.leb_le; lia).
      reflexivity.
    + unfold hour_label.
      rewrite (steady_getHours zone tz _ _ _ Hs) by (unfold msPerHour; lia).
      replace ((d * msPerDay + 36000000 - tz + tz) / msPerHour) with (d * 24 + 10)
        by (apply (Z.div_unique _ _ _ 0); unfold msPerDay, msPerHour; lia).
      replace ((d * 24 + 10) mod 24) with 10
        by (apply (Z.mod_unique _ _ d); lia).
      reflexivity.
  - apply steady_fixed.
  - vm_compute. reflexivity.
  - vm_compute. reflexivity.
  - vm_compute. reflexivity.
  - vm_compute. reflexivity.
  - vm_compute. reflexivity.
Qed.

(** Claim C8 fails for a first timestamp on the hour: from 09:00 to 10:30
    the first hour boundary at or after the first timestamp is 09:00
    itself, and the clock starts at 10:00 and takes no other value. It
    fails, too, across a change of the offset: in the night in which summer
    time ends, from 23:30 to 03:30 UTC, the instant 01:00 UTC is an hour
    boundary of the local clock within the span, and the clock steps from
    00:00 UTC to 02:00 UTC, two hours later. *)
Lemma first_timestamp_on_the_hour_has_no_marker :
  (at_0900 + 0) mod msPerHour = 0
  /\ at_0900 <= at_1030
  /\ firstHour (fixed 0) at_0900 = at_1000
  /\ hour_clock (fixed 0) at_0900 at_1030 = [at_1000]
  /\ hour_markers (fixed 0) at_0900 at_1030 600%float 540%float
     = [(410%float, lit "10:00")]
  /\ night_2330 < night_0100 <= night_0330
  /\ LocalTime central_europe_2023 night_0100 mod msPerHour = 0
  /\ hour_clock central_europe_2023 night_2330 night_0330
     = [night_0000; night_0200; night_0300]
  /\ night_0200 = night_0000 + 2 * msPerHour.
Proof.
  repeat match goal with |- _ /\ _ => split end;
    try (vm_compute; reflexivity).
  all: vm_compute; discriminate.
Qed.

(** Claim C9 at a failing input: the CPU chart of three records of which
    the second has no [cpu_percent]. The scale is 1 (with the missing value
    read as 0 it would be 10 * 1.1) and the second point of the line has a
    NaN [y]. The disk chart of the same records, whose values go through
    [|| 0], has the scale 10 * 1.1 and no NaN. *)
Theorem missing_cpu_sample_draws_NaN :
  match refreshMetrics (fixed 0) 624 150 example_metrics with
  | (Some (Plotted cpu), _, Some (Plotted disk)) =>
      scale cpu = 1%float
      /\ map is_NaN_point (line cpu) = [false; true; false]
      /\ scale disk = (10 * 1.1)%float
      /\ map is_NaN_point (line disk) = [false; false; false]
  | _ => False
  end.
Proof. vm_compute. repeat split. Qed.

End ChartFacts.

Section MorePollerFacts.
Import Js Pollers Tabs.

Lemma filter_all {A : Type} (f : A -> bool) (l : list A) :
  (forall a, In a l -> f a = true) -> filter f l = l.
Proof.
  induction l as [|a l IH]; intros H; [reflexivity|].
  cbn. rewrite (H a (or_introl eq_refl)), IH; [reflexivity|].
  intros b Hb. apply H. now right.
Qed.

Lemma consistent_invoke (p : Poller) (w : Window) :
  consistent w -> consistent (invoke p w).
Proof.
  intros [Hf Hu Ho]. split; [exact Hf|exact Hu|].
  intros q. specialize (Ho q). now destruct q.
Qed.

Lemma timers_of_invoke (p q : Poller) (w : Window) :
  timers_of q (invoke p w) = timers_of q w.
Proof. reflexivity. Qed.

Lemma timers_of_setLive (p q : Poller) (b : bool) (w : Window) :
  timers_of q (setLive p b w) = timers_of q w.
Proof. now destruct p. Qed.

Lemma timers_of_stop_other (p q : Poller) (w : Window) :
  consistent w -> p <> q -> timers_of q (stop p w) = timers_of q w.
Proof.
  intros Hc Hpq. unfold stop. destruct (variable p w) as [h|] eqn:Ev; [|reflexivity].
  rewrite timers_of_assign. unfold timers_of, clearInterval. cbn.
  rewrite filter_filter_comm. apply filter_all. intros t Ht.
  fold (timers_of q w) in Ht.
  pose proof (owned w Hc q) as Ho.
  destruct (Pos.eqb (handle t) h) eqn:Eh; [|reflexivity].
  apply Pos.eqb_eq in Eh. exfalso. apply Hpq.
  apply (handles_distinct w p q h Hc Ev).
  assert (Hin : In (handle t) (map handle (timers_of q w))) by now apply in_map.
  rewrite Ho in Hin. destruct (variable q w) as [hq|] eqn:Eq; [|contradiction].
  destruct Hin as [E|[]]. congruence.
Qed.

Lemma variable_stop_other (p q : Poller) (w : Window) :
  p <> q -> variable q (stop p w) = variable q w.
Proof.
  intros Hpq. unfold stop. destruct (variable p w) as [h|]; [|reflexivity].
  rewrite variable_assign. unfold clearInterval. rewrite variable_with_timers.
  destruct (Poller_eqb p q) eqn:E; [|reflexivity].
  apply Poller_eqb_eq in E. contradiction.
Qed.

Lemma timers_of_start_other (p q : Poller) (w : Window) :
  consistent w -> p <> q -> timers_of q (start p w) = timers_of q w.
Proof.
  intros Hc Hpq. rewrite start_unfold.
  destruct (enabled p (stop p w)); [|now apply timers_of_stop_other].
  rewrite timers_of_assign, timers_of_app. cbn [callback].
  destruct (Poller_eqb p q) eqn:E; [apply Poller_eqb_eq in E; contradiction|].
  rewrite app_nil_r. fold (timers_of q (stop p w)).
  now apply timers_of_stop_other.
Qed.

Lemma variable_start_other (p q : Poller) (w : Window) :
  p <> q -> variable q (start p w) = variable q w.
Proof.
  intros Hpq. rewrite start_unfold.
  destruct (enabled p (stop p w)); [|now apply variable_stop_other].
  rewrite variable_assign.
  destruct (Poller_eqb p q) eqn:E; [apply Poller_eqb_eq in E; contradiction|].
  rewrite variable_with_timers. now apply variable_stop_other.
Qed.

(** Extra X1. On a consistent window, starting or stopping one poller
    leaves the live timers and the script variable of every other poller as
    they are. *)
Theorem start_and_stop_leave_other_pollers :
  forall (p q : Poller) (w : Window),
    consistent w -> p <> q ->
    timers_of q (start p w) = timers_of q w
    /\ timers_of q (stop p w) = timers_of q w
    /\ variable q (start p w) = variable q w
    /\ variable q (stop p w) = variable q w.
Proof.
  intros p q w Hc Hpq. repeat split.
  - now apply timers_of_start_other.
  - now apply timers_of_stop_other.
  - now apply variable_start_other.
  - now apply variable_stop_other.
Qed.

Lemma start_and_stop_leave_other_pollers_example :
  timers_of ServiceLogs
    (start SecurityScan (run [Start ServiceLogs; Elapse 10] initial))
  = timers_of ServiceLogs (run [Start ServiceLogs; Elapse 10] initial)
  /\ timers_of ServiceLogs
       (stop SecurityScan (run [Start ServiceLogs; Elapse 10] initial))
     = timers_of ServiceLogs (run [Start ServiceLogs; Elapse 10] initial)
  /\ variable ServiceLogs
       (start SecurityScan (run [Start ServiceLogs; Elapse 10] initial))
     = variable ServiceLogs (run [Start ServiceLogs; Elapse 10] initial)
  /\ variable ServiceLogs
       (stop SecurityScan (run [Start ServiceLogs; Elapse 10] initial))
     = variable ServiceLogs (run [Start ServiceLogs; Elapse 10] initial).
Proof.
  apply start_and_stop_leave_other_pollers.
  - apply consistent_run, consistent_initial.
  - discriminate.
Defined.

Lemma length_timers_of_start (p : Poller) (w : Window) :
  consistent w ->
  List.length (timers_of p (start p w)) = (if enabled p w then 1 else 0)%nat.
Proof.
  intros Hc. rewrite (owned_length p _ (consistent_start p w Hc)), variable_start.
  destruct (enabled p w); [reflexivity|].
  now rewrite (proj2 (consistent_stop p w Hc)).
Qed.

Lemma timers_of_stop_self (p : Poller) (w : Window) :
  consistent w -> timers_of p (stop p w) = [].
Proof.
  intros Hc. destruct (consistent_stop p w Hc) as [Hs Hv].
  now apply (owned_nil p _ Hs).
Qed.

(** Extra X2. [switchTab] with a plain name that names no tab panel
    throws before it reaches the pollers. With the name of a panel: switching to a
    tab other than the logs tab leaves no timer of the supervisor logs;
    switching to the logs tab calls [loadSupervisorLogs] once and leaves
    exactly one timer (none when the live box is unticked); and no switch
    touches the timers of the service logs or of the security poll. *)
Theorem switchTab_scopes_supervisor_logs :
  forall (tabs : list jsstring) (tab : jsstring) (w : Window),
    plain_name tab = true ->
    consistent w ->
    (existsb (str_eqb tab) tabs = false -> switchTab tabs tab w = None)
    /\ (existsb (str_eqb tab) tabs = true ->
          exists w' : Window,
            switchTab tabs tab w = Some w'
            /\ (str_eqb tab (lit "logs") = false ->
                  timers_of SupervisorLogs w' = []
                  /\ calls w' = calls w)
            /\ (str_eqb tab (lit "logs") = true ->
                  List.length (timers_of SupervisorLogs w')
                  = (if supervisorLogsLive w then 1 else 0)%nat
                  /\ calls w' = calls w ++ [(now w, SupervisorLogs)])
            /\ (forall q : Poller, q <> SupervisorLogs ->
                  timers_of q w' = timers_of q w)
            /\ consistent w').
Proof.
  intros tabs tab w _ Hc. unfold switchTab.
  destruct (existsb (str_eqb tab) tabs); split; try discriminate;
    [|reflexivity]. intros _.
  eexists. split; [reflexivity|].
  unfold startSupervisorLogsInterval, stopSupervisorLogsInterval.
  destruct (str_eqb tab (lit "logs")); cbn [negb].
  - split; [discriminate|]. split; [|split].
    + intros _. split.
      * rewrite length_timers_of_start by now apply consistent_invoke.
        reflexivity.
      * now rewrite calls_start.
    + intros q Hq. rewrite timers_of_start_other; auto.
      now apply consistent_invoke.
    + now apply consistent_start, consistent_invoke.
  - split; [|split; [discriminate|split]].
    + intros _. split; [now apply timers_of_stop_self|apply calls_stop].
    + intros q Hq. apply timers_of_stop_other; auto.
    + now apply consistent_stop.
Qed.

(** On a page with the tabs home, services, logs and cron, with the timer
    of the supervisor logs running: the logs tab, another tab, and a name
    that is no tab. *)
Lemma switchTab_example :
  plain_name (lit "logs") = true
  /\ plain_name (lit "cron") = true
  /\ plain_name (lit "settings") = true
  /\ consistent (run [Start SupervisorLogs] initial)
  /\ (exists w' : Window,
        switchTab [lit "home"; lit "services"; lit "logs"; lit "cron"]
          (lit "logs") (run [Start SupervisorLogs] initial) = Some w'
        /\ List.length (timers_of SupervisorLogs w') = 1%nat
        /\ calls w' = [(0, SupervisorLogs)])
  /\ (exists w' : Window,
        switchTab [lit "home"; lit "services"; lit "logs"; lit "cron"]
          (lit "cron") (run [Start SupervisorLogs] initial) = Some w'
        /\ timers_of SupervisorLogs w' = []
        /\ calls w' = [])
  /\ switchTab [lit "home"; lit "services"; lit "logs"; lit "cron"]
       (lit "settings") (run [Start SupervisorLogs] initial) = None.
Proof.
  assert (Hc : consistent (run [Start SupervisorLogs] initial))
    by apply consistent_run, consistent_initial.
  do 3 (split; [reflexivity|]).
  split; [exact Hc|]. split; [|split].
  - destruct (switchTab_scopes_supervisor_logs
                [lit "home"; lit "services"; lit "logs"; lit "cron"]
                (lit "logs") (run [Start SupervisorLogs] initial) eq_refl Hc)
      as [_ H].
    destruct (H eq_refl) as (w' & E & _ & Hl & _).
    exists w'. split; [exact E|]. exact (Hl eq_refl).
  - destruct (switchTab_scopes_supervisor_logs
                [lit "home"; lit "services"; lit "logs"; lit "cron"]
                (lit "cron") (run [Start SupervisorLogs] initial) eq_refl Hc)
      as [_ H].
    destruct (H eq_refl) as (w' & E & Hn & _).
    exists w'. split; [exact E|]. exact (Hn eq_refl).
  - destruct (switchTab_scopes_supervisor_logs
                [lit "home"; lit "services"; lit "logs"; lit "cron"]
                (lit "settings") (run [Start SupervisorLogs] initial) eq_refl Hc)
      as [H _].
    exact (H eq_refl).
Defined.

(** Extra X3. The change listener of a live box: ticking the box leaves
    exactly one timer of its poller and makes one refresh at once;
    unticking it leaves no timer and makes no refresh. Either way the
    timers of the other pollers stay. *)
Theorem live_box_decides_the_timer :
  forall (p : Poller) (checked : bool) (w : Window),
    consistent w ->
    List.length (timers_of p (on_live_change p checked w))
    = (if checked then 1 else 0)%nat
    /\ calls (on_live_change p checked w)
       = calls w ++ (if checked then [(now w, p)] else [])
    /\ (forall q : Poller, p <> q ->
          timers_of q (on_live_change p checked w) = timers_of q w).
Proof.
  intros p checked w Hc.
  pose proof (consistent_setLive p checked w Hc) as Hl.
  unfold on_live_change. destruct checked.
  - split; [|split].
    + rewrite timers_of_invoke, length_timers_of_start
        by now apply consistent_setLive.
      now destruct p.
    + cbn [invoke calls now]. rewrite calls_start, now_start. now destruct p.
    + intros q Hq. rewrite timers_of_invoke, timers_of_start_other
        by (auto; now apply consistent_setLive).
      apply timers_of_setLive.
  - split; [|split].
    + now rewrite timers_of_stop_self by now apply consistent_setLive.
    + rewrite calls_stop, app_nil_r. now destruct p.
    + intros q Hq. rewrite timers_of_stop_other
        by (auto; now apply consistent_setLive).
      apply timers_of_setLive.
Qed.

Lemma live_box_example :
  List.length
    (timers_of ServiceLogs
       (on_live_change ServiceLogs false (showServiceLogs [] initial)))
  = 0%nat
  /\ calls (on_live_change ServiceLogs false (showServiceLogs [] initial))
     = calls (showServiceLogs [] initial) ++ []
  /\ (forall q : Poller, ServiceLogs <> q ->
        timers_of q (on_live_change ServiceLogs false (showServiceLogs [] initial))
        = timers_of q (showServiceLogs [] initial)).
Proof.
  apply (live_box_decides_the_timer ServiceLogs false (showServiceLogs [] initial)).
  unfold showServiceLogs, startLogsInterval. cbn [run fold_left].
  apply consistent_start, consistent_invoke, consistent_setLive, consistent_initial.
Defined.

Lemma securityPollTick_cases (answer : option JsValue) (w : Window) :
  securityPollTick answer w
  = if ends_poll answer then stopSecurityPoll w else w.
Proof.
  unfold securityPollTick, ends_poll. destruct answer as [data|]; [|reflexivity].
  destruct (get data (lit "status")) as [status|]; [|reflexivity].
  destruct (get data (lit "result")) as [result|]; [|reflexivity].
  destruct (strict_eq_string status (lit "completed") && ToBoolean result);
    [reflexivity|].
  now destruct (strict_eq_string status (lit "failed")).
Qed.

(** Extra X4. A tick of the security poll ends the poll exactly when the
    answer has the status [failed], or the status [completed] and a truthy
    [result]: then no timer of the poll is left and no later call is made.
    On any other answer (a running scan, a completed one without a result,
    a body that is no object, a request that threw) the window is left as it
    is, timer included. *)
Theorem security_poll_ends_on_final_status :
  forall (answer : option JsValue) (w : Window) (n : nat),
    consistent w ->
    (ends_poll answer = true ->
       timers_of SecurityScan (securityPollTick answer w) = []
       /\ calls_of SecurityScan (elapse n (securityPollTick answer w))
          = calls_of SecurityScan w)
    /\ (ends_poll answer = false -> securityPollTick answer w = w)
    /\ ends_poll answer
       = match answer with
         | Some (JObject properties) =>
             let status := match lookup (lit "status") properties with
                           | Some v => v | None => JUndefined end in
             let result := match lookup (lit "result") properties with
                           | Some v => v | None => JUndefined end in
             (strict_eq_string status (lit "completed") && ToBoolean result)
             || strict_eq_string status (lit "failed")
         | _ => false
         end.
Proof.
  intros answer w n Hc. rewrite securityPollTick_cases.
  split; [|split].
  - intros ->. unfold stopSecurityPoll.
    pose proof (timers_of_stop_self SecurityScan w Hc) as Ht.
    split; [exact Ht|].
    destruct (elapse_idle SecurityScan n _ Ht) as [_ E]. rewrite E.
    unfold calls_of. now rewrite calls_stop.
  - now intros ->.
  - destruct answer as [[| | | | | |]|]; reflexivity.
Qed.

Lemma security_poll_example :
  (ends_poll (JSON_parse (Chat.json "{'status':'failed','error':'boom'}")) = true ->
     timers_of SecurityScan
       (securityPollTick
          (JSON_parse (Chat.json "{'status':'failed','error':'boom'}"))
          (runSecurityScan initial)) = []
     /\ calls_of SecurityScan
          (elapse 5000
             (securityPollTick
                (JSON_parse (Chat.json "{'status':'failed','error':'boom'}"))
                (runSecurityScan initial)))
        = calls_of SecurityScan (runSecurityScan initial))
  /\ ends_poll (JSON_parse (Chat.json "{'status':'failed','error':'boom'}")) = true.
Proof.
  destruct (security_poll_ends_on_final_status
              (JSON_parse (Chat.json "{'status':'failed','error':'boom'}"))
              (runSecurityScan initial) 5000) as (H & _ & _).
  - unfold runSecurityScan, startSecurityPoll.
    apply consistent_start, consistent_initial.
  - split; [exact H|]. vm_compute. reflexivity.
Defined.

End MorePollerFacts.

Section MoreLogViewFacts.
Import LogView.

Lemma distance_after_follow (a : Anchor) (height : Z) (s : Viewer) :
  0 <= clientHeight (box s) ->
  followMode s || atEdge a (box s) = true ->
  distance a (box (refresh a height s)) = 0.
Proof.
  intros Hch H. rewrite box_refresh, H.
  destruct a; cbn; unfold maxScrollTop; cbn; lia.
Qed.

(** Extra X5. A refresh made in follow mode, or with the box at its edge,
    ends with the box at the edge; so the scroll event that the refresh
    itself causes leaves follow mode on (and turns it on for a reader who
    was at the edge). In the service logs, a reader whose offset the new,
    shorter content no longer reaches lands at the end, and the scroll
    event then turns follow mode on. *)
Theorem refresh_in_follow_mode_keeps_following :
  forall (a : Anchor) (height : Z) (s : Viewer),
    0 <= clientHeight (box s) ->
    (followMode s || atEdge a (box s) = true ->
       followMode (on_scroll a (refresh a height s)) = true)
    /\ (height - clientHeight (box s) <= scrollTop (box s) ->
          followMode (on_scroll AnchorEnd (refresh AnchorEnd height s)) = true).
Proof.
  intros a height s Hch. split.
  - intros H. unfold followMode, on_scroll. cbn [userScrolled box].
    rewrite negb_involutive, atEdge_distance.
    rewrite distance_after_follow by assumption. reflexivity.
  - intros H. unfold followMode, on_scroll. cbn [userScrolled box].
    rewrite negb_involutive, atEdge_distance, box_refresh.
    apply Z.ltb_lt.
    destruct (followMode s || atEdge AnchorEnd (box s));
      cbn; unfold maxScrollTop; cbn; lia.
Qed.

Lemma refresh_in_follow_mode_example :
  (followMode (opened reading_box) || atEdge AnchorEnd (box (opened reading_box)) = true ->
     followMode (on_scroll AnchorEnd (refresh AnchorEnd 1500 (opened reading_box))) = true)
  /\ (1500 - clientHeight (box (opened reading_box)) <= scrollTop (box (opened reading_box)) ->
        followMode (on_scroll AnchorEnd (refresh AnchorEnd 1500 (opened reading_box))) = true).
Proof.
  apply refresh_in_follow_mode_keeps_following. cbn. lia.
Defined.

End MoreLogViewFacts.

Section MoreCoreFacts.
Import Js Core Markup.

Lemma serialize_text_cons (c : N) (s : jsstring) :
  serialize_text (c :: s) = escape_unit c ++ serialize_text s.
Proof. reflexivity. Qed.

Lemma escape_unit_plain (c : N) : special c = false -> escape_unit c = [c].
Proof.
  unfold special, escape_unit. intros H.
  destruct (N.eqb c AMP), (N.eqb c NBSP), (N.eqb c LT), (N.eqb c GT);
    try discriminate; reflexivity.
Qed.

Lemma escape_unit_special (c : N) :
  special c = true -> exists e, escape_unit c = AMP :: e /\ (3 <= List.length e)%nat.
Proof.
  unfold special, escape_unit. intros H.
  destruct (N.eqb c AMP); [eexists; split; [reflexivity|cbn; lia]|].
  destruct (N.eqb c NBSP); [eexists; split; [reflexivity|cbn; lia]|].
  destruct (N.eqb c LT); [eexists; split; [reflexivity|cbn; lia]|].
  destruct (N.eqb c GT); [eexists; split; [reflexivity|cbn; lia]|].
  discriminate.
Qed.

Lemma special_AMP : special AMP = true.
Proof. reflexivity. Qed.

Lemma serialize_text_length (s : jsstring) :
  (List.length s <= List.length (serialize_text s))%nat.
Proof.
  induction s as [|c s IH]; [cbn; lia|].
  rewrite serialize_text_cons, length_app. cbn [List.length].
  destruct (special c) eqn:E.
  - destruct (escape_unit_special c E) as (e & -> & He). cbn [List.length]. lia.
  - rewrite (escape_unit_plain c E). cbn [List.length]. lia.
Qed.

Lemma escape_unit_inj (c1 c2 : N) (r1 r2 : jsstring) :
  escape_unit c1 ++ r1 = escape_unit c2 ++ r2 -> c1 = c2 /\ r1 = r2.
Proof.
  unfold escape_unit.
  destruct (N.eqb c1 AMP) eqn:A1; [apply N.eqb_eq in A1|apply N.eqb_neq in A1];
  (destruct (N.eqb c1 NBSP) eqn:B1; [apply N.eqb_eq in B1|apply N.eqb_neq in B1]);
  (destruct (N.eqb c1 LT) eqn:L1; [apply N.eqb_eq in L1|apply N.eqb_neq in L1]);
  (destruct (N.eqb c1 GT) eqn:G1; [apply N.eqb_eq in G1|apply N.eqb_neq in G1]);
  (destruct (N.eqb c2 AMP) eqn:A2; [apply N.eqb_eq in A2|apply N.eqb_neq in A2]);
  (destruct (N.eqb c2 NBSP) eqn:B2; [apply N.eqb_eq in B2|apply N.eqb_neq in B2]);
  (destruct (N.eqb c2 LT) eqn:L2; [apply N.eqb_eq in L2|apply N.eqb_neq in L2]);
  (destruct (N.eqb c2 GT) eqn:G2; [apply N.eqb_eq in G2|apply N.eqb_neq in G2]);
  cbn; intros H; try (injection H as H; try discriminate);
  subst; try discriminate; unfold AMP, NBSP, LT, GT in *;
  try (split; congruence); try congruence.
Qed.

Lemma serialize_text_inj (s1 s2 : jsstring) :
  serialize_text s1 = serialize_text s2 -> s1 = s2.
Proof.
  revert s2. induction s1 as [|c1 s1 IH]; intros [|c2 s2] H.
  - reflexivity.
  - exfalso. rewrite serialize_text_cons in H. cbn in H.
    destruct (special c2) eqn:E.
    + destruct (escape_unit_special c2 E) as (e & E' & _). rewrite E' in H.
      discriminate.
    + rewrite (escape_unit_plain c2 E) in H. discriminate.
  - exfalso. rewrite serialize_text_cons in H. cbn in H.
    destruct (special c1) eqn:E.
    + destruct (escape_unit_special c1 E) as (e & E' & _). rewrite E' in H.
      discriminate.
    + rewrite (escape_unit_plain c1 E) in H. discriminate.
  - rewrite !serialize_text_cons in H.
    apply escape_unit_inj in H. destruct H as [-> H]. f_equal. now apply IH.
Qed.

Lemma escapeHtml_string (s : jsstring) : escapeHtml (JString s) = serialize_text s.
Proof. now destruct s. Qed.

(** Extra X6. [escapeHtml] maps different strings to different markup: no
    two texts are rendered alike. *)
Theorem escapeHtml_is_injective_on_strings :
  forall s1 s2 : jsstring,
    escapeHtml (JString s1) = escapeHtml (JString s2) -> s1 = s2.
Proof.
  intros s1 s2. rewrite !escapeHtml_string. apply serialize_text_inj.
Qed.

Lemma escapeHtml_is_injective_example :
  lit "a<b" = lit "a<b".
Proof.
  apply escapeHtml_is_injective_on_strings. reflexivity.
Defined.

Lemma serialize_text_plain (s : jsstring) :
  forallb (fun c => negb (special c)) s = true -> serialize_text s = s.
Proof.
  induction s as [|c s IH]; [reflexivity|]. cbn [forallb]. intros H.
  apply andb_true_iff in H. destruct H as [Hc Hs].
  apply negb_true_iff in Hc.
  rewrite serialize_text_cons, (escape_unit_plain c Hc), IH by assumption.
  reflexivity.
Qed.

(** Extra X7. [escapeHtml] returns a string unchanged exactly when the
    string holds none of [&], [<], [>] and U+00A0; both quote characters
    are among the code units it leaves alone. The result is never shorter
    than the string. *)
Theorem escapeHtml_changes_only_special_units :
  forall s : jsstring,
    (escapeHtml (JString s) = s
     <-> forallb (fun c => negb (special c)) s = true)
    /\ (List.length s <= List.length (escapeHtml (JString s)))%nat
    /\ special 34 = false /\ special 39 = false.
Proof.
  intros s. rewrite escapeHtml_string.
  split; [|split; [apply serialize_text_length|split; reflexivity]].
  split; [|apply serialize_text_plain].
  induction s as [|c s IH]; [reflexivity|].
  rewrite serialize_text_cons. cbn [forallb]. intros H.
  destruct (special c) eqn:E.
  - exfalso. destruct (escape_unit_special c E) as (e & E' & He).
    rewrite E' in H. cbn in H. injection H as Hc H.
    pose proof (serialize_text_length s) as Hl.
    apply (f_equal (@List.length N)) in H. rewrite length_app in H. lia.
  - rewrite (escape_unit_plain c E) in H. cbn in H. injection H as H.
    cbn. now apply IH.
Qed.

End MoreCoreFacts.

Section MarkupFacts.
Import Js Core Markup.

Lemma tagged_app (tags : list jsstring) (a b : jsstring) :
  tagged tags a -> tagged tags b -> tagged tags (a ++ b).
Proof.
  induction 1 as [|c s Hc Hs IH|t s Ht Hs IH]; intros Hb; cbn.
  - exact Hb.
  - apply tagged_text; auto.
  - rewrite <- app_assoc. apply tagged_tag; auto.
Qed.

Lemma tagged_mono (tags tags' : list jsstring) (s : jsstring) :
  incl tags tags' -> tagged tags s -> tagged tags' s.
Proof.
  intros Hi. induction 1 as [|c s Hc Hs IH|t s Ht Hs IH].
  - constructor.
  - now apply tagged_text.
  - apply tagged_tag; auto.
Qed.

Lemma tagged_plain (tags : list jsstring) (s : jsstring) :
  ~ In LT s -> tagged tags s.
Proof.
  induction s as [|c s IH]; intros H; [constructor|].
  apply tagged_text.
  - intros ->. apply H. now left.
  - apply IH. intros Hin. apply H. now right.
Qed.

Lemma startsWith_true (p s : jsstring) :
  startsWith p s = true -> s = p ++ skipn (List.length p) s.
Proof.
  revert s. induction p as [|c p IH]; intros s H; [reflexivity|].
  destruct s as [|d s]; [discriminate|]. cbn in H.
  apply andb_true_iff in H. destruct H as [Hc Hp].
  apply N.eqb_eq in Hc. subst d. cbn. f_equal. now apply IH.
Qed.

Lemma span_not_spec (dc : N) (s : jsstring) :
  s = fst (span_not dc s) ++ snd (span_not dc s)
  /\ ~ In dc (fst (span_not dc s)).
Proof.
  induction s as [|c s [IHe IHn]]; cbn; [split; [reflexivity|tauto]|].
  destruct (N.eqb c dc) eqn:E; cbn; [split; [reflexivity|tauto]|].
  destruct (span_not dc s) as [run rest]. cbn in *. split; [now f_equal|].
  apply N.eqb_neq in E. intros [H|H]; [congruence|tauto].
Qed.

(** What a match is: the text is [delim], the capture, [delim] and a rest;
    the capture is not empty and holds no [dc]. *)
Lemma match_at_spec (delim : jsstring) (dc : N) (s run : jsstring) :
  match_at delim dc s = Some run ->
  exists rest,
    s = delim ++ run ++ delim ++ rest /\ run <> [] /\ ~ In dc run.
Proof.
  unfold match_at. destruct (startsWith delim s) eqn:Es; [|discriminate].
  pose proof (span_not_spec dc (skipn (List.length delim) s)) as [He Hn].
  destruct (span_not dc (skipn (List.length delim) s)) as [r rest]. cbn in He, Hn.
  destruct r as [|c r]; [discriminate|].
  destruct (startsWith delim rest) eqn:Er; [|discriminate].
  intros [= <-]. exists (skipn (List.length delim) rest).
  split; [|split; [discriminate|exact Hn]].
  rewrite (startsWith_true _ _ Es) at 1. f_equal. rewrite He.
  f_equal. now apply startsWith_true.
Qed.

Lemma replace_from_skip (delim : jsstring) (dc : N) (o c : jsstring)
  (k : nat) (s : jsstring) :
  replace_from delim dc o c k s = replace_from delim dc o c 0 (skipn k s).
Proof.
  revert k. induction s as [|x s IH]; intros k.
  - now destruct k.
  - destruct k as [|k]; [reflexivity|]. cbn [replace_from skipn]. apply IH.
Qed.

Lemma match_at_other (delim : jsstring) (dc c : N) (s : jsstring) :
  c <> dc -> match_at (dc :: delim) dc (c :: s) = None.
Proof.
  intros H. unfold match_at. cbn [startsWith].
  apply N.eqb_neq in H. rewrite N.eqb_sym in H. now rewrite H.
Qed.

(** Text without [dc] is copied as it is. *)
Lemma replace_from_plain (delim : jsstring) (dc : N) (o c u s : jsstring) :
  ~ In dc u ->
  replace_from (dc :: delim) dc o c 0 (u ++ s)
  = u ++ replace_from (dc :: delim) dc o c 0 s.
Proof.
  induction u as [|x u IH]; intros H; [reflexivity|].
  cbn [app replace_from]. rewrite match_at_other by (intros ->; apply H; now left).
  f_equal. apply IH. intros Hin. apply H. now right.
Qed.

Lemma app_eq_app_without (dc : N) (t s0 a b : jsstring) :
  ~ In dc t -> t ++ s0 = a ++ dc :: b ->
  exists a', a = t ++ a' /\ s0 = a' ++ dc :: b.
Proof.
  revert a. induction t as [|x t IH]; intros a Ht H.
  - exists a. now split.
  - destruct a as [|y a]; cbn in H.
    + injection H as -> _. exfalso. apply Ht. now left.
    + injection H as -> H. destruct (IH a) as (a' & -> & ->); auto.
      * intros Hin. apply Ht. now right.
      * exists a'. now split.
Qed.

(** Cutting tagged markup at a [dc], which no tag holds, leaves tagged
    markup on both sides. *)
Lemma tagged_cut (tags : list jsstring) (dc : N) (a b : jsstring) :
  (forall t, In t tags -> ~ In dc t) ->
  tagged tags (a ++ dc :: b) -> tagged tags a /\ tagged tags b.
Proof.
  intros Htags H. remember (a ++ dc :: b) as s eqn:E. revert a E.
  induction H as [|c s Hc Hs IH|t s Ht Hs IH]; intros a E.
  - destruct a; discriminate.
  - destruct a as [|y a]; cbn in E.
    + injection E as -> ->. split; [constructor|assumption].
    + injection E as -> E. destruct (IH a E) as [Ha Hb].
      split; [now apply tagged_text|assumption].
  - destruct (app_eq_app_without dc t s a b (Htags t Ht) E) as (a' & -> & E').
    destruct (IH a' E') as [Ha Hb]. split; [now apply tagged_tag|assumption].
Qed.

Lemma tagged_strip (tags : list jsstring) (dc : N) (d x : jsstring) :
  (forall t, In t tags -> ~ In dc t) ->
  Forall (eq dc) d -> tagged tags (d ++ x) -> tagged tags x.
Proof.
  intros Htags Hd. induction Hd as [|y d <- Hd IH]; intros H; [exact H|].
  apply IH. now apply (tagged_cut tags dc [] (d ++ x) Htags).
Qed.

Lemma skipn_app_length {A : Type} (a b : list A) :
  skipn (List.length a) (a ++ b) = b.
Proof. induction a; [reflexivity|assumption]. Qed.

(** One pass of replacement keeps markup tagged: the tags it writes are
    new tags, the tags already there hold no [dc] and so are copied whole,
    inside a capture or outside. *)
Lemma replace_delimited_tagged (tags tags' : list jsstring) (dc : N)
  (delim o c : jsstring) :
  incl tags tags' -> In o tags' -> In c tags' ->
  (forall t, In t tags -> ~ In dc t) ->
  Forall (eq dc) delim ->
  forall s, tagged tags s ->
            tagged tags' (replace_delimited (dc :: delim) dc o c s).
Proof.
  intros Hi Ho Hcl Htags Hd s. unfold replace_delimited.
  remember (List.length s) as n eqn:En.
  assert (Hn : (List.length s <= n)%nat) by lia. clear En. revert s Hn.
  induction n as [|n IHn]; intros s Hn Hs.
  - destruct s; [constructor|cbn in Hn; lia].
  - pose proof Hs as Hall.
    induction Hs as [|x s Hx Hs IHs|t s Ht Hs IHs].
    + constructor.
    + cbn [replace_from].
      destruct (match_at (dc :: delim) dc (x :: s)) as [run|] eqn:Em.
      * destruct (match_at_spec _ _ _ _ Em) as (rest & E & Hne & Hrun).
        rewrite replace_from_skip.
        assert (Hskip : skipn (2 * List.length (dc :: delim) + List.length run - 1) s = rest).
        { cbn [app] in E. injection E as _ E. rewrite E.
          assert (Ea : delim ++ run ++ dc :: delim ++ rest
                       = (delim ++ run ++ dc :: delim) ++ rest).
          { rewrite <- !app_assoc. cbn [app]. reflexivity. }
          rewrite Ea.
          replace (2 * List.length (dc :: delim) + List.length run - 1)%nat
            with (List.length (delim ++ run ++ dc :: delim))
            by (rewrite !length_app; cbn [List.length]; lia).
          apply skipn_app_length. }
        rewrite Hskip. rewrite E in Hall.
        assert (H1 : tagged tags (run ++ (dc :: delim) ++ rest)).
        { apply (tagged_strip tags dc (dc :: delim)); auto. }
        cbn [app] in H1.
        apply (tagged_cut tags dc run (delim ++ rest) Htags) in H1.
        destruct H1 as [Hr H2].
        apply (tagged_strip tags dc delim rest Htags Hd) in H2.
        apply tagged_tag; [assumption|]. apply tagged_app.
        -- now apply (tagged_mono tags).
        -- apply tagged_tag; [assumption|]. apply IHn; [|assumption].
           apply (f_equal (@List.length N)) in E. cbn [List.length] in Hn.
           rewrite !length_app in E. cbn [List.length] in E. lia.
      * apply tagged_text; [assumption|]. apply IHn; [cbn in Hn; lia|assumption].
    + destruct t as [|x t].
      * cbn [app] in *. now apply IHs.
      * cbn [app replace_from]. rewrite match_at_other
          by (intros ->; apply (Htags _ Ht); now left).
        rewrite replace_from_plain
          by (intros Hin; apply (Htags _ Ht); now right).
        change (x :: t ++ ?r) with ((x :: t) ++ r).
        apply tagged_tag; [now apply Hi|]. apply IHn; [|assumption].
        rewrite length_app in Hn. cbn [List.length] in Hn. lia.
Qed.

Lemma escapeHtml_no_LT (v : JsValue) : ~ In LT (escapeHtml v).
Proof.
  unfold escapeHtml. destruct (negb (ToBoolean v)); [intros []|].
  apply serialize_text_no_markup.
Qed.

Lemma not_In_existsb (c : N) (s : jsstring) :
  existsb (N.eqb c) s = false -> ~ In c s.
Proof.
  intros H Hin. assert (E : existsb (N.eqb c) s = true).
  { apply existsb_exists. exists c. split; [assumption|apply N.eqb_refl]. }
  congruence.
Qed.

(** Extra X8. In the markup [formatMessage] returns, whatever the content,
    every [<] opens one of the four tags the function writes itself (the
    opening and closing tags of its [code] and [strong] elements), in full:
    the content adds no tag of its own. *)
Theorem formatMessage_writes_only_its_own_tags :
  forall content : JsValue, tagged format_tags (formatMessage content).
Proof.
  intros content. unfold formatMessage.
  apply (replace_delimited_tagged [code_open; code_close] format_tags STAR [STAR]).
  - intros t [<-|[<-|[]]]; cbn; auto.
  - cbn; auto.
  - cbn; auto.
  - intros t [<-|[<-|[]]]; apply not_In_existsb; reflexivity.
  - repeat constructor.
  - apply (replace_delimited_tagged [] [code_open; code_close] BACKTICK []).
    + intros t [].
    + cbn; auto.
    + cbn; auto.
    + intros t [].
    + constructor.
    + apply tagged_plain, escapeHtml_no_LT.
Qed.

Lemma escape_unit_keeps_out (dc c : N) :
  existsb (N.eqb dc) (lit "&amp;nbsp;lt;gt;") = false ->
  c <> dc -> ~ In dc (escape_unit c).
Proof.
  intros Hdc Hc. apply not_In_existsb in Hdc. unfold escape_unit.
  destruct (N.eqb c AMP); [intros H; apply Hdc; cbn in *; tauto|].
  destruct (N.eqb c NBSP); [intros H; apply Hdc; cbn in *; tauto|].
  destruct (N.eqb c LT); [intros H; apply Hdc; cbn in *; tauto|].
  destruct (N.eqb c GT); [intros H; apply Hdc; cbn in *; tauto|].
  intros [H|[]]. congruence.
Qed.

Lemma serialize_text_keeps_out (dc : N) (s : jsstring) :
  existsb (N.eqb dc) (lit "&amp;nbsp;lt;gt;") = false ->
  ~ In dc s -> ~ In dc (serialize_text s).
Proof.
  intros Hdc Hs Hin. unfold serialize_text in Hin. apply in_flat_map in Hin.
  destruct Hin as (c & Hc & Hin).
  apply (escape_unit_keeps_out dc c Hdc); [|assumption].
  intros ->. contradiction.
Qed.

(** Extra X9. For a string with no backtick and no asterisk,
    [formatMessage] is [escapeHtml]: plain text is shown as escaped text
    and nothing else. *)
Theorem formatMessage_of_plain_text :
  forall s : jsstring,
    ~ In BACKTICK s -> ~ In STAR s ->
    formatMessage (JString s) = escapeHtml (JString s).
Proof.
  intros s Hb Hs. unfold formatMessage, replace_delimited.
  rewrite escapeHtml_string.
  rewrite <- (app_nil_r (serialize_text s)).
  rewrite (replace_from_plain [] BACKTICK)
    by (apply serialize_text_keeps_out; [reflexivity|assumption]).
  rewrite (replace_from_plain [STAR] STAR)
    by (apply serialize_text_keeps_out; [reflexivity|assumption]).
  reflexivity.
Qed.

Lemma formatMessage_of_plain_text_example :
  formatMessage (JString (lit "a < b & c")) = escapeHtml (JString (lit "a < b & c")).
Proof.
  apply formatMessage_of_plain_text; apply not_In_existsb; reflexivity.
Defined.

End MarkupFacts.

Section ChatPageFacts.
Import Js Chat Markup ChatPage.

Lemma dispatch_text_event (rc : JsValue) (content : jsstring) :
  dispatch rc (text_event content)
  = Some (JString (ToString rc ++ content ++ [LF]),
          [AddChatMessage assistant
             (JString (trim (ToString rc ++ content ++ [LF]))) true]).
Proof. destruct content; reflexivity. Qed.

Lemma deliver_text_event (st : Session) (content : jsstring) :
  deliver st (text_event content)
  = {| responseContent := JString (ToString (responseContent st) ++ content ++ [LF]);
       effects := effects st
                  ++ [AddChatMessage assistant
                        (JString (trim (ToString (responseContent st)
                                        ++ content ++ [LF]))) true] |}.
Proof. unfold deliver. now rewrite dispatch_text_event. Qed.

Lemma deliver_text_events (contents : list jsstring) (st : Session) :
  contents <> [] ->
  fold_left deliver (map text_event contents) st
  = {| responseContent :=
         JString (ToString (responseContent st) ++ accumulated contents);
       effects :=
         effects st
         ++ map (fun k =>
                   AddChatMessage assistant
                     (JString (trim (ToString (responseContent st)
                                     ++ accumulated (firstn (S k) contents))))
                     true)
              (seq 0 (List.length contents)) |}.
Proof.
  revert st. induction contents as [|c cs IH]; intros st Hne; [congruence|].
  cbn [map fold_left]. rewrite deliver_text_event.
  destruct cs as [|c' cs'].
  - cbn. rewrite !app_nil_r. reflexivity.
  - rewrite IH by discriminate. cbn [responseContent effects ToString].
    f_equal.
    + f_equal. unfold accumulated. cbn [flat_map].
      rewrite <- !app_assoc. reflexivity.
    + rewrite <- app_assoc. f_equal.
      change (List.length (c :: c' :: cs')) with (S (List.length (c' :: cs'))).
      rewrite <- cons_seq, <- seq_shift. cbn [map app]. rewrite map_map. f_equal.
      * unfold accumulated. cbn. rewrite !app_nil_r. reflexivity.
      * apply map_ext. intros k. do 3 f_equal.
        change (firstn (S (S k)) (c :: c' :: cs'))
          with (c :: firstn (S k) (c' :: cs')).
        unfold accumulated. cbn [flat_map]. rewrite <- !app_assoc. reflexivity.
Qed.

(** Extra X10. Text events add up: in a session whose [responseContent]
    is a string [text] (as it is at the start, and after text events),
    after the text events with the contents [c1 ... cn] (n at least 1)
    [responseContent] is [text] followed by every content with a newline
    after it, and the k-th of the n messages rendered shows the trimmed
    text up to the k-th content; each rendering is of the whole text, not
    of the last piece. *)
Theorem text_events_accumulate :
  forall (c : jsstring) (cs : list jsstring)
         (text : jsstring) (effs : list Effect),
    responseContent
      (fold_left deliver (map text_event (c :: cs))
         {| responseContent := JString text; effects := effs |})
    = JString (text ++ accumulated (c :: cs))
    /\ effects
         (fold_left deliver (map text_event (c :: cs))
            {| responseContent := JString text; effects := effs |})
       = effs
         ++ map (fun k =>
                   AddChatMessage assistant
                     (JString (trim (text
                                     ++ accumulated (firstn (S k) (c :: cs)))))
                     true)
              (seq 0 (S (List.length cs))).
Proof.
  intros c cs text effs. rewrite deliver_text_events by discriminate.
  split; reflexivity.
Qed.

Lemma deliver_responseContent_congr (st1 st2 : Session) (event : JsValue) :
  responseContent st1 = responseContent st2 ->
  responseContent (deliver st1 event) = responseContent (deliver st2 event).
Proof.
  intros H. unfold deliver. rewrite H.
  destruct (dispatch (responseContent st2) event) as [[rc effs]|]; [reflexivity|exact H].
Qed.

Lemma deliver_without_text (st : Session) (event : JsValue) :
  writes_text event = false ->
  responseContent (deliver st event) = responseContent st.
Proof.
  unfold writes_text, deliver, dispatch.
  destruct (get event (lit "type")) as [type|]; [|reflexivity].
  destruct (get event (lit "content")) as [content|]; [|reflexivity].
  destruct (strict_eq_string type (lit "text")); [discriminate|].
  destruct (strict_eq_string type (lit "content")); [discriminate|].
  destruct (strict_eq_string type (lit "result")); [discriminate|].
  intros _. cbn -[lit].
  destruct (strict_eq_string type (lit "error")); [reflexivity|].
  destruct (strict_eq_string type (lit "done")); reflexivity.
Qed.

Lemma fold_deliver_filter (events : list JsValue) (st1 st2 : Session) :
  responseContent st1 = responseContent st2 ->
  responseContent (fold_left deliver events st1)
  = responseContent (fold_left deliver (filter writes_text events) st2).
Proof.
  revert st1 st2. induction events as [|e es IH]; intros st1 st2 H; [exact H|].
  cbn [fold_left filter]. destruct (writes_text e) eqn:E.
  - cbn [fold_left]. apply IH. now apply deliver_responseContent_congr.
  - apply IH. now rewrite deliver_without_text.
Qed.

(** Extra X11. Events that are neither [text], [content] nor [result]
    (error events, done events, events of an unknown type or with none, a
    [null]) never change [responseContent]: the text accumulated at the
    end of a stream is the one the stream gives without them. *)
Theorem only_text_and_result_events_change_the_text :
  forall (events : list JsValue) (st : Session),
    responseContent (fold_left deliver events st)
    = responseContent (fold_left deliver (filter writes_text events) st).
Proof. intros events st. now apply fold_deliver_filter. Qed.

(** ** The panel *)

Lemma has_id_update (i : MessageId) (m : Message) (h : jsstring) :
  has_id i {| id := id m; role := role m; html := h |} = has_id i m.
Proof. reflexivity. Qed.

Lemma streaming_count_update_keep (i : MessageId) (f : Message -> Message)
  (l : list Message) :
  (forall m, id (f m) = id m) ->
  streaming_count (update_first i f l) = streaming_count l.
Proof.
  intros Hf. unfold streaming_count. induction l as [|m l IH]; [reflexivity|].
  cbn [update_first]. destruct (has_id i m).
  - cbn [filter].
    replace (has_id streaming_message (f m)) with (has_id streaming_message m)
      by (unfold has_id; now rewrite Hf).
    now destruct (has_id streaming_message m).
  - cbn [filter]. destruct (has_id streaming_message m); cbn [List.length]; now rewrite IH.
Qed.

Lemma streaming_count_app (a b : list Message) :
  streaming_count (a ++ b) = (streaming_count a + streaming_count b)%nat.
Proof. unfold streaming_count. now rewrite filter_app, length_app. Qed.

Lemma find_none_count (l : list Message) :
  getElementById streaming_message l = None <-> streaming_count l = 0%nat.
Proof.
  unfold getElementById, streaming_count.
  induction l as [|m l IH]; cbn; [tauto|].
  destruct (has_id streaming_message m); cbn; [split; discriminate|exact IH].
Qed.

Lemma streaming_count_freeze (now : Z) (l : list Message) :
  streaming_count
    (update_first streaming_message
       (fun m => {| id := msg now; role := role m; html := html m |}) l)
  = pred (streaming_count l).
Proof.
  unfold streaming_count. induction l as [|m l IH]; [reflexivity|].
  cbn [update_first]. destruct (has_id streaming_message m) eqn:E.
  - cbn [filter]. rewrite E. reflexivity.
  - cbn [filter]. rewrite E. exact IH.
Qed.

Lemma streaming_count_do_op (p : Panel) (op : PanelOp) :
  (streaming_count (items p) <= 1)%nat ->
  (streaming_count (items (do_op p op)) <= 1)%nat.
Proof.
  intros H. destruct op as [now r content [|]|now|]; cbn [do_op].
  - unfold addChatMessage. cbn [snd items].
    destruct (welcome p).
    + cbn. lia.
    + destruct (getElementById streaming_message (items p)) eqn:E.
      * now rewrite streaming_count_update_keep.
      * apply find_none_count in E. rewrite streaming_count_app, E. cbn. lia.
  - unfold addChatMessage. cbn [snd items].
    destruct (welcome p).
    + cbn. lia.
    + destruct (getElementById (msg now) (items p)) eqn:E.
      * now rewrite streaming_count_update_keep.
      * rewrite streaming_count_app. cbn. lia.
  - unfold freeze. cbn [items]. rewrite streaming_count_freeze. lia.
  - cbn. lia.
Qed.

Lemma streaming_count_panel_after (ops : list PanelOp) :
  (streaming_count (items (panel_after ops)) <= 1)%nat.
Proof.
  unfold panel_after.
  assert (G : forall p, (streaming_count (items p) <= 1)%nat ->
                        (streaming_count (items (fold_left do_op ops p)) <= 1)%nat).
  { induction ops as [|op ops IH]; intros p H; [exact H|].
    cbn [fold_left]. apply IH. now apply streaming_count_do_op. }
  apply G. cbn. lia.
Qed.

Lemma update_first_absent (i : MessageId) (f : Message -> Message)
  (l : list Message) :
  find (has_id i) l = None -> update_first i f l = l.
Proof.
  induction l as [|m l IH]; [reflexivity|]. cbn.
  destruct (has_id i m); [discriminate|]. intros H. now rewrite IH.
Qed.

Lemma find_app_absent (i : MessageId) (a b : list Message) :
  find (has_id i) a = None -> find (has_id i) (a ++ b) = find (has_id i) b.
Proof.
  induction a as [|m a IH]; [reflexivity|]. cbn.
  destruct (has_id i m); [discriminate|exact IH].
Qed.

Lemma update_first_app_absent (i : MessageId) (f : Message -> Message)
  (a b : list Message) :
  find (has_id i) a = None ->
  update_first i f (a ++ b) = a ++ update_first i f b.
Proof.
  induction a as [|m a IH]; [reflexivity|]. cbn.
  destruct (has_id i m); [discriminate|]. intros H. now rewrite IH.
Qed.

(** Streamed renderings onto a panel that shows [base] and then the
    streaming message: the message is rewritten in place. *)
Lemma stream_adds_rewrite (r r0 : Role) (contents : list (Z * JsValue))
  (base : list Message) (h : jsstring) :
  getElementById streaming_message base = None ->
  items (fold_left do_op (stream_adds r contents)
           {| welcome := false;
              items := base ++ [{| id := streaming_message; role := r0; html := h |}] |})
  = base ++ [{| id := streaming_message; role := r0;
                html := match contents with
                        | [] => h
                        | _ => formatMessage (snd (List.last contents (0, JNull)))
                        end |}].
Proof.
  intros Hb. revert h. induction contents as [|[t c] cs IH]; intros h; [reflexivity|].
  cbn [stream_adds map fold_left do_op fst snd].
  unfold addChatMessage. cbn [welcome items snd].
  unfold getElementById in *. rewrite find_app_absent by assumption.
  cbn [find has_id id MessageId_eqb].
  rewrite update_first_app_absent by assumption. cbn [update_first has_id id MessageId_eqb role].
  fold (stream_adds r cs). rewrite IH.
  destruct cs as [|tc cs']; reflexivity.
Qed.

(** Extra X12. The panel never holds more than one streaming message,
    whatever was added, sealed by a [done] event or cleared before; and a
    [done] event leaves none, so that the next answer starts a message of
    its own. *)
Theorem at_most_one_streaming_message :
  forall (ops : list PanelOp) (now : Z),
    (streaming_count (items (panel_after ops)) <= 1)%nat
    /\ streaming_count (items (freeze now (panel_after ops))) = 0%nat.
Proof.
  intros ops now. pose proof (streaming_count_panel_after ops) as Hle.
  split; [exact Hle|].
  unfold freeze. cbn [items]. rewrite streaming_count_freeze. lia.
Qed.

Lemma last_map_cons {A B : Type} (g : A -> B) (x : A) (l : list A)
  (d : A) (d' : B) :
  List.last (map g (x :: l)) d' = g (List.last (x :: l) d).
Proof.
  revert x. induction l as [|y l IH]; intros x; [reflexivity|].
  change (List.last (map g (x :: y :: l)) d') with (List.last (map g (y :: l)) d').
  change (List.last (x :: y :: l) d) with (List.last (y :: l) d).
  apply IH.
Qed.

Lemma stream_adds_append (p : Panel) (r : Role)
  (first : Z * JsValue) (more : list (Z * JsValue)) :
  streaming_count (items p) = 0%nat ->
  items (fold_left do_op (stream_adds r (first :: more)) p)
  = (if welcome p then [] else items p)
    ++ [{| id := streaming_message; role := r;
           html := formatMessage
                     (snd (List.last (first :: more) (0, JNull))) |}].
Proof.
  intros H0. destruct first as [t c].
  cbn [stream_adds map fold_left do_op fst snd].
  unfold addChatMessage at 1. cbn [snd].
  assert (Hb : getElementById streaming_message
                 (if welcome p then [] else items p) = None).
  { destruct (welcome p); [reflexivity|]. now apply find_none_count. }
  rewrite Hb. fold (stream_adds r more).
  rewrite stream_adds_rewrite by assumption.
  destruct more as [|tc more']; reflexivity.
Qed.

(** Extra X13. A streamed answer takes one message however often it is
    rendered: on a panel without a streaming message, the renderings of an
    answer, each of them a string, append one message, leave those before
    as they are, and the message shows the last rendering. *)
Theorem streamed_answer_is_one_message :
  forall (p : Panel) (r : Role)
         (first : Z * jsstring) (more : list (Z * jsstring)),
    streaming_count (items p) = 0%nat ->
    items (fold_left do_op
             (stream_adds r
                (map (fun tc => (fst tc, JString (snd tc))) (first :: more)))
             p)
    = (if welcome p then [] else items p)
      ++ [{| id := streaming_message; role := r;
             html := formatMessage
                       (JString (snd (List.last (first :: more) (0, [])))) |}].
Proof.
  intros p r first more H0. cbn [map].
  rewrite stream_adds_append by assumption. do 3 f_equal.
  change ((fst first, JString (snd first))
          :: map (fun tc : Z * jsstring => (fst tc, JString (snd tc))) more)
    with (map (fun tc : Z * jsstring => (fst tc, JString (snd tc)))
            (first :: more)).
  now rewrite (last_map_cons _ first more (0, [])).
Qed.

Lemma streamed_answer_example :
  streaming_count
    (items (panel_after [Add 5 user (JString (lit "hi")) false])) = 0%nat
  /\ items (fold_left do_op
              (stream_adds assistant
                 (map (fun tc => (fst tc, JString (snd tc)))
                    [(6, lit "a"); (7, lit "ab")]))
              (panel_after [Add 5 user (JString (lit "hi")) false]))
     = [{| id := msg 5; role := user; html := lit "hi" |};
        {| id := streaming_message; role := assistant; html := lit "ab" |}].
Proof.
  split; [reflexivity|].
  exact (streamed_answer_is_one_message
           (panel_after [Add 5 user (JString (lit "hi")) false]) assistant
           (6, lit "a") [(7, lit "ab")] eq_refl).
Defined.

Lemma find_update_first (i : MessageId) (f : Message -> Message)
  (l : list Message) (m : Message) :
  (forall x, id (f x) = id x) ->
  find (has_id i) l = Some m ->
  find (has_id i) (update_first i f l) = Some (f m).
Proof.
  intros Hf. induction l as [|x l IH]; [discriminate|]. cbn.
  destruct (has_id i x) eqn:E.
  - intros [= <-]. cbn. unfold has_id in *. now rewrite Hf, E.
  - intros H. cbn. rewrite E. now apply IH.
Qed.

Lemma length_update_first (i : MessageId) (f : Message -> Message)
  (l : list Message) :
  List.length (update_first i f l) = List.length l.
Proof.
  induction l as [|x l IH]; [reflexivity|]. cbn.
  destruct (has_id i x); cbn; [reflexivity|now rewrite IH].
Qed.

Lemma has_id_refl (i : MessageId) (r : Role) (h : jsstring) :
  has_id i {| id := i; role := r; html := h |} = true.
Proof. destruct i; cbn; [reflexivity|apply Z.eqb_refl]. Qed.

(** After [addChatMessage] there is a message with the id it returns, and
    it shows the content. *)
Lemma addChatMessage_shows (now : Z) (r : Role) (content : JsValue)
  (isStreaming : bool) (p : Panel) :
  exists m,
    getElementById (fst (addChatMessage now r content isStreaming p))
      (items (snd (addChatMessage now r content isStreaming p))) = Some m
    /\ html m = formatMessage content.
Proof.
  unfold addChatMessage. cbn [fst snd items].
  set (i := if isStreaming then streaming_message else msg now).
  set (shown := if welcome p then [] else items p).
  unfold getElementById. destruct (find (has_id i) shown) as [m|] eqn:E.
  - eexists. split; [apply find_update_first; [reflexivity|exact E]|reflexivity].
  - eexists. rewrite find_app_absent by assumption. cbn [find].
    rewrite has_id_refl. split; reflexivity.
Qed.

(** Extra X14. Two messages added without streaming at the same value of
    [Date.now()] share their id: the second is not appended. It takes the
    place of the first, whose role label stays: the panel is as long as
    after the first, and the message of that id shows the second content
    under the first role. The contents are strings. *)
Theorem same_millisecond_message_replaces :
  forall (now : Z) (r1 r2 : Role) (s1 s2 : jsstring) (p : Panel),
    List.length
      (items (snd (addChatMessage now r2 (JString s2) false
                     (snd (addChatMessage now r1 (JString s1) false p)))))
    = List.length (items (snd (addChatMessage now r1 (JString s1) false p)))
    /\ exists m1 m2 : Message,
         getElementById (msg now)
           (items (snd (addChatMessage now r1 (JString s1) false p))) = Some m1
         /\ getElementById (msg now)
              (items (snd (addChatMessage now r2 (JString s2) false
                             (snd (addChatMessage now r1 (JString s1) false p)))))
            = Some m2
         /\ html m1 = formatMessage (JString s1)
         /\ html m2 = formatMessage (JString s2)
         /\ role m2 = role m1.
Proof.
  intros now r1 r2 s1 s2 p.
  set (c1 := JString s1). set (c2 := JString s2).
  destruct (addChatMessage_shows now r1 c1 false p) as (m1 & H1 & Hh1).
  change (fst (addChatMessage now r1 c1 false p)) with (msg now) in H1.
  set (p1 := snd (addChatMessage now r1 c1 false p)) in *.
  assert (Hw : welcome p1 = false) by reflexivity.
  unfold addChatMessage. cbn [snd items]. rewrite Hw.
  split.
  - rewrite H1. apply length_update_first.
  - exists m1. eexists. split; [exact H1|]. rewrite H1. split.
    + unfold getElementById in *. apply find_update_first; [reflexivity|exact H1].
    + cbn. auto.
Qed.

(** *** From the stream to the panel *)

Lemma deliver_done_event (st : Session) :
  deliver st done_event
  = {| responseContent := responseContent st;
       effects := effects st ++ [FreezeStreaming] |}.
Proof. reflexivity. Qed.

Lemma combine_app_last {A B : Type} (l : list A) (l' : list B) (a : A) (b : B) :
  List.length l = List.length l' ->
  combine (l ++ [a]) (l' ++ [b]) = combine l l' ++ [(a, b)].
Proof.
  revert l'. induction l as [|x l IH]; intros [|y l']; cbn; try discriminate.
  - reflexivity.
  - intros [= H]. now rewrite IH.
Qed.

Lemma combine_map_r {A B C : Type} (f : B -> C) (l : list A) (l' : list B) :
  combine l (map f l') = map (fun ab => (fst ab, f (snd ab))) (combine l l').
Proof.
  revert l'. induction l as [|x l IH]; intros [|y l']; cbn; try reflexivity.
  now rewrite IH.
Qed.

Lemma last_combine_seq (times : list Z) (n : nat) (d : Z * nat) :
  List.length times = S n ->
  snd (List.last (combine times (seq 0 (S n))) d) = n.
Proof.
  intros H. destruct (exists_last (l := times)) as (ts & t & ->);
    [destruct times; discriminate|].
  rewrite length_app in H. cbn in H.
  rewrite seq_S, combine_app_last by (rewrite length_seq; lia).
  now rewrite last_last.
Qed.

Lemma update_first_app_here (i : MessageId) (f : Message -> Message)
  (a : list Message) (m : Message) :
  find (has_id i) a = None -> has_id i m = true ->
  update_first i f (a ++ [m]) = a ++ [f m].
Proof.
  intros Ha Hm. rewrite update_first_app_absent by assumption.
  cbn. now rewrite Hm.
Qed.

(** Extra X25. From the stream to the panel: an answer that arrives as
    text events and a [done] event, on a panel without a streaming message,
    leaves one new message behind, after those that were there. It shows
    the whole text, trimmed and formatted, under the label of the
    assistant, and its id is the persistent one made at the [done] event,
    whatever the clock showed at the renderings. *)
Theorem streamed_answer_from_events_to_panel :
  forall (p : Panel) (c : jsstring) (cs : list jsstring)
         (times : list Z) (t_done : Z),
    streaming_count (items p) = 0%nat ->
    List.length times = S (List.length cs) ->
    items (show p (combine (times ++ [t_done])
                     (effects (fold_left deliver
                                 (map text_event (c :: cs) ++ [done_event])
                                 Chat.start))))
    = (if welcome p then [] else items p)
      ++ [{| id := msg t_done; role := assistant;
             html := formatMessage (JString (trim (accumulated (c :: cs)))) |}].
Proof.
  intros p c cs times t_done H0 Hlen.
  rewrite fold_left_app. cbn [fold_left]. rewrite deliver_done_event.
  rewrite deliver_text_events by discriminate. cbn [effects responseContent].
  cbn [Chat.start effects responseContent ToString app].
  set (content := fun k : nat =>
         JString (trim (accumulated (firstn (S k) (c :: cs))))).
  change (map _ (seq 0 (List.length (c :: cs))))
    with (map (fun k => AddChatMessage assistant (content k) true)
            (seq 0 (S (List.length cs)))).
  rewrite combine_app_last by (rewrite length_map, length_seq; exact Hlen).
  unfold show. rewrite map_app, fold_left_app. cbn [map fold_left op_of snd fst do_op].
  rewrite combine_map_r, map_map. cbn [fst snd].
  set (timed := combine times (seq 0 (S (List.length cs)))).
  match goal with
  | |- context [fold_left do_op (map ?f timed) p] =>
      replace (map f timed)
        with (stream_adds assistant
                (map (fun x : Z * nat => (fst x, content (snd x))) timed))
        by (unfold stream_adds; rewrite map_map; apply map_ext;
            intros [? ?]; reflexivity)
  end.
  assert (Ht : exists t0 timed', timed = t0 :: timed').
  { unfold timed. destruct times as [|t ts]; [discriminate|].
    cbn. eauto. }
  destruct Ht as (t0 & timed' & Et).
  assert (Elast : snd (List.last (map (fun x : Z * nat => (fst x, content (snd x))) timed)
                         (0, JNull))
                  = content (List.length cs)).
  { rewrite Et, (last_map_cons _ t0 timed' (0, O)). cbn [snd]. f_equal.
    rewrite <- Et. now apply last_combine_seq. }
  rewrite Et in *. cbn [map] in *.
  unfold freeze. cbn [items].
  rewrite stream_adds_append by assumption. rewrite Elast.
  assert (Hb : find (has_id streaming_message)
                 (if welcome p then [] else items p) = None).
  { destruct (welcome p); [reflexivity|]. now apply find_none_count. }
  rewrite update_first_app_here by (assumption || reflexivity).
  cbn [role html]. unfold content.
  change (S (List.length cs)) with (List.length (c :: cs)).
  now rewrite firstn_all.
Qed.

Lemma streamed_answer_from_events_example :
  (streaming_count
     (items (panel_after [Add 5 user (JString (lit "hi")) false])) = 0%nat
   /\ List.length [6; 7] = S (List.length [lit "b"]))
  /\ items (show (panel_after [Add 5 user (JString (lit "hi")) false])
              (combine ([6; 7] ++ [8])
                 (effects (fold_left deliver
                             (map text_event [lit "a"; lit "b"] ++ [done_event])
                             Chat.start))))
     = (if welcome (panel_after [Add 5 user (JString (lit "hi")) false])
        then []
        else items (panel_after [Add 5 user (JString (lit "hi")) false]))
       ++ [{| id := msg 8; role := assistant;
              html := formatMessage
                        (JString (trim (accumulated [lit "a"; lit "b"]))) |}].
Proof.
  split; [split; reflexivity|].
  exact (streamed_answer_from_events_to_panel
           (panel_after [Add 5 user (JString (lit "hi")) false])
           (lit "a") [lit "b"] [6; 7] 8 eq_refl eq_refl).
Defined.

End ChatPageFacts.

Section MoreChartFacts.
Import Js Chart.

(** The loop of the line fails exactly when it is placed by time and runs
    past the dates. *)
Lemma points_from_None (minTime maxTime : Z) (dates : list Z) (n : nat)
  (max plotW plotH : Number) (data : list Sample) :
  forall i,
    points_from minTime maxTime dates n max plotW plotH i data = None
    <-> data <> [] /\ minTime < maxTime
        /\ (List.length dates < i + List.length data)%nat.
Proof.
  induction data as [|d data IH]; intros i; cbn [points_from List.length].
  - split; [discriminate|]. now intros [H _].
  - unfold point at 1.
    destruct (minTime <? maxTime) eqn:Et.
    + apply Z.ltb_lt in Et.
      destruct (nth_error dates i) as [t|] eqn:En.
      * assert (Hi : (i < List.length dates)%nat)
          by (apply nth_error_Some; congruence).
        destruct (points_from minTime maxTime dates n max plotW plotH (S i) data)
          as [pts|] eqn:Ep.
        -- split; [discriminate|]. intros (_ & _ & Hlen).
           assert (Hn : points_from minTime maxTime dates n max plotW plotH (S i) data
                        = None).
           { apply IH. split; [|split; [exact Et|lia]].
             intros ->. cbn in Hlen. lia. }
           congruence.
        -- apply IH in Ep. destruct Ep as (_ & _ & Hlen).
           split; [intros _|reflexivity].
           split; [discriminate|]. split; [exact Et|lia].
      * apply nth_error_None in En.
        split; [intros _|reflexivity].
        split; [discriminate|]. split; [exact Et|lia].
    + apply Z.ltb_ge in Et.
      destruct (points_from minTime maxTime dates n max plotW plotH (S i) data)
        as [pts|] eqn:Ep.
      * split; [discriminate|]. intros (_ & Hlt & _). lia.
      * apply IH in Ep. destruct Ep as (_ & Hlt & _). lia.
Qed.

Lemma points_from_nth (minTime maxTime : Z) (dates : list Z) (n : nat)
  (max plotW plotH : Number) (data : list Sample) :
  forall i pts k d,
    points_from minTime maxTime dates n max plotW plotH i data = Some pts ->
    nth_error data k = Some d ->
    exists pt,
      nth_error pts k = Some pt
      /\ point minTime maxTime dates n max plotW plotH (i + k) d = Some pt.
Proof.
  induction data as [|d0 data IH]; intros i pts k d; cbn [points_from].
  - destruct k; discriminate.
  - destruct (point minTime maxTime dates n max plotW plotH i d0) as [pt0|] eqn:E0;
      [|discriminate].
    destruct (points_from minTime maxTime dates n max plotW plotH (S i) data)
      as [pts'|] eqn:Ep; [|discriminate].
    intros [= <-]. destruct k as [|k]; cbn [nth_error].
    + intros [= <-]. exists pt0. now rewrite Nat.add_0_r.
    + intros Hk. destruct (IH (S i) pts' k d Ep Hk) as (pt & H1 & H2).
      exists pt. split; [exact H1|].
      now replace (i + S k)%nat with (S i + k)%nat by lia.
Qed.

Lemma drawChart_None (zone : Zone) (clientWidth height : Z)
  (data : list Sample) (timestamps : list Z) :
  drawChart zone clientWidth height data timestamps = None
  <-> data <> []
      /\ (timestamps = []
          \/ (hd 0 timestamps < List.last timestamps 0
              /\ (List.length timestamps < List.length data)%nat)).
Proof.
  unfold drawChart. destruct data as [|d data].
  - split; [discriminate|]. now intros [H _].
  - destruct timestamps as [|minTime ts].
    + split; [intros _|reflexivity]. split; [discriminate|now left].
    + set (timestamps := minTime :: ts).
      assert (El : List.last timestamps minTime = List.last timestamps 0).
      { unfold timestamps. clear. revert minTime.
        induction ts as [|t ts IH]; intros m; [reflexivity|].
        change (List.last (m :: t :: ts) m) with (List.last (t :: ts) m).
        change (List.last (m :: t :: ts) 0) with (List.last (t :: ts) 0).
        destruct ts as [|t' ts']; [reflexivity|].
        change (List.last (t :: t' :: ts') m) with (List.last (t' :: ts') m).
        change (List.last (t :: t' :: ts') 0) with (List.last (t' :: ts') 0).
        clear IH. revert t'. induction ts' as [|a ts' IH']; intros t'; [reflexivity|].
        change (List.last (t' :: a :: ts') m) with (List.last (a :: ts') m).
        change (List.last (t' :: a :: ts') 0) with (List.last (a :: ts') 0).
        apply IH'. }
      destruct (points_from minTime (List.last timestamps minTime) timestamps
                  (List.length (d :: data)) (vertical_scale (d :: data))
                  (Number_of_Z (clientWidth - 24) - pad_l - pad_r)%float
                  (Number_of_Z height - pad_t - pad_b)%float 0 (d :: data))
        as [pts|] eqn:Ep.
      * split; [discriminate|]. intros [_ [H|[Hlt Hlen]]]; [discriminate|].
        assert (Hn : points_from minTime (List.last timestamps minTime) timestamps
                  (List.length (d :: data)) (vertical_scale (d :: data))
                  (Number_of_Z (clientWidth - 24) - pad_l - pad_r)%float
                  (Number_of_Z height - pad_t - pad_b)%float 0 (d :: data) = None).
        { apply points_from_None. split; [discriminate|].
          rewrite El. split; [exact Hlt|exact Hlen]. }
        congruence.
      * apply points_from_None in Ep. destruct Ep as (_ & Hlt & Hlen).
        split; [intros _|reflexivity]. split; [discriminate|]. right.
        rewrite <- El. split; [exact Hlt|exact Hlen].
Qed.

(** Extra X15. [drawChart] throws (the TypeError of [getTime] on a date
    that is not there) exactly when there are data and either no timestamp
    at all, or the timestamps span a positive time and are fewer than the
    data. Without data it writes its notice and needs no timestamp; with
    timestamps that do not advance the line is placed by index and fewer
    timestamps than data do no harm. *)
Theorem drawChart_throws_exactly_without_dates :
  forall (zone : Zone) (clientWidth height : Z) (data : list Sample) (timestamps : list Z),
    drawChart zone clientWidth height data timestamps = None
    <-> data <> []
        /\ (timestamps = []
            \/ (hd 0 timestamps < List.last timestamps 0
                /\ (List.length timestamps < List.length data)%nat)).
Proof. exact drawChart_None. Qed.

Lemma drawChart_same_length (zone : Zone) (clientWidth height : Z)
  (data : list Sample) (timestamps : list Z) :
  List.length timestamps = List.length data ->
  exists drawing,
    drawChart zone clientWidth height data timestamps = Some drawing
    /\ ((exists x y, drawing = NoData x y) <-> data = []).
Proof.
  intros Hlen.
  destruct (drawChart zone clientWidth height data timestamps) as [drawing|] eqn:E.
  - exists drawing. split; [reflexivity|].
    unfold drawChart in E. destruct data as [|d data].
    + injection E as <-. split; [reflexivity|]. intros _. eauto.
    + destruct timestamps as [|minTime ts]; [discriminate|].
      match type of E with
      | match ?pf with _ => _ end = _ => destruct pf; [|discriminate]
      end.
      injection E as <-. split; [|discriminate].
      intros (x & y & H). discriminate.
  - apply drawChart_None in E. destruct E as [Hne [->|[_ Hlt]]].
    + destruct data; [congruence|discriminate].
    + lia.
Qed.

(** Extra X16. [refreshMetrics] draws all three charts whatever records the
    request returns: the timestamps and the data of a chart are columns of
    the same records, so that no date is missing and nothing is thrown. Each
    chart shows the notice [No data] exactly when there are no records. *)
Theorem refreshMetrics_draws_three_charts :
  forall (zone : Zone) (clientWidth height : Z) (metrics : list Metric),
    exists cpu memory disk : Drawing,
      refreshMetrics zone clientWidth height metrics
      = (Some cpu, Some memory, Some disk)
      /\ ((exists x y, cpu = NoData x y) <-> metrics = [])
      /\ ((exists x y, memory = NoData x y) <-> metrics = [])
      /\ ((exists x y, disk = NoData x y) <-> metrics = []).
Proof.
  intros zone clientWidth height metrics. unfold refreshMetrics.
  assert (Hnil : forall (A : Type) (f : Metric -> A),
             map f metrics = [] <-> metrics = []).
  { intros A f. destruct metrics; cbn; split; congruence. }
  destruct (drawChart_same_length zone clientWidth height (cpu_data metrics)
              (timestamps_of metrics)) as (cpu & Ec & Hc).
  { unfold timestamps_of, cpu_data. now rewrite !length_map. }
  destruct (drawChart_same_length zone clientWidth height (memory_data metrics)
              (timestamps_of metrics)) as (memory & Em & Hm).
  { unfold timestamps_of, memory_data. now rewrite !length_map. }
  destruct (drawChart_same_length zone clientWidth height (disk_data metrics)
              (timestamps_of metrics)) as (disk & Ed & Hd).
  { unfold timestamps_of, disk_data. now rewrite !length_map. }
  exists cpu, memory, disk. rewrite Ec, Em, Ed. split; [reflexivity|].
  unfold cpu_data in Hc. unfold memory_data in Hm. unfold disk_data in Hd.
  rewrite Hnil in Hc, Hm, Hd. auto.
Qed.

(** *** A sample that is not a number *)

Lemma nan_mul (y : Number) : (PrimFloat.nan * y)%float = PrimFloat.nan.
Proof.
  apply Prim2SF_inj. rewrite mul_spec.
  change (Prim2SF PrimFloat.nan) with S754_nan. reflexivity.
Qed.

Lemma sub_nan (x : Number) : (x - PrimFloat.nan)%float = PrimFloat.nan.
Proof.
  apply Prim2SF_inj. rewrite sub_spec.
  change (Prim2SF PrimFloat.nan) with S754_nan.
  now destruct (Prim2SF x).
Qed.

Lemma is_nan_nan_eq (x : Number) : PrimFloat.is_nan x = true -> x = PrimFloat.nan.
Proof.
  intros H. apply Prim2SF_inj.
  change (Prim2SF PrimFloat.nan) with S754_nan.
  unfold PrimFloat.is_nan in H. rewrite eqb_spec in H.
  destruct (Prim2SF x) as [s|s| |s m e]; cbn in H; try discriminate; try reflexivity.
  - now destruct s.
  - unfold SFeqb, SFcompare in H. destruct s; cbn in H.
    + rewrite Z.compare_refl, Pos.compare_refl in H. discriminate.
    + rewrite Z.compare_refl, Pos.compare_refl in H. discriminate.
Qed.

(** Extra X17. One sample that is not a number spoils the whole chart: if
    some datum is [undefined] (a record without the field) or NaN, the
    scale is 1 whatever the other data are, and the point of that datum has
    a NaN [y]. *)
Theorem sample_that_is_no_number_sets_scale_to_one :
  forall (zone : Zone) (clientWidth height : Z) (data : list Sample) (timestamps : list Z)
         (i : nat) (d : Sample),
    List.length timestamps = List.length data ->
    nth_error data i = Some d ->
    PrimFloat.is_nan (ToNumber d) = true ->
    exists (p : Plot) (x y : Number),
      drawChart zone clientWidth height data timestamps = Some (Plotted p)
      /\ scale p = 1%float
      /\ nth_error (line p) i = Some (x, y)
      /\ PrimFloat.is_nan y = true.
Proof.
  intros zone clientWidth height data timestamps i d Hlen Hi Hnan.
  assert (Hscale : vertical_scale data = 1%float).
  { apply vertical_scale_nan. apply existsb_exists. exists d.
    split; [now apply nth_error_In in Hi|exact Hnan]. }
  destruct (drawChart zone clientWidth height data timestamps) as [drawing|] eqn:E.
  2:{ apply drawChart_None in E. destruct E as [Hne [->|[_ Hlt]]]; [|lia].
      destruct data; [congruence|discriminate]. }
  unfold drawChart in E.
  destruct data as [|d0 data]; [destruct i; discriminate|].
  destruct timestamps as [|minTime ts]; [discriminate|].
  match type of E with
  | match ?pf with _ => _ end = _ => destruct pf as [pts|] eqn:Ep; [|discriminate]
  end.
  injection E as <-.
  destruct (points_from_nth _ _ _ _ _ _ _ _ _ _ _ _ Ep Hi) as ([x y] & Hn & Hp).
  eexists _, x, y. split; [reflexivity|]. cbn [scale line].
  split; [exact Hscale|]. split; [exact Hn|].
  rewrite Hscale in Hp. unfold point in Hp.
  apply is_nan_nan_eq in Hnan. rewrite Hnan in Hp.
  change (PrimFloat.nan / 1)%float with PrimFloat.nan in Hp.
  rewrite nan_mul, sub_nan in Hp.
  destruct (minTime <? List.last (minTime :: ts) minTime).
  - destruct (nth_error (minTime :: ts) (0 + i)); [|discriminate].
    now injection Hp as _ <-.
  - now injection Hp as _ <-.
Qed.

Lemma sample_that_is_no_number_example :
  (List.length (timestamps_of example_metrics)
   = List.length (cpu_data example_metrics)
   /\ nth_error (cpu_data example_metrics) 1 = Some Undefined
   /\ PrimFloat.is_nan (ToNumber Undefined) = true)
  /\ exists (p : Plot) (x y : Number),
       drawChart (fixed 0) 624 150 (cpu_data example_metrics)
         (timestamps_of example_metrics) = Some (Plotted p)
       /\ scale p = 1%float
       /\ nth_error (line p) 1 = Some (x, y)
       /\ PrimFloat.is_nan y = true.
Proof.
  split; [repeat split|].
  exact (sample_that_is_no_number_sets_scale_to_one (fixed 0) 624 150
           (cpu_data example_metrics) (timestamps_of example_metrics)
           1%nat Undefined eq_refl eq_refl eq_refl).
Defined.

End MoreChartFacts.

(** ** Text *)

Section TextFacts.
Import Js.

Lemma trimStart_ws (a s : jsstring) :
  forallb is_white_space a = true -> trimStart (a ++ s) = trimStart s.
Proof.
  induction a as [|c a IH]; [reflexivity|]. cbn [forallb app trimStart].
  intros H. apply andb_prop in H. destruct H as [Hc Ha]. rewrite Hc. now apply IH.
Qed.

Lemma trimStart_all_ws (a : jsstring) :
  forallb is_white_space a = true -> trimStart a = [].
Proof.
  intros H. rewrite <- (app_nil_r a). now rewrite trimStart_ws.
Qed.

Lemma trimStart_clean (s : jsstring) :
  s <> [] -> is_white_space (hd 0%N s) = false -> trimStart s = s.
Proof. destruct s as [|c s]; [congruence|]. cbn. now intros _ ->. Qed.

(** What [trimStart] takes off is white space, and it leaves no white space
    in front. *)
Lemma trimStart_cases (s : jsstring) :
  exists a,
    s = a ++ trimStart s
    /\ forallb is_white_space a = true
    /\ is_white_space (hd 0%N (trimStart s)) = false.
Proof.
  induction s as [|c s (a & E & Ha & Hh)].
  - exists []. repeat split.
  - cbn [trimStart]. destruct (is_white_space c) eqn:Ec.
    + exists (c :: a). cbn. rewrite Ec, Ha. repeat split; [|exact Hh].
      now rewrite <- E.
    + exists []. repeat split. exact Ec.
Qed.

Lemma forallb_rev {A : Type} (f : A -> bool) (l : list A) :
  forallb f (rev l) = forallb f l.
Proof.
  induction l as [|x l IH]; [reflexivity|]. cbn.
  rewrite forallb_app, IH. cbn. rewrite Bool.andb_true_r. apply Bool.andb_comm.
Qed.

Lemma trimEnd_ws (s b : jsstring) :
  forallb is_white_space b = true -> trimEnd (s ++ b) = trimEnd s.
Proof.
  intros H. unfold trimEnd. rewrite rev_app_distr, trimStart_ws; [reflexivity|].
  now rewrite forallb_rev.
Qed.

Lemma last_rev {A : Type} (l : list A) (d : A) : List.last (rev l) d = hd d l.
Proof.
  destruct l as [|x l]; [reflexivity|]. cbn. apply last_last.
Qed.

Lemma hd_rev {A : Type} (l : list A) (d : A) : hd d (rev l) = List.last l d.
Proof. rewrite <- (rev_involutive l) at 2. now rewrite last_rev. Qed.

Lemma hd_app {A : Type} (l l' : list A) (d : A) :
  l <> [] -> hd d (l ++ l') = hd d l.
Proof. destruct l; [congruence|reflexivity]. Qed.

Lemma trimEnd_clean (s : jsstring) :
  is_white_space (List.last s 0%N) = false -> trimEnd s = s.
Proof.
  intros H. unfold trimEnd. destruct s as [|c s]; [reflexivity|].
  rewrite trimStart_clean.
  - apply rev_involutive.
  - intros E. apply (f_equal (@rev N)) in E. rewrite rev_involutive in E. discriminate.
  - now rewrite hd_rev.
Qed.

(** [trim] gives the middle of a string between white space, when the
    middle has none at its ends. *)
Lemma trim_core (a m b : jsstring) :
  is_white_space (hd 0%N m) = false ->
  is_white_space (List.last m 0%N) = false ->
  forallb is_white_space a = true ->
  forallb is_white_space b = true ->
  trim (a ++ m ++ b) = m.
Proof.
  intros Hh Hl Ha Hb. unfold trim. rewrite trimStart_ws by assumption.
  destruct m as [|c m].
  - cbn [app]. now rewrite trimStart_all_ws.
  - rewrite trimStart_clean; [|discriminate|exact Hh].
    rewrite trimEnd_ws by assumption. now apply trimEnd_clean.
Qed.

(** A string is white space, its trimmed middle, and white space. *)
Lemma trim_decomp (s : jsstring) :
  exists a b,
    s = a ++ trim s ++ b
    /\ forallb is_white_space a = true
    /\ forallb is_white_space b = true
    /\ is_white_space (hd 0%N (trim s)) = false
    /\ is_white_space (List.last (trim s) 0%N) = false.
Proof.
  destruct (trimStart_cases s) as (a & Ea & Ha & Hh).
  destruct (trimStart_cases (rev (trimStart s))) as (b' & Eb & Hb & Hl).
  exists a, (rev b'). unfold trim, trimEnd.
  set (t := trimStart s) in *. set (u := trimStart (rev t)) in *.
  assert (Et : t = rev u ++ rev b').
  { rewrite <- rev_app_distr, <- Eb. symmetry. apply rev_involutive. }
  split; [now rewrite <- Et|]. split; [exact Ha|].
  split; [now rewrite forallb_rev|]. split.
  - destruct u as [|c u]; [reflexivity|].
    rewrite <- (hd_app (rev (c :: u)) (rev b')).
    + now rewrite <- Et.
    + intros E. apply (f_equal (@rev N)) in E. rewrite rev_involutive in E. discriminate.
  - now rewrite last_rev.
Qed.

Lemma trim_fixed (s : jsstring) :
  trim s = s ->
  is_white_space (hd 0%N s) = false /\ is_white_space (List.last s 0%N) = false.
Proof.
  intros E. destruct (trim_decomp s) as (a & b & _ & _ & _ & Hh & Hl).
  rewrite E in Hh, Hl. now split.
Qed.

Lemma trim_clean (s : jsstring) :
  is_white_space (hd 0%N s) = false ->
  is_white_space (List.last s 0%N) = false ->
  trim s = s.
Proof.
  intros Hh Hl. rewrite <- (app_nil_r s) at 1.
  now apply (trim_core [] s []).
Qed.

Lemma trim_trim (s : jsstring) : trim (trim s) = trim s.
Proof.
  destruct (trim_decomp s) as (a & b & _ & _ & _ & Hh & Hl).
  now apply trim_clean.
Qed.

Lemma trim_In (c : N) (s : jsstring) : In c (trim s) -> In c s.
Proof.
  destruct (trim_decomp s) as (a & b & E & _). intros H. rewrite E.
  apply in_or_app. right. apply in_or_app. now left.
Qed.

Lemma trim_nil_iff (s : jsstring) :
  trim s = [] <-> forallb is_white_space s = true.
Proof.
  split.
  - intros E. destruct (trim_decomp s) as (a & b & Es & Ha & Hb & _).
    rewrite E in Es. rewrite Es. cbn. rewrite forallb_app. now rewrite Ha, Hb.
  - intros H. unfold trim. now rewrite trimStart_all_ws.
Qed.

Lemma trim_app_ws (s b : jsstring) :
  forallb is_white_space b = true -> trim (s ++ b) = trim s.
Proof.
  intros Hb. destruct (trim_decomp s) as (a & b0 & E & Ha & Hb0 & Hh & Hl).
  rewrite E at 1. rewrite <- !app_assoc.
  apply trim_core; try assumption. rewrite forallb_app. now rewrite Hb0, Hb.
Qed.

Lemma trim_ws_app (a s : jsstring) :
  forallb is_white_space a = true -> trim (a ++ s) = trim s.
Proof. intros Ha. unfold trim. now rewrite trimStart_ws. Qed.

Lemma str_eqb_eq (a b : jsstring) : str_eqb a b = true <-> a = b.
Proof.
  revert b. induction a as [|x a IH]; intros [|y b]; cbn; try (split; congruence).
  rewrite Bool.andb_true_iff, N.eqb_eq, IH. split; [intros [-> ->]; reflexivity|].
  intros [= -> ->]. now split.
Qed.

Lemma str_eqb_refl (a : jsstring) : str_eqb a a = true.
Proof. now apply str_eqb_eq. Qed.

Lemma has_In (c : N) (s : jsstring) : existsb (N.eqb c) s = false <-> ~ In c s.
Proof.
  split.
  - intros H Hin. assert (E : existsb (N.eqb c) s = true).
    { apply existsb_exists. exists c. split; [assumption|apply N.eqb_refl]. }
    congruence.
  - intros H. destruct (existsb (N.eqb c) s) eqn:E; [|reflexivity].
    apply existsb_exists in E. destruct E as (x & Hx & Ex).
    apply N.eqb_eq in Ex. subst x. contradiction.
Qed.

Lemma ws_not_In (c : N) (s : jsstring) :
  is_white_space c = false -> forallb is_white_space s = true -> ~ In c s.
Proof.
  intros Hc Hs Hin. rewrite forallb_forall in Hs. apply Hs in Hin. congruence.
Qed.

(** *** split *)

Lemma split_pieces (sep : N) (s : jsstring) :
  forall p, In p (split sep s) -> ~ In sep p.
Proof.
  induction s as [|c s IH]; cbn [split]; intros p.
  - intros [<-|[]]. tauto.
  - destruct (N.eqb c sep) eqn:E.
    + intros [<-|H]; [tauto|now apply IH].
    + destruct (split sep s) as [|q qs] eqn:Es.
      * intros [<-|[]]. intros [->|[]]. now rewrite N.eqb_refl in E.
      * intros [<-|H].
        -- intros [->|H]; [now rewrite N.eqb_refl in E|].
           revert H. apply IH. now left.
        -- apply IH. now right.
Qed.

(** Text without the separator after a string goes to its last piece. *)
Lemma split_app_plain (sep : N) (s b : jsstring) :
  ~ In sep b ->
  split sep (s ++ b)
  = removelast (split sep s) ++ [List.last (split sep s) [] ++ b].
Proof.
  intros Hb. induction s as [|c s IH].
  - cbn. now apply split_no_sep.
  - cbn [app split]. destruct (N.eqb c sep).
    + rewrite IH. pose proof (split_not_nil sep s) as Hne.
      destruct (split sep s) as [|q qs]; [congruence|]. reflexivity.
    + rewrite IH. pose proof (split_not_nil sep s) as Hne.
      destruct (split sep s) as [|q qs]; [congruence|].
      destruct qs as [|q' qs']; reflexivity.
Qed.

Lemma split_ws_app (sep : N) (a s : jsstring) :
  is_white_space sep = false ->
  forallb is_white_space a = true ->
  map trim (split sep (a ++ s)) = map trim (split sep s).
Proof.
  intros Hsep. induction a as [|w a IH]; [reflexivity|].
  cbn [forallb app split]. intros H. apply andb_prop in H. destruct H as [Hw Ha].
  destruct (N.eqb w sep) eqn:E; [apply N.eqb_eq in E; congruence|].
  specialize (IH Ha). pose proof (split_not_nil sep (a ++ s)) as Hne.
  pose proof (split_not_nil sep s) as Hne'.
  destruct (split sep (a ++ s)) as [|p ps]; [congruence|].
  destruct (split sep s) as [|q qs]; [congruence|].
  cbn [map] in *. injection IH as E1 E2. f_equal; [|exact E2].
  rewrite <- E1. apply (trim_ws_app [w] p). cbn. now rewrite Hw.
Qed.

(** Splitting at a separator that is not white space and trimming the
    pieces: trimming the whole first makes no difference. *)
Lemma split_trim (sep : N) (s : jsstring) :
  is_white_space sep = false ->
  map trim (split sep (trim s)) = map trim (split sep s).
Proof.
  intros Hsep. destruct (trim_decomp s) as (a & b & E & Ha & Hb & _).
  rewrite E at 2. rewrite split_ws_app by assumption.
  rewrite split_app_plain by (now apply ws_not_In).
  pose proof (split_not_nil sep (trim s)) as Hne.
  rewrite (app_removelast_last [] Hne) at 1.
  rewrite !map_app. cbn [map]. now rewrite trim_app_ws.
Qed.

End TextFacts.

(** ** The forms *)

Section FormFacts.
Import Js Forms.

Lemma plain_dir_spec (d : jsstring) :
  plain_dir d = true -> trim d = d /\ ~ In COMMA d.
Proof.
  unfold plain_dir. rewrite !Bool.andb_true_iff, !Bool.negb_true_iff.
  rewrite str_eqb_eq, has_In. tauto.
Qed.

Lemma split_join_comma (d : jsstring) (ds : list jsstring) :
  Forall (fun x => ~ In COMMA x) (d :: ds) ->
  split COMMA (join (lit ", ") (d :: ds)) = d :: map (cons SPACE) ds.
Proof.
  revert d. induction ds as [|d' ds IH]; intros d H.
  - cbn. apply split_no_sep. now inversion H.
  - inversion H as [|? ? Hd Hds]; subst.
    change (join (lit ", ") (d :: d' :: ds))
      with (d ++ COMMA :: SPACE :: join (lit ", ") (d' :: ds)).
    rewrite split_app_sep, split_no_sep by assumption.
    cbn [app split]. change (N.eqb SPACE COMMA) with false. cbn iota.
    rewrite (IH d' Hds). reflexivity.
Qed.

Lemma trim_spaced (ds : list jsstring) :
  Forall (fun x => trim x = x) ds -> map trim (map (cons SPACE) ds) = ds.
Proof.
  induction 1 as [|d ds Hd _ IH]; [reflexivity|].
  cbn [map]. rewrite IH. f_equal.
  rewrite <- Hd at 2. exact (trim_ws_app [SPACE] d eq_refl).
Qed.

Lemma join_has_sep (c : N) (d d' : jsstring) (ds : list jsstring) :
  In c (join [c; SPACE] (d :: d' :: ds)).
Proof.
  change (join [c; SPACE] (d :: d' :: ds))
    with (d ++ c :: SPACE :: join [c; SPACE] (d' :: ds)).
  apply in_or_app. right. now left.
Qed.

Lemma edit_watch_dirs_eq (value : jsstring) :
  edit_watch_dirs value
  = match trim value with
    | [] => []
    | _ :: _ => map trim (split COMMA value)
    end.
Proof.
  unfold edit_watch_dirs, watch_dirs_of.
  destruct (trim value) as [|c t] eqn:E; [reflexivity|].
  rewrite <- E. now apply split_trim.
Qed.

(** Extra X18. Opening the edit form and saving it keeps the watched
    directories, when no directory has a comma in it or white space at
    either end: the list read back from the field is the list written into
    it, for every such list but one. The list of the single empty name is
    read back as the empty list. *)
Theorem watch_dirs_survive_the_edit_form :
  forall dirs : list jsstring,
    forallb plain_dir dirs = true ->
    (edit_watch_dirs (watch_dirs_field (Some dirs)) = dirs <-> dirs <> [[]]).
Proof.
  intros dirs H. split.
  - intros E ->. cbn in E. discriminate.
  - intros Hne. rewrite forallb_forall in H.
    assert (Ht : Forall (fun x => trim x = x) dirs).
    { apply Forall_forall. intros x Hx. now apply plain_dir_spec, H. }
    assert (Hc : Forall (fun x => ~ In COMMA x) dirs).
    { apply Forall_forall. intros x Hx. now apply plain_dir_spec, H. }
    destruct dirs as [|d ds]; [reflexivity|].
    rewrite edit_watch_dirs_eq. cbn [watch_dirs_field].
    destruct (trim (join (lit ", ") (d :: ds))) as [|c t] eqn:E.
    + exfalso. apply trim_nil_iff in E. destruct ds as [|d' ds].
      * cbn in E. inversion Ht as [|? ? Hd _]; subst.
        assert (Ed : d = []) by (rewrite <- Hd; now apply trim_nil_iff).
        apply Hne. now rewrite Ed.
      * revert E. apply Bool.not_true_iff_false.
        apply Bool.not_true_iff_false. intros E.
        apply (ws_not_In COMMA _ eq_refl E). apply join_has_sep.
    + rewrite split_join_comma by assumption. cbn [map].
      inversion Ht as [|? ? Hd Hds]; subst.
      now rewrite Hd, trim_spaced.
Qed.

Lemma watch_dirs_survive_example :
  forallb plain_dir [lit "src"; lit "my lib"; []] = true
  /\ (edit_watch_dirs (watch_dirs_field (Some [lit "src"; lit "my lib"; []]))
      = [lit "src"; lit "my lib"; []]
      <-> [lit "src"; lit "my lib"; []] <> [[]]).
Proof.
  split; [reflexivity|].
  exact (watch_dirs_survive_the_edit_form [lit "src"; lit "my lib"; []] eq_refl).
Defined.

(** Extra X19. What the forms send for the watched directories: nothing
    ([null] from the register form, the empty array from the edit form)
    exactly when the field is blank, and otherwise one name for each piece
    between commas, at least one; no name sent has a comma in it or white
    space at an end, but a name can be empty. *)
Theorem watch_dirs_sent_are_trimmed_pieces :
  forall value : jsstring,
    (register_watch_dirs value = None
     <-> forallb is_white_space value = true)
    /\ (edit_watch_dirs value = []
        <-> forallb is_white_space value = true)
    /\ (forall dirs,
          register_watch_dirs value = Some dirs ->
          edit_watch_dirs value = dirs
          /\ dirs = map trim (split COMMA value)
          /\ Forall (fun d => trim d = d /\ ~ In COMMA d) dirs).
Proof.
  intros value.
  assert (Hne : map trim (split COMMA value) <> []).
  { pose proof (split_not_nil COMMA value).
    destruct (split COMMA value); [congruence|discriminate]. }
  pose proof (edit_watch_dirs_eq value) as Ee.
  pose proof (trim_nil_iff value) as Hb.
  unfold register_watch_dirs, edit_watch_dirs, watch_dirs_of in *.
  destruct (trim value) as [|c t] eqn:E.
  - split; [|split].
    + split; [intros _; now apply Hb|reflexivity].
    + split; [intros _; now apply Hb|reflexivity].
    + discriminate.
  - split; [|split].
    + split; [discriminate|]. intros H. apply Hb in H. discriminate.
    + split; [|intros H; apply Hb in H; discriminate].
      intros H. rewrite Ee in H. congruence.
    + intros dirs Hs.
      assert (Ed : map trim (split COMMA (c :: t)) = dirs) by congruence.
      cbv beta iota in Ee. rewrite Ee in Ed. subst dirs.
      split; [exact Ee|]. split; [reflexivity|]. apply Forall_forall. intros d Hd.
      apply in_map_iff in Hd. destruct Hd as (p & <- & Hp).
      split; [apply trim_trim|].
      intros Hin. apply trim_In in Hin. revert Hin. now apply (split_pieces COMMA value).
Qed.

End FormFacts.

Section ParseIntFacts.
Import Js Forms.

Lemma digits_fuel_S (fuel : nat) (n : Z) (acc : jsstring) :
  digits_fuel (S fuel) n acc
  = if n <? 10 then (48 + Z.to_N (n mod 10))%N :: acc
    else digits_fuel fuel (n / 10) ((48 + Z.to_N (n mod 10))%N :: acc).
Proof. reflexivity. Qed.

Lemma digits_fuel_spec (fuel : nat) :
  forall (n : Z) (acc : jsstring),
    0 <= n < 2 ^ Z.of_nat (S fuel) ->
    exists ds,
      digits_fuel (S fuel) n acc = ds ++ acc
      /\ forallb is_digit ds = true
      /\ fold_left (fun a c => a * 10 + (Z.of_N c - 48)) ds 0 = n
      /\ (n = 0 -> ds = [48%N])
      /\ (n <> 0 -> ds <> [] /\ hd 0%N ds <> 48%N).
Proof.
  assert (Hd : forall n, 0 <= n ->
             is_digit (48 + Z.to_N (n mod 10)) = true
             /\ Z.of_N (48 + Z.to_N (n mod 10)) - 48 = n mod 10).
  { intros n Hn. pose proof (Z.mod_pos_bound n 10 ltac:(lia)) as B.
    unfold is_digit. split; [|lia].
    apply andb_true_intro. split; apply N.leb_le; lia. }
  induction fuel as [|fuel IH]; intros n acc Hn.
  - assert (n < 10) by (cbn in Hn; lia).
    exists [(48 + Z.to_N (n mod 10))%N]. rewrite digits_fuel_S.
    replace (n <? 10) with true by (symmetry; apply Z.ltb_lt; lia).
    destruct (Hd n ltac:(lia)) as [H1 H2].
    rewrite Z.mod_small in * by lia.
    split; [reflexivity|]. split; [cbn [forallb]; now rewrite H1|].
    split; [cbn [fold_left]; lia|]. split.
    + intros ->. reflexivity.
    + intros Hne. split; [discriminate|]. cbn [hd]. try unfold d0 in *. lia.
  - rewrite (digits_fuel_S (S fuel)). destruct (Hd n ltac:(lia)) as [H1 H2].
    set (d0 := (48 + Z.to_N (n mod 10))%N) in *.
    destruct (n <? 10) eqn:E.
    + apply Z.ltb_lt in E. exists [d0]. rewrite Z.mod_small in H2 by lia.
      split; [reflexivity|]. split; [cbn [forallb]; now rewrite H1|].
      split; [cbn [fold_left]; lia|]. split.
      * intros ->. reflexivity.
      * intros Hne. split; [discriminate|]. cbn [hd]. try unfold d0 in *. lia.
    + apply Z.ltb_ge in E.
      assert (Hq : 0 <= n / 10 < 2 ^ Z.of_nat (S fuel)).
      { split; [apply Z.div_pos; lia|].
        apply Z.div_lt_upper_bound; [lia|].
        replace (Z.of_nat (S (S fuel))) with (Z.of_nat (S fuel) + 1) in Hn by lia.
        rewrite Z.pow_add_r in Hn by lia. lia. }
      destruct (IH (n / 10) (d0 :: acc) Hq) as (ds & E1 & E2 & E3 & _ & E5).
      assert (Hq0 : n / 10 <> 0).
      { intros H0. apply Z.div_small_iff in H0; lia. }
      destruct (E5 Hq0) as [Hne Hhd].
      exists (ds ++ [d0]). split; [now rewrite E1, <- app_assoc|].
      split; [rewrite forallb_app; cbn [forallb]; now rewrite E2, H1|].
      split.
      { rewrite fold_left_app. cbn [fold_left]. rewrite E3, H2.
        pose proof (Z.div_mod n 10 ltac:(lia)). lia. }
      split; [lia|]. intros _. split.
      * destruct ds; [congruence|discriminate].
      * now rewrite hd_app.
Qed.

Lemma digits_spec (n : Z) :
  0 <= n ->
  forallb is_digit (digits n) = true
  /\ fold_left (fun a c => a * 10 + (Z.of_N c - 48)) (digits n) 0 = n
  /\ (n = 0 -> digits n = [48%N])
  /\ (n <> 0 -> digits n <> [] /\ hd 0%N (digits n) <> 48%N).
Proof.
  intros Hn. unfold digits.
  destruct (digits_fuel_spec (Z.to_nat (Z.log2 n)) n []) as (ds & E & H).
  - split; [exact Hn|].
    pose proof (Z.log2_nonneg n).
    replace (Z.of_nat (S (Z.to_nat (Z.log2 n)))) with (Z.succ (Z.log2 n)) by lia.
    destruct (Z.eq_dec n 0) as [->|Hne]; [reflexivity|].
    apply Z.log2_spec. lia.
  - rewrite E, app_nil_r. exact H.
Qed.

Lemma radix_digit_decimal (c : N) :
  radix_digit 10 c = if is_digit c then Some (Z.of_N c - 48) else None.
Proof.
  unfold radix_digit, is_digit.
  destruct (N.leb 48 c && N.leb c 57) eqn:E.
  - apply andb_prop in E. destruct E as [E1 E2].
    apply N.leb_le in E1, E2.
    replace (Z.of_N c - 48 <? 10) with true by (symmetry; apply Z.ltb_lt; lia).
    reflexivity.
  - destruct (N.leb 97 c && N.leb c 122) eqn:E'.
    + apply andb_prop in E'. destruct E' as [E1 E2]. apply N.leb_le in E1, E2.
      replace (Z.of_N c - 87 <? 10) with false by (symmetry; apply Z.ltb_ge; lia).
      reflexivity.
    + destruct (N.leb 65 c && N.leb c 90) eqn:E''; [|reflexivity].
      apply andb_prop in E''. destruct E'' as [E1 E2]. apply N.leb_le in E1, E2.
      replace (Z.of_N c - 55 <? 10) with false by (symmetry; apply Z.ltb_ge; lia).
      reflexivity.
Qed.

Lemma radix_digits_decimal (ds rest : jsstring) :
  forallb is_digit ds = true ->
  is_digit (hd 0%N rest) = false ->
  radix_digits 10 (ds ++ rest) = map (fun c => Z.of_N c - 48) ds.
Proof.
  intros Hds Hrest. induction ds as [|c ds IH].
  - destruct rest as [|r rest]; [reflexivity|]. cbn [app radix_digits hd] in *.
    now rewrite radix_digit_decimal, Hrest.
  - cbn [forallb] in Hds. apply andb_prop in Hds. destruct Hds as [Hc Hds].
    cbn [app radix_digits map]. rewrite radix_digit_decimal, Hc. now rewrite IH.
Qed.

Lemma mathInt_decimal (ds : jsstring) :
  mathInt 10 (map (fun c => Z.of_N c - 48) ds)
  = fold_left (fun a c => a * 10 + (Z.of_N c - 48)) ds 0.
Proof.
  unfold mathInt. generalize 0. induction ds as [|c ds IH]; intros a; [reflexivity|].
  cbn. apply IH.
Qed.

Lemma is_digit_not_ws (c : N) : is_digit c = true -> is_white_space c = false.
Proof.
  unfold is_digit. intros H. apply andb_prop in H. destruct H as [H1 H2].
  apply N.leb_le in H1, H2. unfold is_white_space.
  apply Bool.orb_false_iff. split.
  - cbn [existsb]. repeat (apply Bool.orb_false_iff; split); try reflexivity;
      apply N.eqb_neq; lia.
  - apply Bool.andb_false_iff. left. apply N.leb_gt. lia.
Qed.

(** The numeral [digits n] followed by something that is no digit, read
    by [parseInt] after a sign was taken off. *)
Lemma parseInt_numeral (negative : bool) (n : Z) (rest : jsstring) :
  0 <= n ->
  is_digit (hd 0%N rest) = false ->
  (n = 0 -> hd 0%N rest <> 120%N /\ hd 0%N rest <> 88%N) ->
  (let '(R, numeral) :=
     match digits n ++ rest with
     | z :: x :: rest' =>
         if N.eqb z 48 && (N.eqb x 120 || N.eqb x 88) then (16, rest')
         else (10, digits n ++ rest)
     | _ => (10, digits n ++ rest)
     end in
   match radix_digits R numeral with
   | [] => NaN
   | ds => Int negative (mathInt R ds)
   end) = Int negative n.
Proof.
  intros Hn Hrest Hx.
  destruct (digits_spec n Hn) as (Hd & Hv & H0 & Hnz).
  assert (E : match digits n ++ rest with
              | z :: x :: rest' =>
                  if N.eqb z 48 && (N.eqb x 120 || N.eqb x 88) then (16, rest')
                  else (10, digits n ++ rest)
              | _ => (10, digits n ++ rest)
              end = (10, digits n ++ rest)).
  { destruct (Z.eq_dec n 0) as [->|Hne].
    - rewrite (H0 eq_refl). destruct rest as [|x rest']; [reflexivity|].
      destruct (Hx eq_refl) as [H1 H2]. cbn [hd] in H1, H2.
      cbn [app]. apply N.eqb_neq in H1, H2. now rewrite H1, H2.
    - destruct (Hnz Hne) as [Hne' Hhd].
      destruct (digits n) as [|z ds]; [congruence|]. cbn [hd] in Hhd.
      apply N.eqb_neq in Hhd. cbn [app].
      destruct (ds ++ rest); [reflexivity|]. now rewrite Hhd. }
  rewrite E. rewrite radix_digits_decimal by assumption.
  rewrite <- Hv at 2. rewrite <- mathInt_decimal.
  destruct (digits n) as [|z ds] eqn:Ed; [|reflexivity].
  destruct (Z.eq_dec n 0) as [->|Hne];
    [specialize (H0 eq_refl); congruence|].
  now destruct (Hnz Hne).
Qed.

Lemma digits_head (n : Z) :
  0 <= n -> exists c ds, digits n = c :: ds /\ is_digit c = true.
Proof.
  intros Hn. destruct (digits_spec n Hn) as (Hd & _ & H0 & Hnz).
  destruct (digits n) as [|c ds] eqn:E.
  - destruct (Z.eq_dec n 0) as [->|Hne]; [now specialize (H0 eq_refl)|].
    now destruct (Hnz Hne).
  - exists c, ds. split; [reflexivity|]. cbn in Hd. now apply andb_prop in Hd.
Qed.

(** Extra X20. [parseInt] reads the integer in front and ignores what
    follows it: after any white space, a decimal numeral followed by
    anything that is no digit is read as its value, whatever the rest is
    (a fraction, an exponent, letters), and as the negative value after a
    minus sign. (A [0] followed by [x] is the one exception: it starts a
    hexadecimal numeral.) So the port field gives the integer in front of
    its text, and the timeout field too, with 300 in the place of 0. *)
Theorem parseInt_reads_the_leading_integer :
  forall (w rest : jsstring) (n : Z),
    forallb is_white_space w = true ->
    0 <= n ->
    is_digit (hd 0%N rest) = false ->
    (n = 0 -> hd 0%N rest <> 120%N /\ hd 0%N rest <> 88%N) ->
    parseInt (w ++ digits n ++ rest) = Int false n
    /\ parseInt (w ++ MINUS :: digits n ++ rest) = Int true n
    /\ port_of (digits n ++ rest) = Some (Int false n)
    /\ timeout_of (w ++ digits n ++ rest)
       = Int false (if n =? 0 then 300 else n).
Proof.
  intros w rest n Hw Hn Hrest Hx.
  destruct (digits_head n Hn) as (c & ds & Ed & Hc).
  pose proof (is_digit_not_ws c Hc) as Hcw.
  assert (Hsign : N.eqb c MINUS = false /\ N.eqb c PLUS = false).
  { unfold is_digit in Hc. apply andb_prop in Hc. destruct Hc as [H1 H2].
    apply N.leb_le in H1, H2. split; apply N.eqb_neq; unfold MINUS, PLUS; lia. }
  destruct Hsign as [Hm Hp].
  assert (P : forall w', forallb is_white_space w' = true ->
                         parseInt (w' ++ digits n ++ rest) = Int false n).
  { intros w' Hw'. unfold parseInt. rewrite trimStart_ws by assumption.
    rewrite trimStart_clean;
      [|rewrite Ed; discriminate|now rewrite Ed].
    rewrite Ed at 1. cbn [app]. rewrite Hm, Hp.
    now apply parseInt_numeral. }
  split; [now apply P|]. split; [|split].
  - unfold parseInt. rewrite trimStart_ws by assumption.
    cbn [trimStart]. change (is_white_space MINUS) with false. cbn iota.
    rewrite N.eqb_refl. now apply parseInt_numeral.
  - unfold port_of. rewrite Ed at 1. cbn [app].
    f_equal. now apply (P []).
  - unfold timeout_of. rewrite (P w Hw). now destruct (n =? 0).
Qed.

Lemma parseInt_reads_the_leading_integer_example :
  (forallb is_white_space (lit " ") = true
   /\ 0 <= 1
   /\ is_digit (hd 0%N (lit "e3")) = false
   /\ (1 = 0 -> hd 0%N (lit "e3") <> 120%N /\ hd 0%N (lit "e3") <> 88%N))
  /\ parseInt (lit " " ++ digits 1 ++ lit "e3") = Int false 1
  /\ parseInt (lit " " ++ MINUS :: digits 1 ++ lit "e3") = Int true 1
  /\ port_of (digits 1 ++ lit "e3") = Some (Int false 1)
  /\ timeout_of (lit " " ++ digits 1 ++ lit "e3")
     = Int false (if 1 =? 0 then 300 else 1).
Proof.
  assert (H : 1 = 0 -> hd 0%N (lit "e3") <> 120%N /\ hd 0%N (lit "e3") <> 88%N)
    by (intros H; discriminate H).
  split; [split; [reflexivity|split; [lia|split; [reflexivity|exact H]]]|].
  exact (parseInt_reads_the_leading_integer (lit " ") (lit "e3") 1
           eq_refl ltac:(lia) eq_refl H).
Defined.

End ParseIntFacts.

(** ** The environment of a cron job *)

Section CronFacts.
Import Js Forms Cron.

Lemma last_app_cons {A : Type} (a : list A) (x : A) (b : list A) (d : A) :
  List.last (a ++ x :: b) d = List.last (x :: b) d.
Proof.
  induction a as [|y a IH]; [reflexivity|].
  change ((y :: a) ++ x :: b) with (y :: (a ++ x :: b)).
  destruct (a ++ x :: b) as [|a0 l] eqn:E; [now destruct a|].
  change (List.last (y :: a0 :: l) d) with (List.last (a0 :: l) d). exact IH.
Qed.

Lemma last_cons_clean (x : N) (b : jsstring) :
  is_white_space x = false ->
  is_white_space (List.last b 0%N) = false ->
  is_white_space (List.last (x :: b) 0%N) = false.
Proof.
  intros Hx Hb. destruct b as [|y b]; [exact Hx|].
  change (List.last (x :: y :: b) 0%N) with (List.last (y :: b) 0%N).
  destruct b as [|z b]; [exact Hb|]. exact Hb.
Qed.

Lemma indexOf_app (c : N) (k v : jsstring) :
  ~ In c k -> indexOf c (k ++ c :: v) = Some (List.length k).
Proof.
  induction k as [|x k IH]; cbn [app indexOf List.length]; intros H.
  - now rewrite N.eqb_refl.
  - destruct (N.eqb x c) eqn:E; [apply N.eqb_eq in E; cbn in H; tauto|].
    rewrite IH; [reflexivity|]. cbn in H. tauto.
Qed.

Lemma indexOf_Some (c : N) (s : jsstring) (i : nat) :
  indexOf c s = Some i -> ~ In c (firstn i s).
Proof.
  revert i. induction s as [|x s IH]; intros i; cbn [indexOf]; [discriminate|].
  destruct (N.eqb x c) eqn:E.
  - intros [= <-]. cbn. tauto.
  - destruct (indexOf c s) as [j|]; [|discriminate]. intros [= <-].
    cbn [firstn]. intros [->|H]; [now rewrite N.eqb_refl in E|].
    now apply (IH j).
Qed.

Lemma firstn_In {A : Type} (n : nat) (l : list A) (x : A) :
  In x (firstn n l) -> In x l.
Proof.
  revert l. induction n as [|n IH]; intros [|y l]; cbn; try tauto.
  intros [->|H]; [now left|right; now apply IH].
Qed.

Lemma skipn_In {A : Type} (n : nat) (l : list A) (x : A) :
  In x (skipn n l) -> In x l.
Proof.
  revert l. induction n as [|n IH]; intros [|y l]; cbn; try tauto.
  intros H. right. now apply IH.
Qed.

Lemma removelast_In {A : Type} (l : list A) (x : A) :
  In x (removelast l) -> In x l.
Proof.
  induction l as [|y l IH]; [intros []|]. cbn [removelast].
  destruct l as [|z l]; [intros []|].
  intros [->|H]; [now left|right; now apply IH].
Qed.

Lemma unquote_In (x : N) (v : jsstring) : In x (unquote v) -> In x v.
Proof.
  unfold unquote, slice_1_m1.
  destruct ((startsWith [QUOTE] v && endsWith QUOTE v)
            || (startsWith [APOSTROPHE] v && endsWith APOSTROPHE v));
    [|tauto].
  intros H. apply removelast_In in H. destruct v; [contradiction|now right].
Qed.

(** The trimmed form of a string that starts with a code unit that is no
    white space starts with it too. *)
Lemma trim_head (c : N) (r : jsstring) :
  is_white_space c = false -> hd 0%N (trim (c :: r)) = c /\ trim (c :: r) <> [].
Proof.
  intros Hc. unfold trim. rewrite trimStart_clean by (cbn; congruence).
  destruct (trimStart_cases (rev (c :: r))) as (b & Eb & Hb & _).
  unfold trimEnd. set (u := trimStart (rev (c :: r))) in *.
  assert (Ecr : c :: r = rev u ++ rev b).
  { rewrite <- rev_app_distr, <- Eb. symmetry. apply rev_involutive. }
  destruct (rev u) as [|x t] eqn:Eu.
  - exfalso. cbn in Ecr. assert (Hin : In c (rev b)) by (rewrite <- Ecr; now left).
    apply in_rev in Hin. rewrite forallb_forall in Hb. apply Hb in Hin. congruence.
  - cbn in Ecr. injection Ecr as <- _. split; [reflexivity|discriminate].
Qed.

Lemma plain_name_spec (k : jsstring) :
  plain_name k = true ->
  k <> [] /\ hd 0%N k <> HASH /\ trim k = k
  /\ ~ In EQUALS k /\ ~ In LF k /\ ~ In CR k /\ k <> lit "__proto__".
Proof.
  unfold plain_name, has. destruct k as [|c k]; [discriminate|].
  rewrite !Bool.andb_true_iff, !Bool.negb_true_iff.
  rewrite str_eqb_eq, !has_In.
  intros (((((H1 & H2) & H3) & H4) & H5) & H6).
  split; [discriminate|]. split; [cbn; now apply N.eqb_neq|].
  repeat (split; [assumption|]).
  intros E. rewrite E in H6. discriminate.
Qed.

Lemma plain_value_spec (v : jsstring) :
  plain_value v = true ->
  trim v = v /\ ~ In LF v /\ ~ In CR v /\ unquote v = v.
Proof.
  unfold plain_value, has.
  rewrite !Bool.andb_true_iff, !Bool.negb_true_iff, !str_eqb_eq, !has_In. tauto.
Qed.

(** A line [name=value] of a plain name and a plain value assigns the
    value to the name. *)
Lemma parse_line_plain (vars : Vars) (k v : jsstring) :
  plain_name k = true -> plain_value v = true ->
  parse_line vars (k ++ EQUALS :: v) = assign vars k v.
Proof.
  intros Hk Hv.
  destruct (plain_name_spec k Hk) as (Hne & Hh & Ht & He & _).
  destruct (plain_value_spec v Hv) as (Hvt & _ & _ & Hu).
  destruct (trim_fixed k Ht) as [Hkh _]. destruct (trim_fixed v Hvt) as [_ Hvl].
  destruct k as [|c k']; [congruence|]. cbn [hd] in Hh, Hkh.
  unfold parse_line.
  rewrite trim_clean.
  2:{ exact Hkh. }
  2:{ rewrite last_app_cons. now apply last_cons_clean. }
  cbn [app startsWith]. replace (N.eqb HASH c) with false
    by (symmetry; apply N.eqb_neq; congruence).
  cbn [andb].
  change (c :: k' ++ EQUALS :: v) with ((c :: k') ++ EQUALS :: v).
  rewrite indexOf_app by assumption. cbn [List.length].
  change (S (List.length k')) with (List.length (c :: k')).
  rewrite firstn_app, Nat.sub_diag, firstn_all. cbn [firstn]. rewrite app_nil_r, Ht.
  replace (skipn (S (List.length (c :: k'))) ((c :: k') ++ EQUALS :: v)) with v.
  - now rewrite Hvt, Hu.
  - replace (S (List.length (c :: k'))) with (List.length ((c :: k') ++ [EQUALS]))
      by (rewrite length_app; cbn; lia).
    replace ((c :: k') ++ EQUALS :: v) with (((c :: k') ++ [EQUALS]) ++ v)
      by (now rewrite <- app_assoc).
    symmetry. apply skipn_app_length.
Qed.

(** *** Objects *)

Lemma distinct_app_last (ks : list jsstring) (k : jsstring) :
  distinct (ks ++ [k]) = true -> distinct ks = true /\ ~ In k ks.
Proof.
  induction ks as [|a ks IH]; cbn [app distinct]; [tauto|].
  rewrite Bool.andb_true_iff, Bool.negb_true_iff. intros [Ha Hd].
  destruct (IH Hd) as [Hd' Hk]. rewrite existsb_app in Ha.
  apply Bool.orb_false_iff in Ha. destruct Ha as [Ha1 Ha2].
  split; [now rewrite Ha1, Hd'|].
  intros [->|H]; [|tauto]. cbn in Ha2. now rewrite str_eqb_refl in Ha2.
Qed.

Lemma has_key_false (k : jsstring) (o : Vars) :
  ~ In k (map fst o) -> has_key k o = false.
Proof.
  intros H. unfold has_key. destruct (existsb _ o) eqn:E; [|reflexivity].
  apply existsb_exists in E. destruct E as (kv & Hin & Ek).
  apply str_eqb_eq in Ek. exfalso. apply H. rewrite <- Ek. now apply in_map.
Qed.

Lemma named_only_app (o o' : Vars) :
  named_only (o ++ o') = named_only o && named_only o'.
Proof. apply forallb_app. Qed.

Lemma enumeration_order_prefix (o : Vars) (e : jsstring * jsstring) :
  forall above,
    enumeration_order above (o ++ [e]) = true -> enumeration_order above o = true.
Proof.
  induction o as [|kv o IH]; intros above; [reflexivity|].
  cbn [app enumeration_order]. destruct (array_index (fst kv)) as [j|].
  - rewrite !Bool.andb_true_iff. intros [H1 H2]. split; [exact H1|now apply IH].
  - rewrite named_only_app, Bool.andb_true_iff. tauto.
Qed.

(** A new index above all the others goes to the end. *)
Lemma insert_index_last (k v : jsstring) (i : Z) (o : Vars) :
  array_index k = Some i ->
  forall above,
    enumeration_order above (o ++ [(k, v)]) = true ->
    insert_index i k v o = o ++ [(k, v)] /\ above < i.
Proof.
  intros Hk. induction o as [|kv o IH]; intros above.
  - cbn [app enumeration_order fst]. rewrite Hk, Bool.andb_true_iff.
    intros [H _]. apply Z.ltb_lt in H. now split.
  - cbn [app enumeration_order insert_index].
    destruct (array_index (fst kv)) as [j|].
    + rewrite Bool.andb_true_iff. intros [H1 H2]. apply Z.ltb_lt in H1.
      destruct (IH j H2) as [E Hj].
      replace (j <? i) with true by (symmetry; apply Z.ltb_lt; lia).
      rewrite E. split; [reflexivity|lia].
    + rewrite named_only_app, Bool.andb_true_iff. intros [_ H].
      cbn in H. rewrite Hk in H. discriminate.
Qed.

Lemma assign_last (o : Vars) (k v : jsstring) :
  is_object (o ++ [(k, v)]) = true ->
  k <> lit "__proto__" ->
  assign o k v = o ++ [(k, v)] /\ is_object o = true.
Proof.
  unfold is_object. rewrite !Bool.andb_true_iff, map_app. cbn [map fst].
  intros [Ho Hd] Hp. destruct (distinct_app_last _ _ Hd) as [Hd' Hk].
  split; [|split; [now apply enumeration_order_prefix in Ho|exact Hd']].
  unfold assign.
  replace (str_eqb k (lit "__proto__")) with false.
  2:{ symmetry. apply Bool.not_true_iff_false. intros E.
      now apply str_eqb_eq in E. }
  rewrite has_key_false by assumption.
  destruct (array_index k) as [i|] eqn:Ei; [|reflexivity].
  now destruct (insert_index_last k v i o Ei _ Ho).
Qed.

Lemma plain_vars_app (o o' : Vars) :
  plain_vars (o ++ o') = plain_vars o && plain_vars o'.
Proof. apply forallb_app. Qed.

(** Read line by line, the text of an object builds the object again. *)
Lemma parse_lines_of (o : Vars) :
  is_object o = true -> plain_vars o = true ->
  fold_left parse_line (map (fun kv => fst kv ++ [EQUALS] ++ snd kv) o) [] = o.
Proof.
  induction o as [|[k v] o IH] using rev_ind; [reflexivity|].
  intros Ho Hp. rewrite plain_vars_app, Bool.andb_true_iff in Hp.
  destruct Hp as [Hp He]. cbn in He. rewrite Bool.andb_true_r in He.
  apply Bool.andb_true_iff in He. destruct He as [Hk Hv].
  destruct (plain_name_spec k Hk) as (_ & _ & _ & _ & _ & _ & Hproto).
  destruct (assign_last o k v Ho Hproto) as [Ea Ho'].
  rewrite map_app, fold_left_app.
  match goal with
  | |- fold_left _ _ ?X = _ => replace X with o by (symmetry; exact (IH Ho' Hp))
  end.
  cbn [map fold_left fst snd app].
  now rewrite parse_line_plain.
Qed.

Lemma split_join_LF (l : jsstring) (ls : list jsstring) :
  Forall (fun x => ~ In LF x) (l :: ls) ->
  split LF (join [LF] (l :: ls)) = l :: ls.
Proof.
  revert l. induction ls as [|l' ls IH]; intros l H.
  - cbn. apply split_no_sep. now inversion H.
  - inversion H as [|? ? Hl Hls]; subst.
    change (join [LF] (l :: l' :: ls)) with (l ++ LF :: join [LF] (l' :: ls)).
    rewrite split_app_sep, split_no_sep by assumption.
    now rewrite (IH l' Hls).
Qed.

Lemma join_first_In (c : N) (sep l : jsstring) (ls : list jsstring) :
  In c l -> In c (join sep (l :: ls)).
Proof.
  intros H. destruct ls as [|l' ls]; [exact H|].
  change (join sep (l :: l' :: ls)) with (l ++ sep ++ join sep (l' :: ls)).
  apply in_or_app. now left.
Qed.

(** Extra X21. Opening the edit form of a cron job and saving it keeps the
    environment, when the names and values are plain (a name: not empty, no
    white space at an end, no [=], no line break, no [#] in front, not
    [__proto__]; a value: no white space at an end, no line break, no pair
    of quotes around it): the text written into the field is read back as
    the same properties in the same order. An object without properties is
    read back as [null]. *)
Theorem env_vars_survive_the_edit_form :
  forall vars : Vars,
    is_object vars = true ->
    plain_vars vars = true ->
    parseEnvVars (envVarsToText (Some vars))
    = match vars with
      | [] => None
      | _ :: _ => Some vars
      end.
Proof.
  intros vars Ho Hp. destruct vars as [|[k v] o]; [reflexivity|].
  set (vars := (k, v) :: o) in *.
  set (line := fun kv : jsstring * jsstring => fst kv ++ [EQUALS] ++ snd kv).
  assert (Hl : Forall (fun x => ~ In LF x) (map line vars)).
  { apply Forall_forall. intros x Hx. apply in_map_iff in Hx.
    destruct Hx as ([k' v'] & <- & Hin).
    unfold plain_vars in Hp. rewrite forallb_forall in Hp.
    specialize (Hp _ Hin). cbn [fst snd] in Hp.
    apply Bool.andb_true_iff in Hp. destruct Hp as [Hk Hv].
    destruct (plain_name_spec k' Hk) as (_ & _ & _ & _ & HL & _).
    destruct (plain_value_spec v' Hv) as (_ & HL' & _).
    unfold line. cbn [fst snd]. intros Hin'.
    apply in_app_or in Hin'. destruct Hin' as [H|H]; [tauto|].
    cbn in H. destruct H as [H|H]; [discriminate H|tauto]. }
  unfold parseEnvVars.
  change (envVarsToText (Some vars)) with (join [LF] (map line vars)).
  assert (Hne : trim (join [LF] (map line vars)) <> []).
  { intros E. apply trim_nil_iff in E.
    apply (ws_not_In EQUALS _ eq_refl E).
    unfold vars. cbn [map]. apply join_first_In.
    unfold line. cbn [fst snd]. apply in_or_app. right. now left. }
  destruct (trim (join [LF] (map line vars))) as [|c t]; [congruence|].
  change (map line vars) with (line (k, v) :: map line o) in *.
  rewrite split_join_LF by assumption.
  change (line (k, v) :: map line o) with (map line vars).
  unfold line. rewrite parse_lines_of by assumption. reflexivity.
Qed.

Lemma env_vars_survive_example :
  (is_object [(lit "2", lit "b"); (lit "PATH", lit "/usr/bin:/bin");
              (lit "EMPTY", [])] = true
   /\ plain_vars [(lit "2", lit "b"); (lit "PATH", lit "/usr/bin:/bin");
                  (lit "EMPTY", [])] = true)
  /\ parseEnvVars
       (envVarsToText (Some [(lit "2", lit "b"); (lit "PATH", lit "/usr/bin:/bin");
                             (lit "EMPTY", [])]))
     = Some [(lit "2", lit "b"); (lit "PATH", lit "/usr/bin:/bin");
             (lit "EMPTY", [])].
Proof.
  split; [split; reflexivity|].
  exact (env_vars_survive_the_edit_form
           [(lit "2", lit "b"); (lit "PATH", lit "/usr/bin:/bin");
            (lit "EMPTY", [])] eq_refl eq_refl).
Defined.

(** *** What is read from any text *)

Lemma insert_index_In (i : Z) (k v : jsstring) (o : Vars) (e : jsstring * jsstring) :
  In e (insert_index i k v o) -> e = (k, v) \/ In e o.
Proof.
  induction o as [|kv o IH]; cbn [insert_index].
  - intros [<-|[]]. now left.
  - destruct (array_index (fst kv)) as [j|].
    + destruct (j <? i).
      * intros [<-|H]; [right; now left|].
        destruct (IH H) as [E|E]; [now left|right; now right].
      * intros [<-|H]; [now left|now right].
    + intros [<-|H]; [now left|now right].
Qed.

Lemma assign_In (o : Vars) (k v k' v' : jsstring) :
  In (k', v') (assign o k v) ->
  In (k', v') o \/ (k' = k /\ v' = v /\ k <> lit "__proto__").
Proof.
  unfold assign. destruct (str_eqb k (lit "__proto__")) eqn:Ep; [now left|].
  assert (Hp : k <> lit "__proto__").
  { intros E. rewrite E in Ep. now rewrite str_eqb_refl in Ep. }
  destruct (has_key k o).
  - unfold update. intros H. apply in_map_iff in H.
    destruct H as ([k0 v0] & E & Hin). cbn [fst] in E.
    destruct (str_eqb k0 k) eqn:Ek.
    + apply str_eqb_eq in Ek. injection E as <- <-. right. now subst.
    + left. now rewrite <- E.
  - destruct (array_index k) as [i|].
    + intros H. apply insert_index_In in H.
      destruct H as [[= -> ->]|H]; [now right|now left].
    + intros H. apply in_app_or in H.
      destruct H as [H|[[= -> ->]|[]]]; [now left|now right].
Qed.

(** A line changes nothing or assigns to a name; the name is never empty,
    has no white space at an end and no [=] in it, and does not start with
    [#]. *)
Lemma parse_line_cases (vars : Vars) (line : jsstring) :
  ~ In LF line ->
  parse_line vars line = vars
  \/ exists k v,
       parse_line vars line = assign vars k v
       /\ k <> [] /\ trim k = k /\ ~ In EQUALS k /\ ~ In LF k
       /\ hd 0%N k <> HASH /\ ~ In LF v.
Proof.
  intros HL. unfold parse_line.
  destruct (trim_decomp line) as (a & b & _ & _ & _ & Hh & _).
  assert (Hin : forall x, In x (trim line) -> In x line)
    by (intros x; apply trim_In).
  destruct (trim line) as [|c t]; [now left|]. cbn [hd] in Hh.
  cbn [startsWith]. destruct (N.eqb HASH c) eqn:Ec; [now left|]. cbn [andb].
  destruct (indexOf EQUALS (c :: t)) as [[|n]|] eqn:Ei; [now left| |now left].
  right. eexists _, _. split; [reflexivity|].
  pose proof (indexOf_Some _ _ _ Ei) as Hno.
  cbn [firstn] in *.
  destruct (trim_head c (firstn n t) Hh) as [Hhd Hne].
  split; [exact Hne|]. split; [apply trim_trim|]. split; [|split; [|split]].
  - intros H. apply trim_In in H. contradiction.
  - intros H. apply trim_In in H.
    apply (firstn_In (S n) (c :: t)) in H. now apply HL, Hin.
  - rewrite Hhd. apply N.eqb_neq in Ec. congruence.
  - intros H. apply unquote_In, trim_In, skipn_In in H. now apply HL, Hin.
Qed.

Lemma parse_lines_names (lines : list jsstring) :
  Forall (fun l => ~ In LF l) lines ->
  forall (vars : Vars) (k v : jsstring),
    In (k, v) (fold_left parse_line lines vars) ->
    In (k, v) vars
    \/ (k <> [] /\ trim k = k /\ ~ In EQUALS k /\ ~ In LF k
        /\ hd 0%N k <> HASH /\ k <> lit "__proto__" /\ ~ In LF v).
Proof.
  induction 1 as [|l lines Hl _ IH]; intros vars k v; [now left|].
  cbn [fold_left]. intros H. destruct (IH _ _ _ H) as [Hin|Hgood]; [|now right].
  destruct (parse_line_cases vars l Hl) as [E|(k0 & v0 & E & G)];
    rewrite E in Hin; [now left|].
  apply assign_In in Hin. destruct Hin as [Hin|(-> & -> & Hp)]; [now left|].
  right. tauto.
Qed.

(** Extra X22. Whatever the text, [parseEnvVars] gives [null] or an object
    with at least one property, and every name in it is not empty, has no
    white space at either end, no [=] and no line break in it, does not
    start with [#], and is not [__proto__]; no value has a line break. *)
Theorem parseEnvVars_gives_clean_names :
  forall (text : jsstring) (vars : Vars),
    parseEnvVars text = Some vars ->
    vars <> []
    /\ forall k v : jsstring,
         In (k, v) vars ->
         k <> [] /\ trim k = k /\ ~ In EQUALS k /\ ~ In LF k
         /\ hd 0%N k <> HASH /\ k <> lit "__proto__" /\ ~ In LF v.
Proof.
  intros text vars. unfold parseEnvVars.
  destruct (trim text) as [|c t]; [discriminate|].
  destruct (fold_left parse_line (split LF text) []) as [|e o] eqn:E;
    [discriminate|].
  intros [= <-]. split; [discriminate|]. intros k v Hin.
  rewrite <- E in Hin. apply parse_lines_names in Hin.
  - now destruct Hin as [[]|H].
  - apply Forall_forall. intros l. apply split_pieces.
Qed.

Lemma parseEnvVars_gives_clean_names_example :
  parseEnvVars (lit " A = 1 ") = Some [(lit "A", lit "1")]
  /\ [(lit "A", lit "1")] <> []
  /\ forall k v : jsstring,
       In (k, v) [(lit "A", lit "1")] ->
       k <> [] /\ trim k = k /\ ~ In EQUALS k /\ ~ In LF k
       /\ hd 0%N k <> HASH /\ k <> lit "__proto__" /\ ~ In LF v.
Proof.
  split; [reflexivity|].
  exact (parseEnvVars_gives_clean_names (lit " A = 1 ") [(lit "A", lit "1")]
           eq_refl).
Defined.

(** *** The last line for a name *)

Lemma own_update (o : Vars) (k v : jsstring) :
  has_key k o = true -> own (update k v o) k = Some v.
Proof.
  unfold own, has_key, update. induction o as [|[k0 v0] o IH]; [discriminate|].
  cbn [existsb map find fst]. destruct (str_eqb k0 k) eqn:E.
  - intros _. cbn [fst]. now rewrite E.
  - cbn [orb fst]. rewrite E. exact IH.
Qed.

Lemma own_insert_index (i : Z) (o : Vars) (k v : jsstring) :
  has_key k o = false -> own (insert_index i k v o) k = Some v.
Proof.
  unfold own, has_key. induction o as [|[k0 v0] o IH]; cbn [insert_index].
  - intros _. cbn. now rewrite str_eqb_refl.
  - cbn [existsb fst]. intros H. apply Bool.orb_false_iff in H.
    destruct H as [H1 H2].
    destruct (array_index k0) as [j|].
    + destruct (j <? i).
      * cbn [find fst]. rewrite H1. now apply IH.
      * cbn [find fst]. now rewrite str_eqb_refl.
    + cbn [find fst]. now rewrite str_eqb_refl.
Qed.

Lemma own_app_last (o : Vars) (k v : jsstring) :
  has_key k o = false -> own (o ++ [(k, v)]) k = Some v.
Proof.
  unfold own, has_key. induction o as [|[k0 v0] o IH]; cbn [app].
  - intros _. cbn. now rewrite str_eqb_refl.
  - cbn [existsb find fst]. intros H. apply Bool.orb_false_iff in H.
    destruct H as [H1 H2]. rewrite H1. now apply IH.
Qed.

Lemma own_assign (o : Vars) (k v : jsstring) :
  k <> lit "__proto__" -> own (assign o k v) k = Some v.
Proof.
  intros Hp. unfold assign.
  replace (str_eqb k (lit "__proto__")) with false.
  2:{ symmetry. apply Bool.not_true_iff_false. intros E.
      now apply str_eqb_eq in E. }
  destruct (has_key k o) eqn:Eh; [now apply own_update|].
  destruct (array_index k) as [i|];
    [now apply own_insert_index|now apply own_app_last].
Qed.

(** Extra X23. The last line for a name decides its value: whatever the
    text before, a last line [name=value] with a plain name and a plain
    value makes the parsed environment give the value for the name. *)
Theorem last_line_for_a_name_wins :
  forall (text k v : jsstring),
    plain_name k = true ->
    plain_value v = true ->
    exists vars : Vars,
      parseEnvVars (text ++ LF :: k ++ EQUALS :: v) = Some vars
      /\ own vars k = Some v.
Proof.
  intros text k v Hk Hv.
  destruct (plain_name_spec k Hk) as (Hne & _ & Ht & He & HL & _ & Hp).
  destruct (plain_value_spec v Hv) as (_ & HLv & _).
  assert (Hline : ~ In LF (k ++ EQUALS :: v)).
  { intros H. apply in_app_or in H. destruct H as [H|[H|H]];
      [tauto|discriminate H|tauto]. }
  assert (Hfold : own (fold_left parse_line
                         (split LF (text ++ LF :: k ++ EQUALS :: v)) []) k
                  = Some v).
  { rewrite split_app_sep, fold_left_app, (split_no_sep LF _ Hline).
    cbn [fold_left]. rewrite parse_line_plain by assumption.
    now apply own_assign. }
  unfold parseEnvVars.
  destruct (trim (text ++ LF :: k ++ EQUALS :: v)) as [|c t] eqn:Et.
  - exfalso. apply trim_nil_iff in Et.
    apply (ws_not_In EQUALS _ eq_refl Et).
    apply in_or_app. right. right. apply in_or_app. right. now left.
  - destruct (fold_left parse_line
                (split LF (text ++ LF :: k ++ EQUALS :: v)) []) as [|e o];
      [discriminate|].
    eexists. split; [reflexivity|exact Hfold].
Qed.

Lemma last_line_for_a_name_wins_example :
  (plain_name (lit "A") = true /\ plain_value (lit "2") = true)
  /\ exists vars : Vars,
       parseEnvVars (lit "A=1" ++ LF :: lit "A" ++ EQUALS :: lit "2") = Some vars
       /\ own vars (lit "A") = Some (lit "2").
Proof.
  split; [split; reflexivity|].
  exact (last_line_for_a_name_wins (lit "A=1") (lit "A") (lit "2")
           eq_refl eq_refl).
Defined.

End CronFacts.

(** ** The findings of a security scan *)

Section SecurityFacts.
Import Js Security.

Lemma group_one_cases (grouped : Groups) (f : Finding) :
  group_one grouped f
  = if breaks f then None
    else Some {| red := red grouped ++ filter (has_status (lit "red")) [f];
                 amber := amber grouped ++ filter (has_status (lit "amber")) [f];
                 green := green grouped ++ filter (has_status (lit "green")) [f] |}.
Proof.
  unfold group_one, breaks, has_status. cbn [filter].
  set (key := status_key f).
  destruct (str_eqb key (lit "red")) eqn:Er.
  - apply str_eqb_eq in Er. rewrite Er. cbn. now rewrite !app_nil_r.
  - destruct (str_eqb key (lit "amber")) eqn:Ea.
    + apply str_eqb_eq in Ea. rewrite Ea. cbn. now rewrite !app_nil_r.
    + destruct (str_eqb key (lit "green")) eqn:Eg.
      * apply str_eqb_eq in Eg. rewrite Eg. cbn. now rewrite !app_nil_r.
      * destruct (existsb (str_eqb key) inherited_names); [reflexivity|].
        rewrite !app_nil_r. now destruct grouped.
Qed.

Lemma group_all_spec (findings : list Finding) :
  forall grouped,
    group_all grouped findings
    = if existsb breaks findings then None
      else Some {| red := red grouped ++ filter (has_status (lit "red")) findings;
                   amber := amber grouped
                            ++ filter (has_status (lit "amber")) findings;
                   green := green grouped
                            ++ filter (has_status (lit "green")) findings |}.
Proof.
  induction findings as [|f findings IH]; intros grouped.
  - cbn. rewrite !app_nil_r. now destruct grouped.
  - cbn [group_all existsb]. rewrite group_one_cases.
    destruct (breaks f); [reflexivity|]. cbn [orb]. rewrite IH.
    destruct (existsb breaks findings); [reflexivity|].
    cbn [red amber green]. rewrite <- !app_assoc.
    cbn [filter].
    destruct (has_status (lit "red") f), (has_status (lit "amber") f),
      (has_status (lit "green") f); reflexivity.
Qed.

(** Extra X24. The findings of a scan, with strings for their status and
    their texts, are shown by severity: first those of status [red], then
    [amber], then [green], each group in the order of the report. A finding
    of any other status, or of none, is left out without a word, so that a
    report with findings can show an empty panel, where a report without
    findings shows [No findings]. For such findings the display throws
    exactly when the status of one of them names a property of every
    object, like [constructor]. *)
Theorem findings_are_shown_by_severity :
  forall findings : list Finding,
    shown_findings findings
    = match findings with
      | [] => Some NoFindings
      | _ :: _ =>
          if existsb breaks findings then None
          else Some (Cards (filter (has_status (lit "red")) findings
                            ++ filter (has_status (lit "amber")) findings
                            ++ filter (has_status (lit "green")) findings))
      end.
Proof.
  intros [|f findings]; [reflexivity|].
  unfold shown_findings. rewrite group_all_spec.
  now destruct (existsb breaks (f :: findings)).
Qed.

End SecurityFacts.
